(** * renpy-translate: a shallow embedding of [renpy-translate.py]

    The development follows the script top-down in the dependency order of
    its parts:

    - [PyStr]: the handful of [str] methods the script calls
      ([strip], [startswith], [split], [join], slicing), on strings of code
      points below 256;
    - [Re]: a backtracking matcher for the fragment of Python's [re] syntax
      that the script's five patterns use, with numbered capture groups;
    - [Num]: Python's mixed [int]/[float] arithmetic as used by the price
      estimate ([PPC], [len(..) * PPC], [sum]);
    - the classes [TranslationString], [TranslationItem], [TranslationBlock],
      [TranslationFile] with their methods, over an explicit world holding the
      global [TRANSLATION_CACHE] and the log of calls made to
      [TRANSLATION_CLIENT];
    - the parse loop and the writeback loop of [main];
    - the top level of the module, statement by statement.

    Conventions.  A Python [str] is a [string]; a character is an [ascii]
    read as the code point of the same number, and the classes [\s] and [\w]
    are Python's for that range.  Line numbers are [nat].  A [list] that
    Python mutates through several references (the [TranslationItem]s that
    the parser keeps in [translation_item] while they already sit in a block)
    lives in a heap addressed by position.  A file is the list of lines that
    [readlines] returns and [writelines] takes.  A Python exception is a
    [Raise] result. *)

From Stdlib Require Import ZArith Floats Ascii.
From stdpp Require Import base option list strings gmap.

Local Open Scope Z_scope.
Local Open Scope nat_scope.

(** ** Python strings *)

Module PyStr.

(** Code point of a character. *)
Definition ord (c : ascii) : N := Ascii.N_of_ascii c.

Definition between (lo hi n : N) : bool := (lo <=? n)%N && (n <=? hi)%N.

(** [str.isspace] on one character, which is also [\s] of a [str] pattern
    and the set [str.strip()] removes: TAB, LF, VT, FF, CR, FS, GS, RS, US,
    SPACE, NEL and NBSP. *)
Definition isspace (c : ascii) : bool :=
  let n := ord c in
  between 9 13 n || between 28 32 n || (n =? 133)%N || (n =? 160)%N.

(** [\w] of a [str] pattern: alphanumeric ([str.isalnum]) or underscore. *)
Definition isword (c : ascii) : bool :=
  let n := ord c in
  between 48 57 n || between 65 90 n || (n =? 95)%N || between 97 122 n
  || (n =? 170)%N || between 178 179 n || (n =? 181)%N || between 185 186 n
  || between 188 190 n || between 192 214 n || between 216 246 n
  || between 248 255 n.

Definition is_empty (s : string) : bool :=
  match s with EmptyString => true | String _ _ => false end.

(** Every character is whitespace; true of the empty string. *)
Fixpoint all_space (s : string) : bool :=
  match s with
  | EmptyString => true
  | String c s' => isspace c && all_space s'
  end.

(** Every character satisfies [p]. *)
Fixpoint every (p : ascii → bool) (s : string) : bool :=
  match s with
  | EmptyString => true
  | String c s' => p c && every p s'
  end.

(** The first character, if any, fails [p]. *)
Definition stops (p : ascii → bool) (s : string) : bool :=
  match s with
  | EmptyString => true
  | String c _ => negb (p c)
  end.

(** The character occurs in the string. *)
Fixpoint occurs (c : ascii) (s : string) : bool :=
  match s with
  | EmptyString => false
  | String d s' => Ascii.eqb c d || occurs c s'
  end.

(** [s.lstrip()] *)
Fixpoint lstrip (s : string) : string :=
  match s with
  | EmptyString => EmptyString
  | String c s' => if isspace c then lstrip s' else s
  end.

(** [s.rstrip()] *)
Fixpoint rstrip (s : string) : string :=
  match s with
  | EmptyString => EmptyString
  | String c s' =>
      let r := rstrip s' in
      if isspace c && is_empty r then EmptyString else String c r
  end.

(** [s.strip()] *)
Definition strip (s : string) : string := rstrip (lstrip s).

(** The longest prefix whose characters satisfy [p], and what follows it. *)
Fixpoint take_while (p : ascii → bool) (s : string) : string :=
  match s with
  | EmptyString => EmptyString
  | String c s' => if p c then String c (take_while p s') else EmptyString
  end.

Fixpoint drop_while (p : ascii → bool) (s : string) : string :=
  match s with
  | EmptyString => EmptyString
  | String c s' => if p c then drop_while p s' else s
  end.

(** [s.startswith(p)] *)
Fixpoint startswith (p s : string) : bool :=
  match p, s with
  | EmptyString, _ => true
  | String _ _, EmptyString => false
  | String a p', String b s' => Ascii.eqb a b && startswith p' s'
  end.

(** [s[n:]] for [n >= 0] *)
Fixpoint slice_from (n : nat) (s : string) : string :=
  match n, s with
  | O, _ => s
  | S _, EmptyString => EmptyString
  | S n', String _ s' => slice_from n' s'
  end.

(** [len(s)] *)
Definition len (s : string) : nat := String.length s.

(** The two-character delimiter written ["\\n"] in the script: a backslash
    followed by the letter n. *)
Definition backslash : ascii := Ascii.ascii_of_nat 92.
Definition ESC_NL : string := String backslash (String "n"%char EmptyString).

(** [s.split("\\n")]: cut at every occurrence of the delimiter, scanning
    from the left; [cur] holds the current piece, reversed. *)
Fixpoint split_go (cur : string) (s : string) : list string :=
  match s with
  | EmptyString => [String.rev cur]
  | String c s' =>
      match s' with
      | String d s'' =>
          if Ascii.eqb c backslash && Ascii.eqb d "n"%char
          then String.rev cur :: split_go EmptyString s''
          else split_go (String c cur) s'
      | EmptyString => split_go (String c cur) s'
      end
  end.
Definition split_esc_nl (s : string) : list string := split_go EmptyString s.

(** ["\\n".join(l)] *)
Fixpoint join_esc_nl (l : list string) : string :=
  match l with
  | [] => EmptyString
  | [x] => x
  | x :: rest => x +:+ ESC_NL +:+ join_esc_nl rest
  end.

(** The double quote and the line feed. *)
Definition dquote : ascii := Ascii.ascii_of_nat 34.
Definition LF : ascii := Ascii.ascii_of_nat 10.

(** What [format] writes in place of [{}] for a [str] or [None]. *)
Definition fmt (o : option string) : string :=
  match o with
  | Some s => s
  | None => "None"
  end.

End PyStr.

(** ** Regular expressions *)

Module Re.

(** The fragment of the pattern language the script uses. *)
Inductive regex : Type :=
| Eps                          (* the empty pattern, as in [()] *)
| Chr (c : ascii)              (* a literal character *)
| Cls (p : ascii → bool)       (* a class: [\s], [\w], [.], [[...]] *)
| Seq (r1 r2 : regex)          (* r1r2 *)
| Alt (r1 r2 : regex)          (* r1|r2, left first *)
| Star (r : regex)             (* r*, greedy *)
| Group (n : nat) (r : regex). (* the n-th parenthesis *)

(** r+ and r?, both greedy. *)
Definition Plus (r : regex) : regex := Seq r (Star r).
Definition Opt (r : regex) : regex := Alt r Eps.

(** A run of literal characters. *)
Fixpoint Str (s : string) : regex :=
  match s with
  | EmptyString => Eps
  | String c s' => Seq (Chr c) (Str s')
  end.

(** What the groups captured; a group that took no part is absent, and
    [m.group(n)] is then [None]. *)
Abbreviation captures := (gmap nat string).

(** The text between position [s] and the later position [s']. *)
Definition consumed (s s' : string) : string :=
  String.substring 0 (String.length s - String.length s') s.

(** Backtracking matcher in continuation-passing style: [go r s caps k]
    tries the ways [r] can match a prefix of [s], in the priority order of
    [re], and hands the rest of the input to [k]; the first way that [k]
    accepts wins.  An iteration of [r*] has to consume input, so no more
    than [length s] iterations are ever tried. *)
Fixpoint go {A : Type} (r : regex) (s : string) (caps : captures)
    (k : string → captures → option A) {struct r} : option A :=
  match r with
  | Eps => k s caps
  | Chr c =>
      match s with
      | String d s' => if Ascii.eqb c d then k s' caps else None
      | EmptyString => None
      end
  | Cls p =>
      match s with
      | String d s' => if p d then k s' caps else None
      | EmptyString => None
      end
  | Seq r1 r2 => go r1 s caps (fun s1 caps1 => go r2 s1 caps1 k)
  | Alt r1 r2 =>
      match go r1 s caps k with
      | Some x => Some x
      | None => go r2 s caps k
      end
  | Star r1 =>
      (fix iter (n : nat) (s : string) (caps : captures) {struct n} : option A :=
         match n with
         | O => k s caps
         | S n' =>
             match go r1 s caps (fun s1 caps1 =>
                      if String.length s1 <? String.length s
                      then iter n' s1 caps1 else None) with
             | Some x => Some x
             | None => k s caps
             end
         end) (String.length s) s caps
  | Group n r1 =>
      go r1 s caps (fun s1 caps1 => k s1 (<[n := consumed s s1]> caps1))
  end.

(** [re.match(r, s)]: anchored at the start, not at the end. *)
Definition re_match (r : regex) (s : string) : option captures :=
  go r s ∅ (fun _ caps => Some caps).

(** Length of the match of [r] at the start of [s], if any. *)
Definition match_len (r : regex) (s : string) : option nat :=
  go r s ∅ (fun s' _ => Some (String.length s - String.length s')).

(** [re.sub(r, "", s)]: delete every non-overlapping match, leftmost
    first; [skip] counts the characters of the current match still to be
    dropped. *)
Fixpoint sub_go (r : regex) (skip : nat) (s : string) : string :=
  match s with
  | EmptyString => EmptyString
  | String c s' =>
      match skip with
      | S n => sub_go r n s'
      | O =>
          match match_len r s with
          | Some (S n) => sub_go r n s'
          | _ => String c (sub_go r 0 s')
          end
      end
  end.
Definition sub_empty (r : regex) (s : string) : string := sub_go r 0 s.

(** Character classes of the script's patterns. *)
Definition cls_s : regex := Cls PyStr.isspace.          (* \s *)
Definition cls_w : regex := Cls PyStr.isword.           (* \w *)
Definition cls_dot : regex :=                            (* . *)
  Cls (fun c => negb (Ascii.eqb c PyStr.LF)).

Definition one_of (s : string) (c : ascii) : bool :=
  existsb (Ascii.eqb c) (String.list_ascii_of_string s).

(** [[A-z0-9_]]; the range [A-z] runs from code 65 to code 122. *)
Definition cls_ident : regex :=
  Cls (fun c => PyStr.between 65 122 (PyStr.ord c)
                || PyStr.between 48 57 (PyStr.ord c)
                || one_of "_" c).

(** [[A-z0-9:/?.=&#_-]] *)
Definition cls_attr : regex :=
  Cls (fun c => PyStr.between 65 122 (PyStr.ord c)
                || PyStr.between 48 57 (PyStr.ord c)
                || one_of ":/?.=&#_-" c).

End Re.

(** ** Numbers *)

Module Num.

(** A Python number as the script has them: [int] or [float]. *)
Inductive num : Type :=
| Int (z : Z)
| Float (f : float).

(** [float(z)]; the script only converts lengths and small constants,
    all below 2^63, where the primitive conversion is the correctly
    rounded one. *)
Definition to_float (z : Z) : float :=
  if (z <? 0)%Z
  then PrimFloat.opp (PrimFloat.of_uint63 (Uint63.of_Z (- z)))
  else PrimFloat.of_uint63 (Uint63.of_Z z).

Definition as_float (a : num) : float :=
  match a with Int z => to_float z | Float f => f end.

(** [a + b] *)
Definition add (a b : num) : num :=
  match a, b with
  | Int x, Int y => Int (x + y)
  | _, _ => Float (PrimFloat.add (as_float a) (as_float b))
  end.

(** [a * b] *)
Definition mul (a b : num) : num :=
  match a, b with
  | Int x, Int y => Int (x * y)
  | _, _ => Float (PrimFloat.mul (as_float a) (as_float b))
  end.

(** [a / b], true division: always a [float]. *)
Definition truediv (a b : num) : num :=
  Float (PrimFloat.div (as_float a) (as_float b)).

(** [a == b] *)
Definition eqb (a b : num) : bool :=
  match a, b with
  | Int x, Int y => (x =? y)%Z
  | _, _ => PrimFloat.eqb (as_float a) (as_float b)
  end.

(** [sum(l)]: starts from the [int] 0 and adds from the left. *)
Definition sum (l : list num) : num := fold_left add l (Int 0).

End Num.

(** ** Exceptions and results *)

Inductive exn : Type :=
| AttributeError   (* a method or attribute of [None] *)
| IndexError       (* list index out of range *)
| TypeError        (* [None] where a [str] is required *)
| ClientError      (* whatever [TRANSLATION_CLIENT.translate] raises *)
| ImportError      (* a module that cannot be imported *)
| EOFError         (* [input] at the end of the input *)
| SystemExit (status : Z)
| DanglingItem.    (* a reference outside the heap: no Python state has one *)

Inductive Result (A : Type) : Type :=
| Ok (a : A)
| Raise (e : exn).
Arguments Ok {A} a.
Arguments Raise {A} e.

Definition rbind {A B : Type} (x : Result A) (f : A → Result B) : Result B :=
  match x with
  | Ok a => f a
  | Raise e => Raise e
  end.

(** [o] if it is there, else the exception [e]. *)
Definition or_raise {A : Type} (e : exn) (o : option A) : Result A :=
  match o with
  | Some a => Ok a
  | None => Raise e
  end.

Declare Scope result_scope.
Delimit Scope result_scope with result.
Notation "'let*' x ':=' e 'in' k" := (rbind e (fun x => k))
  (at level 10, x name, e at level 100, k at level 200) : result_scope.

(** [l[z]] with Python's negative indices. *)
Definition getitem {A : Type} (l : list A) (z : Z) : Result A :=
  let n := Z.of_nat (length l) in
  if (z <? 0)%Z
  then (if (0 <=? n + z)%Z then or_raise IndexError (l !! Z.to_nat (n + z))
        else Raise IndexError)
  else or_raise IndexError (l !! Z.to_nat z).

(** ** The world: cache and translation client *)

(** [TRANSLATION_CACHE] maps a source string to a dictionary from language
    code to translated string.  [client_log] lists the calls made to
    [TRANSLATION_CLIENT.translate], oldest first, as (text, language). *)
Record World : Type := mkWorld {
  TRANSLATION_CACHE : gmap string (gmap string string);
  client_log : list (string * string)
}.

(** The client is a black box: given the calls made so far, a text and a
    target language it returns the translated text, or raises. *)
Abbreviation Client := (list (string * string) → string → string → option string).

(** Computations that read and write the world and may raise. *)
Definition M (A : Type) : Type := World → Result (A * World).

Definition ret {A : Type} (a : A) : M A := fun w => Ok (a, w).

Definition bind {A B : Type} (m : M A) (f : A → M B) : M B :=
  fun w => match m w with
           | Ok (a, w') => f a w'
           | Raise e => Raise e
           end.

Definition lift {A : Type} (x : Result A) : M A :=
  fun w => match x with Ok a => Ok (a, w) | Raise e => Raise e end.

Declare Scope world_scope.
Delimit Scope world_scope with world.
Notation "'let*' x ':=' e 'in' k" := (bind e (fun x => k))
  (at level 10, x name, e at level 100, k at level 200) : world_scope.

(** [for x in l: f(x)], collecting the updated objects. *)
Fixpoint for_each {A B : Type} (f : A → M B) (l : list A) : M (list B) :=
  match l with
  | [] => ret []
  | x :: rest => bind (f x) (fun y => bind (for_each f rest) (fun ys => ret (y :: ys)))
  end.

(** Module-level constants. *)

Definition PPC : Num.num := Num.truediv (Num.Int 20) (Num.Int 1000000).

(** [TAG_PATTERN]: [{/?i}|{/?q}|{/?b}|{/?size}|{/?a(=[A-z0-9:/?.=&#_-]+)?}] *)
Definition TAG_PATTERN : Re.regex :=
  let tag (name : Re.regex) :=
    Re.Seq (Re.Chr "{") (Re.Seq (Re.Opt (Re.Chr "/")) (Re.Seq name (Re.Chr "}"))) in
  Re.Alt (tag (Re.Str "i"))
 (Re.Alt (tag (Re.Str "q"))
 (Re.Alt (tag (Re.Str "b"))
 (Re.Alt (tag (Re.Str "size"))
         (tag (Re.Seq (Re.Chr "a")
                 (Re.Opt (Re.Group 1 (Re.Seq (Re.Chr "=") (Re.Plus Re.cls_attr))))))))).

(** ** class TranslationString *)

Module TranslationString.

Record t : Type := mk {
  content : string;
  to_language : option string;
  translation : option string
}.

(** [__init__] *)
Definition init (content : string) : t :=
  {| content := content; to_language := None; translation := None |}.

(** [pull_from_cache]: the cached translation if the cache has a non-empty
    dictionary for the content and a non-empty string for the language in
    it; [None] otherwise. *)
Definition pull_from_cache (self : t) (to_language : string) (w : World) : option string :=
  match TRANSLATION_CACHE w !! content self with
  | Some available_translations =>
      if bool_decide (available_translations = ∅) then None
      else match available_translations !! to_language with
           | Some cached_translation =>
               if PyStr.is_empty cached_translation then None
               else Some cached_translation
           | None => None
           end
  | None => None
  end.

(** [estimate_price] *)
Definition estimate_price (self : t) (to_language : string) (w : World) : Num.num * Z :=
  match pull_from_cache self to_language w with
  | Some _ => (Num.Int 0, 1%Z)
  | None => (Num.mul (Num.Int (Z.of_nat (PyStr.len (content self)))) PPC, 0%Z)
  end.

Section translate.
Variable TRANSLATION_CLIENT : Client.

(** One call of [TRANSLATION_CLIENT.translate], logged. *)
Definition client_translate (text target_language : string) : M string :=
  fun w =>
    match TRANSLATION_CLIENT (client_log w) text target_language with
    | Some translated =>
        Ok (translated,
            {| TRANSLATION_CACHE := TRANSLATION_CACHE w;
               client_log := client_log w ++ [(text, target_language)] |})
    | None => Raise ClientError
    end.

(** [TRANSLATION_CACHE[key] = {lang: value}] *)
Definition cache_store (key lang value : string) : M unit :=
  fun w =>
    Ok (tt, {| TRANSLATION_CACHE := <[key := {[lang := value]}]> (TRANSLATION_CACHE w);
               client_log := client_log w |}).

(** [translate]; the result is the object after the call. *)
Definition translate (self : t) (to_language : string) : M t :=
  let self := {| content := content self; to_language := Some to_language;
                 translation := translation self |} in
  if PyStr.is_empty (PyStr.strip (content self)) then
    ret {| content := content self; to_language := Some to_language;
           translation := Some (content self) |}
  else
    fun w =>
      match pull_from_cache self to_language w with
      | Some cached_translation =>
          ret {| content := content self; to_language := Some to_language;
                 translation := Some cached_translation |} w
      | None =>
          (let* translated := client_translate (content self) to_language in
           let* _ := cache_store (content self) to_language translated in
           ret {| content := content self; to_language := Some to_language;
                  translation := Some translated |})%world w
      end.
End translate.

End TranslationString.

(** [sum(item[0] for item in data), sum(item[1] for item in data)], the
    closing line of every container's [estimate_price]. *)
Definition sum_pairs (data : list (Num.num * Z)) : Num.num * Z :=
  (Num.sum (map fst data), fold_left Z.add (map snd data) 0%Z).

(** ** class TranslationItem *)

Module TranslationItem.

Record t : Type := mk {
  source_line : nat;
  target_line : nat;
  translation_strings : list TranslationString.t;
  _original_content : string
}.

(** [sanitize]: drop the tags, split at the escaped newlines, one
    [TranslationString] per piece. *)
Definition sanitize (self : t) : t :=
  {| source_line := source_line self;
     target_line := target_line self;
     translation_strings :=
       map TranslationString.init
           (PyStr.split_esc_nl (Re.sub_empty TAG_PATTERN (_original_content self)));
     _original_content := _original_content self |}.

(** The property [original_content] and its setter. *)
Definition original_content (self : t) : string := _original_content self.

Definition set_original_content (self : t) (original_content : string) : t :=
  sanitize {| source_line := source_line self;
              target_line := target_line self;
              translation_strings := translation_strings self;
              _original_content := original_content |}.

(** [__init__(source_line, target_line, original_content)] *)
Definition init (source_line target_line : nat) (original_content : string) : t :=
  set_original_content
    {| source_line := source_line; target_line := target_line;
       translation_strings := []; _original_content := EmptyString |}
    original_content.

(** [self.target_line = i] *)
Definition set_target_line (i : nat) (self : t) : t :=
  {| source_line := source_line self;
     target_line := i;
     translation_strings := translation_strings self;
     _original_content := _original_content self |}.

(** [translate] *)
Definition translate (TRANSLATION_CLIENT : Client) (self : t) (to_language : string) : M t :=
  (let* strings :=
     for_each (fun translation_string =>
                 TranslationString.translate TRANSLATION_CLIENT translation_string to_language)
              (translation_strings self) in
   ret {| source_line := source_line self;
          target_line := target_line self;
          translation_strings := strings;
          _original_content := _original_content self |})%world.

(** [get_translated_content]: [join] raises on a string still untranslated. *)
Definition get_translated_content (self : t) : Result string :=
  (let* parts :=
     or_raise TypeError (mapM TranslationString.translation (translation_strings self)) in
   Ok (PyStr.join_esc_nl parts))%result.

(** [estimate_price] *)
Definition estimate_price (self : t) (to_language : string) (w : World) : Num.num * Z :=
  sum_pairs (map (fun item => TranslationString.estimate_price item to_language w)
                 (translation_strings self)).

End TranslationItem.

(** The [TranslationItem] objects, addressed by position.  A block holds
    references; so does the parser's variable [translation_item]. *)
Abbreviation Heap := (list TranslationItem.t).

Definition deref (heap : Heap) (ref : nat) : Result TranslationItem.t :=
  or_raise DanglingItem (heap !! ref).

(** Two states of an item that differ at most in what translation wrote:
    same lines, same contents of the strings, in the same order. *)
Definition same_shape (item item' : TranslationItem.t) : Prop :=
  TranslationItem.source_line item' = TranslationItem.source_line item
  ∧ TranslationItem.target_line item' = TranslationItem.target_line item
  ∧ TranslationString.content <$> TranslationItem.translation_strings item'
    = TranslationString.content <$> TranslationItem.translation_strings item.

(** ** class TranslationBlock *)

Module TranslationBlock.

Record t : Type := mk {
  source_file : string;
  block_line : nat;
  translation_items : list nat
}.

Definition init (source_file : string) (block_line : nat) : t :=
  {| source_file := source_file; block_line := block_line; translation_items := [] |}.

(** [add_translation_item] *)
Definition add_translation_item (self : t) (translation_item : nat) : t :=
  {| source_file := source_file self; block_line := block_line self;
     translation_items := translation_items self ++ [translation_item] |}.

(** [translate]: every item in order, each one updated in place. *)
Fixpoint translate_items (TRANSLATION_CLIENT : Client) (to_language : string)
    (items : list nat) (heap : Heap) : M Heap :=
  match items with
  | [] => ret heap
  | ref :: rest =>
      (let* item := lift (deref heap ref) in
       let* item' := TranslationItem.translate TRANSLATION_CLIENT item to_language in
       translate_items TRANSLATION_CLIENT to_language rest (<[ref := item']> heap))%world
  end.

Definition translate (TRANSLATION_CLIENT : Client) (self : t) (to_language : string)
    (heap : Heap) : M Heap :=
  translate_items TRANSLATION_CLIENT to_language (translation_items self) heap.

(** [estimate_price] *)
Definition estimate_price (self : t) (to_language : string) (heap : Heap) (w : World)
    : Result (Num.num * Z) :=
  (let* items := or_raise DanglingItem (mapM (fun ref => heap !! ref) (translation_items self)) in
   Ok (sum_pairs (map (fun item => TranslationItem.estimate_price item to_language w) items)))%result.

End TranslationBlock.

(** ** class TranslationFile *)

Module TranslationFile.

Record t : Type := mk {
  filename : string;
  translation_blocks : list TranslationBlock.t
}.

Definition init (filename : string) : t :=
  {| filename := filename; translation_blocks := [] |}.

(** [add_translation_block] *)
Definition add_translation_block (self : t) (translation_block : TranslationBlock.t) : t :=
  {| filename := filename self;
     translation_blocks := translation_blocks self ++ [translation_block] |}.

(** [translate] *)
Fixpoint translate_blocks (TRANSLATION_CLIENT : Client) (to_language : string)
    (blocks : list TranslationBlock.t) (heap : Heap) : M Heap :=
  match blocks with
  | [] => ret heap
  | block :: rest =>
      (let* heap' := TranslationBlock.translate TRANSLATION_CLIENT block to_language heap in
       translate_blocks TRANSLATION_CLIENT to_language rest heap')%world
  end.

Definition translate (TRANSLATION_CLIENT : Client) (self : t) (to_language : string)
    (heap : Heap) : M Heap :=
  translate_blocks TRANSLATION_CLIENT to_language (translation_blocks self) heap.

(** [estimate_price] *)
Fixpoint estimate_blocks (blocks : list TranslationBlock.t) (to_language : string)
    (heap : Heap) (w : World) : Result (list (Num.num * Z)) :=
  match blocks with
  | [] => Ok []
  | block :: rest =>
      (let* x := TranslationBlock.estimate_price block to_language heap w in
       let* xs := estimate_blocks rest to_language heap w in
       Ok (x :: xs))%result
  end.

Definition estimate_price (self : t) (to_language : string) (heap : Heap) (w : World)
    : Result (Num.num * Z) :=
  (let* data := estimate_blocks (translation_blocks self) to_language heap w in
   Ok (sum_pairs data))%result.

End TranslationFile.

(** ** Strings of a tree and what the cache can serve *)

(** The strings of an item reached through a reference. *)
Definition strings_at (heap : Heap) (ref : nat) : list TranslationString.t :=
  item ← option_list (heap !! ref); TranslationItem.translation_strings item.

(** The strings of a tree, block by block and item by item; an item that
    two entries refer to counts twice, as it does in the sums. *)
Definition strings_of (heap : Heap) (translation_file : TranslationFile.t)
    : list TranslationString.t :=
  b ← TranslationFile.translation_blocks translation_file;
  ref ← TranslationBlock.translation_items b;
  strings_at heap ref.

(** The cache can serve [content] for [lang]. *)
Definition cached (lang : string) (w : World) (content : string) : Prop :=
  is_Some (TranslationString.pull_from_cache (TranslationString.init content) lang w).

(** Every content the first cache can serve, the second can too. *)
Definition grows (lang : string) (w w' : World) : Prop :=
  ∀ c, cached lang w c → cached lang w' c.

(** The reference is in the heap, and the cache can serve each content
    behind it that is not blank. *)
Definition served (lang : string) (heap : Heap) (w : World) (ref : nat) : Prop :=
  is_Some (heap !! ref)
  ∧ Forall (fun c => PyStr.all_space c = false → cached lang w c)
           (TranslationString.content <$> strings_at heap ref).

(** The cache has a non-empty translation of [content] into [lang]. *)
Definition in_cache (content lang : string) (w : World) : Prop :=
  ∃ d t, TRANSLATION_CACHE w !! content = Some d ∧ d !! lang = Some t ∧ t ≠ EmptyString.

(** The contents of the strings of a tree, in the order of translation. *)
Definition contents_of (heap : Heap) (translation_file : TranslationFile.t) : list string :=
  TranslationString.content <$> strings_of heap translation_file.

(** Every entry of the cache maps a content to itself, for [lang] only. *)
Definition echo_cache (lang : string) (w : World) : Prop :=
  ∀ c d, TRANSLATION_CACHE w !! c = Some d → d = {[ lang := c ]}.

(** ** The parse loop of [main] *)

(** [translate ([A-z0-9_]+) ([A-z0-9_]+)] *)
Definition RE_HEADER : Re.regex :=
  Re.Seq (Re.Str "translate ")
 (Re.Seq (Re.Group 1 (Re.Plus Re.cls_ident))
 (Re.Seq (Re.Chr " ")
         (Re.Group 2 (Re.Plus Re.cls_ident)))).

(** The pattern of both extraction sites: group 1 is [\s*], group 2 is an
    optional [\w+], then [\s*], a double quote, group 3 is [.*], and a
    double quote. *)
Definition RE_QUOTED : Re.regex :=
  Re.Seq (Re.Group 1 (Re.Star Re.cls_s))
 (Re.Seq (Re.Opt (Re.Group 2 (Re.Plus Re.cls_w)))
 (Re.Seq (Re.Star Re.cls_s)
 (Re.Seq (Re.Chr PyStr.dquote)
 (Re.Seq (Re.Group 3 (Re.Star Re.cls_dot))
         (Re.Chr PyStr.dquote))))).

(** The loop's local variables. *)
Record ParseState : Type := mkParseState {
  translation_file : TranslationFile.t;
  translation_block : option TranslationBlock.t;
  translation_item : option nat;
  block : option nat;
  heap : Heap
}.

(** [m.group(3)] of [re.match(RE_QUOTED, s)]; [m] may be [None]. *)
Definition quoted_content (s : string) : Result string :=
  (let* m := or_raise AttributeError (Re.re_match RE_QUOTED s) in
   or_raise TypeError (m !! 3))%result.

(** The body of the loop for line [i]. *)
Definition parse_line (file : string) (text_lines : list string) (i : nat) (line : string)
    (st : ParseState) : Result ParseState :=
  if negb (bool_decide (block st = Some i)) && bool_decide (is_Some (Re.re_match RE_HEADER line))
  then
    Ok {| translation_file :=
            match translation_block st with
            | Some b => TranslationFile.add_translation_block (translation_file st) b
            | None => translation_file st
            end;
          translation_block := Some (TranslationBlock.init file i);
          translation_item := translation_item st;
          block := Some i;
          heap := heap st |}
  else
    (let* prev := getitem text_lines (Z.of_nat i - 1) in
     if PyStr.startswith "#" (PyStr.strip prev) && PyStr.startswith "old" (PyStr.strip line)
     then
       let* content := quoted_content (PyStr.strip line) in
       Ok {| translation_file := translation_file st;
             translation_block := translation_block st;
             translation_item := Some (length (heap st));
             block := block st;
             heap := heap st ++ [TranslationItem.init i 0 content] |}
     else if PyStr.startswith "old" (PyStr.strip prev) && PyStr.startswith "new" (PyStr.strip line)
     then
       let* ref := or_raise AttributeError (translation_item st) in
       let* current := or_raise AttributeError (translation_block st) in
       Ok {| translation_file := translation_file st;
             translation_block := Some (TranslationBlock.add_translation_item current ref);
             translation_item := translation_item st;
             block := block st;
             heap := alter (TranslationItem.set_target_line i) ref (heap st) |}
     else if PyStr.startswith "#" (PyStr.strip prev)
             && negb (PyStr.startswith "# nvl clear" (PyStr.strip prev))
             && negb (PyStr.is_empty (PyStr.strip line))
     then
       let* content := quoted_content (PyStr.slice_from 2 (PyStr.strip prev)) in
       let item := if PyStr.startswith "nvl clear" (PyStr.strip line)
                   then TranslationItem.init i (i + 1) content
                   else TranslationItem.init i i content in
       let* current := or_raise AttributeError (translation_block st) in
       Ok {| translation_file := translation_file st;
             translation_block :=
               Some (TranslationBlock.add_translation_item current (length (heap st)));
             translation_item := Some (length (heap st));
             block := block st;
             heap := heap st ++ [item] |}
     else Ok st)%result.

(** [for i, line in enumerate(text_lines)], from line [i] on. *)
Fixpoint parse_loop (file : string) (text_lines : list string) (i : nat)
    (rest : list string) (st : ParseState) : Result ParseState :=
  match rest with
  | [] => Ok st
  | line :: rest' =>
      (let* st' := parse_line file text_lines i line st in
       parse_loop file text_lines (S i) rest' st')%result
  end.

(** The part of [main] that handles one file up to [file_map[file] = ...]. *)
Definition parse_file (file : string) (text_lines : list string)
    : Result (TranslationFile.t * Heap) :=
  (let* st :=
     parse_loop file text_lines 0 text_lines
       {| translation_file := TranslationFile.init file;
          translation_block := None; translation_item := None; block := None;
          heap := [] |} in
   Ok (match translation_block st with
       | Some b => TranslationFile.add_translation_block (translation_file st) b
       | None => translation_file st
       end, heap st))%result.

(** The tests of the second and third branch of the parse loop. *)
Definition old_after_comment (prev line : string) : bool :=
  PyStr.startswith "#" (PyStr.strip prev) && PyStr.startswith "old" (PyStr.strip line).

Definition new_after_old (prev line : string) : bool :=
  PyStr.startswith "old" (PyStr.strip prev) && PyStr.startswith "new" (PyStr.strip line).

(** Every [new] line that follows an [old] line has a comment line before
    that [old] line, as in the files the engine generates. *)
Definition paired (text_lines : list string) : Prop :=
  ∀ j before prev line,
    text_lines !! j = Some before →
    text_lines !! S j = Some prev →
    text_lines !! S (S j) = Some line →
    new_after_old prev line = true →
    old_after_comment before prev = true.

(** The item behind [ref] sits in the open block or in a closed one. *)
Definition located (ref : nat) (st : ParseState) : Prop :=
  (∃ b, translation_block st = Some b ∧ ref ∈ TranslationBlock.translation_items b)
  ∨ (∃ b, b ∈ TranslationFile.translation_blocks (translation_file st)
          ∧ ref ∈ TranslationBlock.translation_items b).

(** The test of the fourth branch of the parse loop. *)
Definition after_commented_original (prev line : string) : bool :=
  PyStr.startswith "#" (PyStr.strip prev)
  && negb (PyStr.startswith "# nvl clear" (PyStr.strip prev))
  && negb (PyStr.is_empty (PyStr.strip line)).

(** The line is a block header. *)
Definition is_header (line : string) : bool :=
  bool_decide (is_Some (Re.re_match RE_HEADER line)).

(** The indices of the header lines, counting from [j]. *)
Fixpoint header_lines_from (j : nat) (lines : list string) : list nat :=
  match lines with
  | [] => []
  | line :: rest =>
      if is_header line then j :: header_lines_from (S j) rest
      else header_lines_from (S j) rest
  end.

(** The blocks the loop has opened so far: the closed ones, then the open
    one. *)
Definition opened_blocks (st : ParseState) : list TranslationBlock.t :=
  TranslationFile.translation_blocks (translation_file st)
  ++ option_list (translation_block st).

(** The state the loop starts from. *)
Definition parse_start (file : string) : ParseState :=
  {| translation_file := TranslationFile.init file;
     translation_block := None; translation_item := None; block := None;
     heap := [] |}.

(** The reference leads to an item whose lines are in order and bounded. *)
Definition well_placed (heap : Heap) (bound : nat) (ref : nat) : Prop :=
  ∃ item,
    heap !! ref = Some item
    ∧ TranslationItem.source_line item ≤ TranslationItem.target_line item
    ∧ TranslationItem.target_line item ≤ bound.

(** The loop's state after [j] lines: the pending item exists, every item
    was read from one of the first [j] lines, and the references held by
    the blocks are well placed. *)
Definition parse_wf (j : nat) (st : ParseState) : Prop :=
  (∀ ref, translation_item st = Some ref → ref < length (heap st))
  ∧ Forall (fun item => TranslationItem.source_line item < j) (heap st)
  ∧ Forall (fun b => Forall (well_placed (heap st) j) (TranslationBlock.translation_items b))
           (opened_blocks st).

(** The reference leads to an item whose strings all have a translation. *)
Definition translated (heap : Heap) (ref : nat) : Prop :=
  ∃ item,
    heap !! ref = Some item
    ∧ Forall (fun u => is_Some (TranslationString.translation u))
             (TranslationItem.translation_strings item).

(** ** The writeback loop of [main] *)

(** The pattern of the writeback loop as Python reads it.  In the source
    the raw string literal ends at the first of the two double quotes that
    follow the third opening parenthesis; the second one opens another
    literal holding the closing parenthesis, and adjacent literals are
    concatenated.  So group 1 is [\s*], group 2 is an optional [\w+], then
    [\s*], and group 3 is empty: no quote is looked for. *)
Definition RE_TARGET : Re.regex :=
  Re.Seq (Re.Group 1 (Re.Star Re.cls_s))
 (Re.Seq (Re.Opt (Re.Group 2 (Re.Plus Re.cls_w)))
 (Re.Seq (Re.Star Re.cls_s)
         (Re.Group 3 Re.Eps))).

(** What the writeback pattern captures on [line]: the leading whitespace,
    the word after it if there is one, and the empty third group. *)
Definition target_groups (line : string) : Re.captures :=
  let indent := PyStr.take_while PyStr.isspace line in
  let token := PyStr.take_while PyStr.isword (PyStr.drop_while PyStr.isspace line) in
  let caps1 : Re.captures := {[ 1 := indent ]} in
  let caps2 := if PyStr.is_empty token then caps1 else <[2 := token]> caps1 in
  <[3 := EmptyString]> caps2.

(** The target lines the tree records, block by block. *)
Definition recorded_targets (heap : Heap) (translation_file : TranslationFile.t) : list nat :=
  b ← TranslationFile.translation_blocks translation_file;
  omap (fun ref => TranslationItem.target_line <$> heap !! ref)
       (TranslationBlock.translation_items b).

(** [format(a, b, c)] on the template: two fields, a space, and the third
    field between double quotes, then a line feed. *)
Definition format_line (a b : option string) (c : string) : string :=
  PyStr.fmt a +:+ PyStr.fmt b +:+ " " +:+ String PyStr.dquote c
  +:+ String PyStr.dquote (String PyStr.LF EmptyString).

(** The body of the inner loop: one item, one line replaced. *)
Definition rewrite_item (heap : Heap) (text_lines : list string) (ref : nat)
    : Result (list string) :=
  (let* item := deref heap ref in
   let* line := getitem text_lines (Z.of_nat (TranslationItem.target_line item)) in
   let* m := or_raise AttributeError (Re.re_match RE_TARGET line) in
   let* translated := TranslationItem.get_translated_content item in
   Ok (<[TranslationItem.target_line item := format_line (m !! 1) (m !! 2) translated]>
         text_lines))%result.

Fixpoint rewrite_items (heap : Heap) (items : list nat) (text_lines : list string)
    : Result (list string) :=
  match items with
  | [] => Ok text_lines
  | ref :: rest =>
      (let* text_lines' := rewrite_item heap text_lines ref in
       rewrite_items heap rest text_lines')%result
  end.

Fixpoint rewrite_blocks (heap : Heap) (blocks : list TranslationBlock.t)
    (text_lines : list string) : Result (list string) :=
  match blocks with
  | [] => Ok text_lines
  | b :: rest =>
      (let* text_lines' := rewrite_items heap (TranslationBlock.translation_items b) text_lines in
       rewrite_blocks heap rest text_lines')%result
  end.

(** The lines handed to [writelines] for one file. *)
Definition rewrite_file (heap : Heap) (translation_file : TranslationFile.t)
    (text_lines : list string) : Result (list string) :=
  rewrite_blocks heap (TranslationFile.translation_blocks translation_file) text_lines.

(** ** The whole script *)

(** What a run does to the outside world, in order. *)
Inductive event : Type :=
| CreateCache                                   (* an empty cache file is written *)
| LoadCache                                     (* the cache file is read *)
| ParseFile (file : string)                     (* a source file is read and parsed *)
| Prompt                                        (* [confirm] asks on the terminal *)
| RemoveTree                                    (* [rmtree] of the output directory *)
| LoadClient                                    (* [translate.Client()] *)
| Translate (calls : list (string * string))    (* calls to the client for one file *)
| WriteFile (file : string) (text_lines : list string)
| PersistCache (cache : gmap string (gmap string string)).

(** The command line after [parse_args]. *)
Record Args : Type := mkArgs {
  input_dir : string;
  target_language : string;
  api_file : string;
  output_dir : string
}.

(** Everything a run depends on. *)
Record Invocation : Type := mkInvocation {
  importable : string → bool;           (* can the module be imported? *)
  run_as_script : bool;                 (* is [__name__] equal to ['__main__']? *)
  args : option Args;                   (* [None]: [parse_args] rejects the command line *)
  output_dir_exists : bool;
  answers : list bool;                  (* what is answered, prompt by prompt, up to the
                                           end of the input *)
  available_languages : list string;
  cache_file : option (gmap string (gmap string string));  (* the cache file, if any *)
  source_files : list (string * list string);  (* the [glob] result, with each file's lines *)
  TRANSLATION_CLIENT : Client
}.

(** The state of the process: names bound at module level, events so far,
    answers not yet consumed. *)
Record Proc : Type := mkProc {
  globals : list string;
  events : list event;
  pending_answers : list bool
}.

(** A step of the process either goes on or raises; the state survives. *)
Definition Run (A : Type) : Type := Proc → Result A * Proc.

Definition run_ret {A : Type} (a : A) : Run A := fun p => (Ok a, p).

Definition run_bind {A B : Type} (m : Run A) (f : A → Run B) : Run B :=
  fun p => match m p with
           | (Ok a, p') => f a p'
           | (Raise e, p') => (Raise e, p')
           end.

Definition run_raise {A : Type} (e : exn) : Run A := fun p => (Raise e, p).

Definition run_lift {A : Type} (x : Result A) : Run A := fun p => (x, p).

Definition emit (ev : event) : Run unit :=
  fun p => (Ok tt, {| globals := globals p; events := events p ++ [ev];
                      pending_answers := pending_answers p |}).

Definition define (name : string) : Run unit :=
  fun p => (Ok tt, {| globals := globals p ++ [name]; events := events p;
                      pending_answers := pending_answers p |}).

Declare Scope run_scope.
Delimit Scope run_scope with run.
Notation "'let*' x ':=' e 'in' k" := (run_bind e (fun x => k))
  (at level 10, x name, e at level 100, k at level 200) : run_scope.

Fixpoint run_each {A B : Type} (f : A → Run B) (l : list A) : Run (list B) :=
  match l with
  | [] => run_ret []
  | x :: rest =>
      (let* y := f x in
       let* ys := run_each f rest in
       run_ret (y :: ys))%run
  end.

(** [str.lower] on one character: the capital letters of the first 256
    code points go up by 32, every other character stays. *)
Definition lower_char (c : ascii) : ascii :=
  let n := PyStr.ord c in
  if PyStr.between 65 90 n || (PyStr.between 192 222 n && negb (n =? 215)%N)
  then Ascii.ascii_of_N (n + 32) else c.

(** [s.lower()] *)
Fixpoint lower (s : string) : string :=
  match s with
  | EmptyString => EmptyString
  | String c s' => String (lower_char c) (lower s')
  end.

(** The test of [confirm] on the text that [input] returned. *)
Definition accepts (typed : string) : bool :=
  bool_decide (lower typed ∈ ["y"; "yes"]).

(** [confirm]: the prompt is printed, then the next answer is read; when
    the input is at its end, [input] raises [EOFError]. *)
Definition confirm : Run bool :=
  fun p => match pending_answers p with
           | a :: rest =>
               (Ok a, {| globals := globals p; events := events p ++ [Prompt];
                         pending_answers := rest |})
           | [] => (Raise EOFError,
                    {| globals := globals p; events := events p ++ [Prompt];
                       pending_answers := [] |})
           end.

(** [check] *)
Definition check (inv : Invocation) : Run unit :=
  if output_dir_exists inv then
    (let* yes := confirm in
     if yes then emit RemoveTree else run_raise (SystemExit 0))%run
  else run_ret tt.

(** [main]; [mirror] stands for the computation of [out_path]. *)
Definition main (inv : Invocation) (a : Args) : Run unit :=
  (let* _ := match cache_file inv with
             | None => emit CreateCache
             | Some _ => run_ret tt
             end in
   let* _ := emit LoadCache in
   let cache := default ∅ (cache_file inv) in
   (* File Parsing *)
   let* file_map :=
     run_each (fun '(file, text_lines) =>
                 let* _ := emit (ParseFile file) in
                 let* parsed := run_lift (parse_file file text_lines) in
                 run_ret (file, text_lines, parsed))
              (source_files inv) in
   (* Price Estimation *)
   let* _ :=
     run_each (fun '(_, _, (translation_file, heap)) =>
                 run_lift (TranslationFile.estimate_price translation_file
                             (target_language a) heap (mkWorld cache [])))
              file_map in
   let* yes := confirm in
   if negb yes then run_raise (SystemExit 1)
   else
     (* Translation *)
     let translate_one :=
       fix translate_one (l : list (string * list string * (TranslationFile.t * Heap)))
           (w : World) : Run (list (string * list string * (TranslationFile.t * Heap)) * World) :=
         match l with
         | [] => run_ret ([], w)
         | (file, text_lines, (translation_file, heap)) :: rest =>
             let* r := run_lift (TranslationFile.translate (TRANSLATION_CLIENT inv)
                                   translation_file (target_language a) heap w) in
             let* _ := emit (Translate (drop (length (client_log w)) (client_log (snd r)))) in
             let* done := translate_one rest (snd r) in
             run_ret ((file, text_lines, (translation_file, fst r)) :: fst done, snd done)
         end in
     let* translated := translate_one file_map (mkWorld cache []) in
     (* Writeback to disk *)
     let* _ :=
       run_each (fun '(file, text_lines, (translation_file, heap)) =>
                   let* out := run_lift (rewrite_file heap translation_file text_lines) in
                   emit (WriteFile file out))
                (fst translated) in
     emit (PersistCache (TRANSLATION_CACHE (snd translated))))%run.


Definition persists (ev : event) : bool :=
  match ev with PersistCache _ => true | _ => false end.

(** What [main] does before it parses: the cache file is created if it is
    missing, then read. *)
Definition cache_setup (inv : Invocation) : list event :=
  match cache_file inv with
  | None => [CreateCache; LoadCache]
  | Some _ => [LoadCache]
  end.

(** The statements of the module's top level. *)
Inductive stmt : Type :=
| Import (module : string)       (* [import m], [from m import ...] *)
| FilterWarnings                 (* [warnings.filterwarnings("ignore")] *)
| Assign (name : string)         (* [NAME = <constant>] *)
| SysExit (status : Z)           (* [sys.exit(status)] *)
| Def (name : string)            (* [def name] or [class name] *)
| IfMain.                        (* [if __name__ == '__main__':] and its body *)

(** The body under [if __name__ == '__main__':]. *)
Definition script (inv : Invocation) : Run unit :=
  match args inv with
  | None => run_raise (SystemExit 2)
  | Some a =>
      (let* _ := check inv in
       let* _ := emit LoadClient in
       if negb (bool_decide (target_language a ∈ available_languages inv))
       then run_raise (SystemExit 1)
       else main inv a)%run
  end.

Definition exec (inv : Invocation) (s : stmt) : Run unit :=
  match s with
  | Import m => if importable inv m then define m else run_raise ImportError
  | FilterWarnings => run_ret tt
  | Assign name => define name
  | SysExit status => run_raise (SystemExit status)
  | Def name => define name
  | IfMain => if run_as_script inv then script inv else run_ret tt
  end.

Fixpoint exec_all (inv : Invocation) (l : list stmt) : Run unit :=
  match l with
  | [] => run_ret tt
  | s :: rest => (let* _ := exec inv s in exec_all inv rest)%run
  end.

(** Statements that only bind a name or do nothing. *)
Definition binds (s : stmt) : option (list string) :=
  match s with
  | Import m => Some [m]
  | Assign name | Def name => Some [name]
  | FilterWarnings => Some []
  | SysExit _ | IfMain => None
  end.

(** renpy-translate.py, top to bottom. *)
Definition MODULE : list stmt :=
  [ Import "warnings"; FilterWarnings;
    Import "os"; Import "re"; Import "sys"; Import "json"; Import "asyncio";
    Import "argparse"; Import "requests"; Import "glob"; Import "shutil";
    Import "collections"; Import "signal";
    Import "tqdm"; Import "colorama";
    Import "google.cloud";
    Assign "TRANSLATION_CACHE_FILE";
    SysExit 1;
    Assign "TAG_PATTERN";
    Assign "PPC";
    Def "confirm"; Def "check";
    Def "Tag"; Def "TranslationString"; Def "TranslationItem";
    Def "TranslationBlock"; Def "TranslationFile";
    Def "parse_tags"; Def "main";
    IfMain ].

(** The exit status of the interpreter: the code of an uncaught
    [SystemExit], 1 for any other uncaught exception, 0 at the end of the
    module. *)
Definition exit_status (r : Result unit) : Z :=
  match r with
  | Ok _ => 0%Z
  | Raise (SystemExit status) => status
  | Raise _ => 1%Z
  end.

(** One run of [python renpy-translate.py ...]. *)
Definition run_module (program : list stmt) (inv : Invocation) : Result unit * Proc :=
  exec_all inv program
    {| globals := []; events := []; pending_answers := answers inv |}.

(** ** Files as texts *)











(** ** Concrete inputs *)

Module Sample.

(** A line as [readlines] returns it, and a double-quoted string. *)
Definition ln (s : string) : string := s +:+ String PyStr.LF EmptyString.
Definition quoted (s : string) : string :=
  String PyStr.dquote s +:+ String PyStr.dquote EmptyString.

(** The four-line file of the parsing example. *)
Definition hello_file : list string :=
  [ ln "translate french start_label";
    ln ("# " +:+ quoted "Hello world");
    ln ("old " +:+ quoted "Hello world");
    ln ("new " +:+ quoted "") ].

(** A client that answers every text with the same text in brackets. *)
Definition client_brackets : Client := fun _ text _ => Some ("<" +:+ text +:+ ">").

(** An invocation with everything in place. *)
Definition good_invocation : Invocation :=
  {| importable := fun _ => true;
     run_as_script := true;
     args := Some {| input_dir := "tl"; target_language := "fr";
                     api_file := "key.json"; output_dir := "out" |};
     output_dir_exists := false;
     answers := [true];
     available_languages := ["de"; "fr"];
     cache_file := None;
     source_files := [("tl/script.rpy", hello_file)];
     TRANSLATION_CLIENT := client_brackets |}.

(** A narrator line: the target line has no word before the quote. *)
Definition narrator_file : list string :=
  [ ln "translate french start_a170b500:";
    ln "";
    ln ("    # " +:+ quoted "Hello world");
    ln ("    " +:+ quoted "") ].

(** A commented original followed by a statement that is no dialogue. *)
Definition statement_file : list string :=
  [ ln "translate french start_a170b500:";
    ln "";
    ln ("    # e " +:+ quoted "Hello world");
    ln "    pass" ].

(** Parse, translate from an empty cache with [client_brackets], write back. *)
Definition round_trip (file : string) (text_lines : list string) : Result (list string) :=
  (let* parsed := parse_file file text_lines in
   let* translated :=
     TranslationFile.translate client_brackets (fst parsed) "fr" (snd parsed) (mkWorld ∅ []) in
   rewrite_file (fst translated) (fst parsed) text_lines)%result.

(** A cache, as loaded from the cache file, whose translation of Hi holds
    the escaped newline. *)
Definition cache_two_lines : gmap string (gmap string string) :=
  {[ "Hi" := {[ "fr" := "Salut" +:+ PyStr.ESC_NL +:+ "toi" ]} ]}.

(** A dialogue line whose second unit is a single space. *)
Definition blank_unit_file : list string :=
  [ ln "translate french start_a170b500:";
    ln "";
    ln ("    # e " +:+ quoted ("Hi" +:+ PyStr.ESC_NL +:+ " "));
    ln ("    e " +:+ quoted "") ].

(** The marker followed at once by the commented original and the line to
    fill in, and the marker followed at once by a bare quoted line. *)
Definition marker_then_comment_file : list string :=
  [ ln "translate french start_a170b500:";
    ln "";
    ln "    # nvl clear";
    ln ("    # n " +:+ quoted "Hello world");
    ln ("    n " +:+ quoted "") ].

Definition marker_then_quoted_file : list string :=
  [ ln "translate french start_a170b500:";
    ln "";
    ln "    # nvl clear";
    ln ("    " +:+ quoted "Hello world") ].

(** The layout the engine generates for a cleared page. *)
Definition nvl_file : list string :=
  [ ln "translate french start_a170b500:";
    ln "";
    ln "    # nvl clear";
    ln ("    # n " +:+ quoted "Hello world");
    ln "    nvl clear";
    ln ("    n " +:+ quoted "") ].

(** The tree of [hello_file], before and after its translation into
    French by [client_brackets] from an empty cache. *)
Definition hello_tree : TranslationFile.t :=
  {| TranslationFile.filename := "tl/script.rpy";
     TranslationFile.translation_blocks :=
       [{| TranslationBlock.source_file := "tl/script.rpy";
           TranslationBlock.block_line := 0;
           TranslationBlock.translation_items := [0] |}] |}.

Definition hello_heap : Heap := [TranslationItem.init 2 3 "Hello world"].

Definition hello_heap_fr : Heap :=
  [{| TranslationItem.source_line := 2; TranslationItem.target_line := 3;
      TranslationItem.translation_strings :=
        [{| TranslationString.content := "Hello world";
            TranslationString.to_language := Some "fr";
            TranslationString.translation := Some "<Hello world>" |}];
      TranslationItem._original_content := "Hello world" |}].

Definition hello_cache_fr : gmap string (gmap string string) :=
  {[ "Hello world" := {[ "fr" := "<Hello world>" ]} ]}.

(** A file that ends with a [nvl clear] line after a commented original. *)
Definition nvl_last_file : list string :=
  [ ln "translate french start_label";
    ln ("    # n " +:+ quoted "Hello world");
    ln "    nvl clear" ].

End Sample.






(** * Properties *)

(** ** The top level *)

Lemma exec_all_app inv l1 l2 p :
  exec_all inv (l1 ++ l2) p =
  match exec_all inv l1 p with
  | (Ok _, p') => exec_all inv l2 p'
  | (Raise e, p') => (Raise e, p')
  end.
Proof.
  revert p. induction l1 as [|s l1 IH]; intros p; simpl; [done|].
  unfold run_bind. destruct (exec inv s p) as [[[]|e] p']; [apply IH|done].
Qed.

(** A run of such statements ends normally or with [ImportError]; it emits
    no event and binds no name other than theirs. *)
Lemma exec_all_binds inv (l : list stmt) (names : list (list string)) p :
  mapM binds l = Some names →
  ∃ r gl,
    exec_all inv l p =
      (r, {| globals := gl; events := events p; pending_answers := pending_answers p |})
    ∧ (r = Ok tt ∨ r = Raise ImportError)
    ∧ gl ⊆ globals p ++ concat names.
Proof.
  revert names p. induction l as [|s l IH]; intros names [gl ev pa]; csimpl.
  - intros [= <-]. exists (Ok tt), gl. split_and!; [done|by left|].
    intros x Hx. apply elem_of_app. by left.
  - intros Hm. destruct (binds s) as [ns|] eqn:Hs; simplify_eq/=.
    destruct (mapM binds l) as [nss|] eqn:Hl; simplify_eq/=.
    injection Hm as <-.
    unfold run_bind.
    assert (∃ r gl', exec inv s {| globals := gl; events := ev; pending_answers := pa |}
                     = (r, {| globals := gl'; events := ev; pending_answers := pa |})
                     ∧ (r = Ok tt ∨ r = Raise ImportError) ∧ gl' ⊆ gl ++ ns)
      as (r & gl' & -> & Hr & Hgl).
    { destruct s; simplify_eq/=;
        try (eexists _, _; split_and!; [done|by left|by rewrite ?app_nil_r]).
      destruct (importable inv module); eexists _, _;
        (split_and!; [done| |]); [by left|done|by right|].
      intros x Hx. apply elem_of_app. by left. }
    destruct Hr as [-> | ->].
    + destruct (IH nss {| globals := gl'; events := ev; pending_answers := pa |} eq_refl)
        as (r & gl'' & -> & Hr & Hgl'').
      exists r, gl''. split_and!; [done..|]. simpl in *.
      intros x Hx. rewrite app_assoc. apply Hgl'', elem_of_app in Hx as [Hx|Hx];
        apply elem_of_app; [left; by apply Hgl|by right].
    + exists (Raise ImportError), gl'. split_and!; [done|by right|]. simpl.
      intros x Hx. rewrite app_assoc. apply elem_of_app. left. by apply Hgl.
Qed.

(** C1. Whatever the command line, the installed modules and the files on
    disk, a run of the script ends with exit status 1 while the module is
    still being initialised: nothing has touched the outside world (no cache
    load, no file parsed, no call to the translation client, no file
    written), and [TAG_PATTERN] is not bound yet. *)
Theorem module_always_exits_1 (inv : Invocation) :
  exit_status (fst (run_module MODULE inv)) = 1%Z
  ∧ events (snd (run_module MODULE inv)) = []
  ∧ "TAG_PATTERN" ∉ globals (snd (run_module MODULE inv)).
Proof.
  unfold run_module.
  change MODULE with (take 17 MODULE ++ SysExit 1 :: drop 18 MODULE).
  rewrite exec_all_app.
  edestruct (exec_all_binds inv (take 17 MODULE)) as (r & gl & -> & Hr & Hgl);
    [vm_compute; reflexivity|].
  destruct Hr as [-> | ->]; simpl; (split_and!; [done..|]);
    intros Hin; apply Hgl in Hin; vm_compute in Hin;
    repeat (apply elem_of_cons in Hin as [Hin|Hin]; [discriminate Hin|]);
    by apply elem_of_nil in Hin.
Qed.

(** Without the [sys.exit(1)] line the same module does reach [main]: for
    the sample invocation it loads the cache, parses, translates and writes. *)
Lemma module_without_exit_runs :
  run_module (take 17 MODULE ++ drop 18 MODULE) Sample.good_invocation
  = (Ok tt,
     {| globals := globals (snd (run_module (take 17 MODULE ++ drop 18 MODULE) Sample.good_invocation));
        events := [LoadClient; CreateCache; LoadCache; ParseFile "tl/script.rpy"; Prompt;
                   Translate [("Hello world", "fr")];
                   WriteFile "tl/script.rpy"
                     [ Sample.ln "translate french start_label";
                       Sample.ln ("# " +:+ Sample.quoted "Hello world");
                       Sample.ln ("old " +:+ Sample.quoted "Hello world");
                       Sample.ln ("new " +:+ Sample.quoted "<Hello world>") ];
                   PersistCache {[ "Hello world" := {[ "fr" := "<Hello world>" ]} ]} ];
        pending_answers := [] |}).
Proof. vm_compute. reflexivity. Qed.

(** ** Strings *)

Lemma lstrip_empty s : PyStr.is_empty (PyStr.lstrip s) = PyStr.all_space s.
Proof.
  induction s as [|c s IH]; simpl; [done|].
  destruct (PyStr.isspace c); simpl; done.
Qed.

Lemma lstrip_head s :
  PyStr.lstrip s = EmptyString
  ∨ ∃ c r, PyStr.lstrip s = String c r ∧ PyStr.isspace c = false.
Proof.
  induction s as [|c s IH]; simpl; [by left|].
  destruct (PyStr.isspace c) eqn:Hc; [done|]. right. by exists c, s.
Qed.

(** [s.strip()] is empty exactly when [s] is blank. *)
Lemma strip_empty s : PyStr.is_empty (PyStr.strip s) = PyStr.all_space s.
Proof.
  rewrite <- lstrip_empty. unfold PyStr.strip.
  destruct (lstrip_head s) as [-> | (c & r & -> & Hc)]; simpl; [done|].
  by rewrite Hc.
Qed.

(** ** Parsing the sample file *)

(** C8. The file made of the header [translate french start_label], the
    comment line with the quoted Hello world, the [old] line with the same
    quoted text and the [new] line with an empty string parses into one block
    holding one item; the item's original content is Hello world and its
    target line is 3, the index of the [new] line. *)
Theorem parse_hello_file (file : string) :
  ∃ b item,
    parse_file file Sample.hello_file
      = Ok ({| TranslationFile.filename := file;
               TranslationFile.translation_blocks := [b] |}, [item])
    ∧ TranslationBlock.translation_items b = [0]
    ∧ TranslationBlock.block_line b = 0
    ∧ TranslationItem.original_content item = "Hello world"
    ∧ TranslationString.content <$> TranslationItem.translation_strings item = ["Hello world"]
    ∧ TranslationItem.source_line item = 2
    ∧ TranslationItem.target_line item = 3
    ∧ Sample.hello_file !! 3 = Some (Sample.ln ("new " +:+ Sample.quoted "")).
Proof. eexists _, _. vm_compute. by repeat split. Qed.

(** ** Translating one string *)

Section translation_string.
Variable client : Client.
Implicit Types (self : TranslationString.t) (w : World).

(** The guard at the head of [translate]. *)
Lemma translate_guard self to_language w :
  PyStr.is_empty (PyStr.strip (TranslationString.content self)) = true →
  TranslationString.translate client self to_language w
  = Ok ({| TranslationString.content := TranslationString.content self;
           TranslationString.to_language := Some to_language;
           TranslationString.translation := Some (TranslationString.content self) |}, w).
Proof. intros Hguard. unfold TranslationString.translate. simpl. by rewrite Hguard. Qed.

(** C4. When the content is empty or all whitespace, [translate] sets the
    translation to the content itself and leaves the world as it was: no
    call to the client is logged and the cache is the same mapping. *)
Theorem translate_blank self to_language w :
  PyStr.all_space (TranslationString.content self) = true →
  TranslationString.translate client self to_language w
  = Ok ({| TranslationString.content := TranslationString.content self;
           TranslationString.to_language := Some to_language;
           TranslationString.translation := Some (TranslationString.content self) |}, w).
Proof.
  intros Hblank. apply translate_guard. by rewrite strip_empty.
Qed.

(** [pull_from_cache] looks at the content only. *)
Lemma pull_from_cache_content self1 self2 lang w :
  TranslationString.content self1 = TranslationString.content self2 →
  TranslationString.pull_from_cache self1 lang w = TranslationString.pull_from_cache self2 lang w.
Proof. unfold TranslationString.pull_from_cache. by intros ->. Qed.

(** What a call that misses the cache does. *)
Lemma translate_miss self lang w t :
  PyStr.all_space (TranslationString.content self) = false →
  TranslationString.pull_from_cache self lang w = None →
  client (client_log w) (TranslationString.content self) lang = Some t →
  TranslationString.translate client self lang w
  = Ok ({| TranslationString.content := TranslationString.content self;
           TranslationString.to_language := Some lang;
           TranslationString.translation := Some t |},
        {| TRANSLATION_CACHE :=
             <[TranslationString.content self := {[lang := t]}]> (TRANSLATION_CACHE w);
           client_log := client_log w ++ [(TranslationString.content self, lang)] |}).
Proof.
  intros Hblank Hcold Hclient. unfold TranslationString.translate.
  cbn [TranslationString.content].
  rewrite strip_empty, Hblank.
  rewrite (pull_from_cache_content _ self) by done. rewrite Hcold.
  unfold bind, TranslationString.client_translate. by rewrite Hclient.
Qed.

(** What a call that hits the cache does. *)
Lemma translate_hit self lang w t :
  PyStr.all_space (TranslationString.content self) = false →
  TranslationString.pull_from_cache self lang w = Some t →
  TranslationString.translate client self lang w
  = Ok ({| TranslationString.content := TranslationString.content self;
           TranslationString.to_language := Some lang;
           TranslationString.translation := Some t |}, w).
Proof.
  intros Hblank Hhit. unfold TranslationString.translate.
  cbn [TranslationString.content].
  rewrite strip_empty, Hblank.
  rewrite (pull_from_cache_content _ self) by done. by rewrite Hhit.
Qed.

(** A non-empty translation just stored is what the cache returns. *)
Lemma pull_after_store self key lang t cache log :
  TranslationString.content self = key →
  t ≠ EmptyString →
  TranslationString.pull_from_cache self lang
    {| TRANSLATION_CACHE := <[key := {[lang := t]}]> cache; client_log := log |} = Some t.
Proof.
  intros <- Ht. unfold TranslationString.pull_from_cache. simpl.
  rewrite lookup_insert_eq.
  rewrite bool_decide_eq_false_2 by (apply insert_non_empty).
  rewrite lookup_singleton_eq. by destruct t.
Qed.

(** C6, amended. For a content that is not blank, a language, and a world
    whose cache has no usable entry for them: if the client answers the first
    call with a non-empty text, two successive calls of [translate] log
    exactly one call to the client, made by the first; the second is served
    from the cache, and both leave the same translation in the object. *)
Theorem translate_twice self lang w t :
  PyStr.all_space (TranslationString.content self) = false →
  TranslationString.pull_from_cache self lang w = None →
  client (client_log w) (TranslationString.content self) lang = Some t →
  t ≠ EmptyString →
  ∃ self1 w1 self2 w2,
    TranslationString.translate client self lang w = Ok (self1, w1)
    ∧ TranslationString.translate client self1 lang w1 = Ok (self2, w2)
    ∧ client_log w1 = client_log w ++ [(TranslationString.content self, lang)]
    ∧ client_log w2 = client_log w1
    ∧ TranslationString.translation self1 = Some t
    ∧ TranslationString.translation self2 = Some t.
Proof.
  intros Hblank Hcold Hclient Ht.
  eexists _, _, _, _. split; [by apply translate_miss|].
  split.
  - apply translate_hit; [done|]. by apply pull_after_store.
  - by repeat split.
Qed.

End translation_string.

Lemma translate_blank_witness :
  PyStr.all_space "  " = true
  ∧ TranslationString.translate Sample.client_brackets (TranslationString.init "  ") "fr"
    (mkWorld ∅ [])
  = Ok ({| TranslationString.content := "  ";
           TranslationString.to_language := Some "fr";
           TranslationString.translation := Some "  " |}, mkWorld ∅ []).
Proof.
  split; [reflexivity|].
  apply (translate_blank Sample.client_brackets (TranslationString.init "  ") "fr" (mkWorld ∅ [])).
  reflexivity.
Defined.

Lemma translate_twice_witness :
  PyStr.all_space "Hi" = false
  ∧ TranslationString.pull_from_cache (TranslationString.init "Hi") "fr" (mkWorld ∅ []) = None
  ∧ Sample.client_brackets [] "Hi" "fr" = Some "<Hi>"
  ∧ ∃ self1 w1 self2 w2,
    TranslationString.translate Sample.client_brackets (TranslationString.init "Hi") "fr"
      (mkWorld ∅ []) = Ok (self1, w1)
    ∧ TranslationString.translate Sample.client_brackets self1 "fr" w1 = Ok (self2, w2)
    ∧ client_log w1 = [("Hi", "fr")]
    ∧ client_log w2 = client_log w1
    ∧ TranslationString.translation self1 = Some "<Hi>"
    ∧ TranslationString.translation self2 = Some "<Hi>".
Proof.
  do 3 (split; [reflexivity|]).
  apply (translate_twice Sample.client_brackets (TranslationString.init "Hi") "fr"
           (mkWorld ∅ []) "<Hi>"); [reflexivity..|discriminate].
Defined.

(** C6 as stated fails for a content that is not empty but blank: two calls
    of [translate] on a single space, from an empty cache, make no call to
    the client at all. *)
Lemma translate_twice_blank_no_call :
  " " ≠ EmptyString
  ∧ ∃ self1 w1 self2 w2,
      TranslationString.translate Sample.client_brackets (TranslationString.init " ") "fr"
        (mkWorld ∅ []) = Ok (self1, w1)
      ∧ TranslationString.translate Sample.client_brackets self1 "fr" w1 = Ok (self2, w2)
      ∧ length (client_log w2) = 0.
Proof. split; [discriminate|]. eexists _, _, _, _. vm_compute. by repeat split. Qed.

(** ** The matcher on greedy runs of a class *)

Section star_cls.
Context {A : Type}.
Implicit Types (k : string → Re.captures → option A) (caps : Re.captures).

Lemma go_star_cls_cons p c s caps k :
  p c = true →
  Re.go (Re.Star (Re.Cls p)) (String c s) caps k
  = match Re.go (Re.Star (Re.Cls p)) s caps k with
    | Some x => Some x
    | None => k (String c s) caps
    end.
Proof.
  intros Hc. cbn. rewrite Hc. by rewrite Nat.leb_refl.
Qed.

Lemma go_star_cls_stop p s caps k :
  match s with EmptyString => true | String c _ => negb (p c) end = true →
  Re.go (Re.Star (Re.Cls p)) s caps k = k s caps.
Proof.
  destruct s as [|c s]; [done|]. intros Hc%negb_true_iff. cbn. by rewrite Hc.
Qed.

(** When the continuation accepts whatever it is given, the run is the
    longest one. *)
Lemma go_star_cls_greedy p s caps k :
  (∀ s' caps', is_Some (k s' caps')) →
  Re.go (Re.Star (Re.Cls p)) s caps k = k (PyStr.drop_while p s) caps.
Proof.
  intros Hk. induction s as [|c s IH].
  - by rewrite go_star_cls_stop.
  - simpl PyStr.drop_while. destruct (p c) eqn:Hc.
    + rewrite go_star_cls_cons, IH by done. by destruct (Hk (PyStr.drop_while p s) caps) as [x ->].
    + rewrite go_star_cls_stop; [done|]. by rewrite Hc.
Qed.
End star_cls.

Lemma string_app_cons c a b : String c a +:+ b = String c (a +:+ b).
Proof. reflexivity. Qed.

Lemma string_app_nil b : EmptyString +:+ b = b.
Proof. reflexivity. Qed.

Lemma take_drop_while p s : PyStr.take_while p s +:+ PyStr.drop_while p s = s.
Proof.
  induction s as [|c s IH]; simpl; [done|].
  destruct (p c); [by rewrite string_app_cons, IH|done].
Qed.

Lemma length_drop_while p s :
  String.length s = String.length (PyStr.take_while p s) + String.length (PyStr.drop_while p s).
Proof. induction s as [|c s IH]; simpl; [done|]. destruct (p c); simpl; lia. Qed.

Lemma substring_prefix a b : String.substring 0 (String.length a) (a +:+ b) = a.
Proof.
  induction a as [|c a IH]; [by destruct b|].
  rewrite string_app_cons. simpl. by rewrite IH.
Qed.

Lemma consumed_drop_while p s : Re.consumed s (PyStr.drop_while p s) = PyStr.take_while p s.
Proof.
  unfold Re.consumed. rewrite (length_drop_while p s) at 1.
  replace (String.length (PyStr.take_while p s) + String.length (PyStr.drop_while p s)
           - String.length (PyStr.drop_while p s)) with (String.length (PyStr.take_while p s)) by lia.
  rewrite <- (take_drop_while p s) at 2. apply substring_prefix.
Qed.

Lemma consumed_cons_drop_while p c s :
  Re.consumed (String c s) (PyStr.drop_while p s) = String c (PyStr.take_while p s).
Proof.
  unfold Re.consumed. simpl String.length. rewrite (length_drop_while p s) at 1.
  replace (S (String.length (PyStr.take_while p s) + String.length (PyStr.drop_while p s))
           - String.length (PyStr.drop_while p s)) with (S (String.length (PyStr.take_while p s))) by lia.
  simpl. f_equal. rewrite <- (take_drop_while p s) at 2. apply substring_prefix.
Qed.

Lemma consumed_nil s : Re.consumed s s = EmptyString.
Proof. unfold Re.consumed. rewrite Nat.sub_diag. by destruct s. Qed.



(** The equations of the matcher, one per constructor. *)
Section go_equations.
Context {A : Type}.
Implicit Types (k : string → Re.captures → option A) (caps : Re.captures).

Lemma go_seq r1 r2 s caps k :
  Re.go (Re.Seq r1 r2) s caps k = Re.go r1 s caps (fun s1 caps1 => Re.go r2 s1 caps1 k).
Proof. reflexivity. Qed.

Lemma go_alt r1 r2 s caps k :
  Re.go (Re.Alt r1 r2) s caps k
  = match Re.go r1 s caps k with Some x => Some x | None => Re.go r2 s caps k end.
Proof. reflexivity. Qed.

Lemma go_group n r s caps k :
  Re.go (Re.Group n r) s caps k
  = Re.go r s caps (fun s1 caps1 => k s1 (<[n := Re.consumed s s1]> caps1)).
Proof. reflexivity. Qed.

Lemma go_eps s caps k : Re.go Re.Eps s caps k = k s caps.
Proof. reflexivity. Qed.

Lemma go_chr c s caps k :
  Re.go (Re.Chr c) s caps k
  = match s with
    | String d s' => if Ascii.eqb c d then k s' caps else None
    | EmptyString => None
    end.
Proof. reflexivity. Qed.

Lemma go_cls p s caps k :
  Re.go (Re.Cls p) s caps k
  = match s with
    | String d s' => if p d then k s' caps else None
    | EmptyString => None
    end.
Proof. reflexivity. Qed.
End go_equations.

(** The pattern after its first group: optional word, whitespace, empty
    group. *)
Lemma go_target_tail s (caps : Re.captures) :
  Re.go (Re.Seq (Re.Opt (Re.Group 2 (Re.Plus Re.cls_w)))
                (Re.Seq (Re.Star Re.cls_s) (Re.Group 3 Re.Eps)))
        s caps (fun _ caps' => Some caps')
  = Some (<[3 := EmptyString]>
            (if PyStr.is_empty (PyStr.take_while PyStr.isword s) then caps
             else <[2 := PyStr.take_while PyStr.isword s]> caps)).
Proof.
  rewrite go_seq. unfold Re.Opt, Re.Plus, Re.cls_s, Re.cls_w.
  set (K := fun (s1 : string) (caps1 : Re.captures) =>
              Re.go (Re.Seq (Re.Star (Re.Cls PyStr.isspace)) (Re.Group 3 Re.Eps)) s1 caps1
                    (fun _ caps' => Some caps')).
  assert (HK : ∀ s1 caps1, K s1 caps1 = Some (<[3 := EmptyString]> caps1)).
  { intros s1 caps1. unfold K. rewrite go_seq.
    rewrite go_star_cls_greedy by (intros; rewrite go_group, go_eps; by eexists).
    by rewrite go_group, go_eps, consumed_nil. }
  rewrite go_alt, go_group, go_seq, go_cls, go_eps.
  destruct s as [|d s]; simpl PyStr.take_while; [by rewrite HK|].
  destruct (PyStr.isword d) eqn:Hd; [|by rewrite HK].
  rewrite go_star_cls_greedy by (intros; rewrite HK; by eexists).
  by rewrite HK, consumed_cons_drop_while.
Qed.

(** The writeback pattern matches every line, and this is what it captures. *)
Lemma re_match_target line : Re.re_match RE_TARGET line = Some (target_groups line).
Proof.
  unfold Re.re_match, RE_TARGET, target_groups.
  rewrite go_seq, go_group. unfold Re.cls_s at 1.
  rewrite go_star_cls_greedy by (intros; rewrite go_target_tail; by eexists).
  by rewrite go_target_tail, consumed_drop_while, insert_empty.
Qed.

Lemma target_groups_1 line :
  target_groups line !! 1 = Some (PyStr.take_while PyStr.isspace line).
Proof.
  unfold target_groups. rewrite lookup_insert_ne by done.
  destruct (PyStr.is_empty _); [|rewrite lookup_insert_ne by done]; apply lookup_singleton_eq.
Qed.

Lemma target_groups_2 line :
  target_groups line !! 2
  = let token := PyStr.take_while PyStr.isword (PyStr.drop_while PyStr.isspace line) in
    if PyStr.is_empty token then None else Some token.
Proof.
  unfold target_groups. rewrite lookup_insert_ne by done. simpl.
  destruct (PyStr.is_empty _); [done|]. apply lookup_insert_eq.
Qed.

(** ** The writeback loop *)

Lemma getitem_nat {A} (l : list A) (n : nat) :
  getitem l (Z.of_nat n) = or_raise IndexError (l !! n).
Proof.
  unfold getitem. destruct (Z.ltb_spec (Z.of_nat n) 0) as [?|_]; [lia|].
  by rewrite Nat2Z.id.
Qed.

(** The pattern of the writeback loop never fails to match, so the loop
    never raises for a line of the wrong shape. *)
Lemma rewrite_item_no_attribute_error heap text_lines ref :
  rewrite_item heap text_lines ref ≠ Raise AttributeError.
Proof.
  unfold rewrite_item, deref.
  destruct (heap !! ref) as [item|]; simpl; [|done].
  rewrite getitem_nat.
  destruct (text_lines !! _) as [line|]; simpl; [|done].
  rewrite re_match_target. simpl.
  unfold TranslationItem.get_translated_content.
  by destruct (mapM _ _).
Qed.

(** One step of the loop, when it goes through: the target line of the item
    is replaced, by the formatted groups and the joined translations. *)
Lemma rewrite_item_ok heap text_lines ref out :
  rewrite_item heap text_lines ref = Ok out →
  ∃ item line translated,
    heap !! ref = Some item
    ∧ text_lines !! TranslationItem.target_line item = Some line
    ∧ TranslationItem.get_translated_content item = Ok translated
    ∧ out = <[TranslationItem.target_line item :=
                format_line (target_groups line !! 1) (target_groups line !! 2) translated]>
              text_lines.
Proof.
  unfold rewrite_item, deref.
  destruct (heap !! ref) as [item|]; simpl; [|done].
  rewrite getitem_nat.
  destruct (text_lines !! _) as [line|] eqn:Hline; simpl; [|done].
  rewrite re_match_target. simpl.
  destruct (TranslationItem.get_translated_content item) as [translated|] eqn:Htr; simpl; [|done].
  intros [= <-]. by exists item, line, translated.
Qed.

(** It goes through whenever the target line exists and every string of
    the item has been translated. *)
Lemma rewrite_item_succeeds heap text_lines ref item :
  heap !! ref = Some item →
  TranslationItem.target_line item < length text_lines →
  Forall (fun u => is_Some (TranslationString.translation u))
         (TranslationItem.translation_strings item) →
  ∃ out, rewrite_item heap text_lines ref = Ok out.
Proof.
  intros Href Hlt Htr. unfold rewrite_item, deref. rewrite Href. simpl.
  rewrite getitem_nat.
  destruct (lookup_lt_is_Some_2 text_lines _ Hlt) as [line ->]. simpl.
  rewrite re_match_target. simpl.
  unfold TranslationItem.get_translated_content.
  destruct (mapM _ _) as [parts|] eqn:Hparts; simpl; [by eexists|].
  apply mapM_None in Hparts.
  apply Exists_exists in Hparts as (u & Hu & Hnone).
  rewrite Forall_forall in Htr. destruct (Htr u Hu) as [t Ht]. congruence.
Qed.

Lemma rewrite_items_frame heap items text_lines out :
  rewrite_items heap items text_lines = Ok out →
  length out = length text_lines
  ∧ ∀ j, j ∉ omap (fun ref => TranslationItem.target_line <$> heap !! ref) items →
         out !! j = text_lines !! j.
Proof.
  revert text_lines. induction items as [|ref items IH]; intros text_lines; simpl.
  - by intros [= <-].
  - destruct (rewrite_item heap text_lines ref) as [mid|] eqn:Hmid; simpl; [|done].
    intros Hout. apply rewrite_item_ok in Hmid as (item & line & tr & Href & _ & _ & ->).
    apply IH in Hout as [Hlen Hframe]. rewrite length_insert in Hlen. split; [done|].
    intros j Hj. rewrite Href in Hj. csimpl in Hj.
    apply not_elem_of_cons in Hj as [Hne Hj].
    rewrite Hframe by done. by apply list_lookup_insert_ne.
Qed.



(** ** What translation changes *)

Section translate_spec.
Variable client : Client.

(** The three ways [TranslationString.translate] can return. *)
Lemma translate_unit_cases u lang w u' w' :
  TranslationString.translate client u lang w = Ok (u', w') →
  TranslationString.content u' = TranslationString.content u
  ∧ TranslationString.to_language u' = Some lang
  ∧ ((PyStr.all_space (TranslationString.content u) = true
      ∧ TranslationString.translation u' = Some (TranslationString.content u) ∧ w' = w)
     ∨ (PyStr.all_space (TranslationString.content u) = false
        ∧ ∃ t, TranslationString.pull_from_cache u lang w = Some t
               ∧ TranslationString.translation u' = Some t ∧ w' = w)
     ∨ (PyStr.all_space (TranslationString.content u) = false
        ∧ TranslationString.pull_from_cache u lang w = None
        ∧ ∃ t, client (client_log w) (TranslationString.content u) lang = Some t
               ∧ TranslationString.translation u' = Some t
               ∧ w' = {| TRANSLATION_CACHE :=
                           <[TranslationString.content u := {[lang := t]}]> (TRANSLATION_CACHE w);
                         client_log := client_log w ++ [(TranslationString.content u, lang)] |})).
Proof.
  destruct (PyStr.all_space (TranslationString.content u)) eqn:Hblank.
  - rewrite translate_guard by (by rewrite strip_empty).
    intros [= <- <-]. split_and!; [done..|]. by left.
  - destruct (TranslationString.pull_from_cache u lang w) as [t|] eqn:Hpull.
    + rewrite (translate_hit _ _ _ _ t) by done. intros [= <- <-].
      split_and!; [done..|]. right; left. split; [done|]. by exists t.
    + destruct (client (client_log w) (TranslationString.content u) lang) as [t|] eqn:Hc.
      * rewrite (translate_miss _ _ _ _ t) by done. intros [= <- <-].
        split_and!; [done..|]. right; right. split_and!; [done..|]. by exists t.
      * unfold TranslationString.translate. cbn [TranslationString.content].
        rewrite strip_empty, Hblank.
        rewrite (pull_from_cache_content _ u) by done. rewrite Hpull.
        unfold bind, TranslationString.client_translate. by rewrite Hc.
Qed.

(** [for_each] returns one result per element, in order. *)
Lemma for_each_ok {A B} (f : A → M B) (l : list A) w l' w' (P : World → Prop) (R : A → B → Prop) :
  (∀ x w1 y w2, P w1 → f x w1 = Ok (y, w2) → R x y ∧ P w2) →
  P w →
  for_each f l w = Ok (l', w') →
  Forall2 R l l' ∧ P w'.
Proof.
  intros Hf. revert w l'. induction l as [|x l IH]; intros w l' Hw; simpl.
  - intros [= <- <-]. by split.
  - unfold bind at 1. destruct (f x w) as [[y w1]|] eqn:Hx; [|done].
    destruct (Hf _ _ _ _ Hw Hx) as [HR Hw1].
    unfold bind at 1. destruct (for_each f l w1) as [[ys w2]|] eqn:Hl; [|done].
    unfold ret. intros [= <- <-].
    destruct (IH _ _ Hw1 Hl). split; [by constructor|done].
Qed.

Lemma same_shape_refl item : same_shape item item.
Proof. done. Qed.

Lemma same_shape_trans i1 i2 i3 : same_shape i1 i2 → same_shape i2 i3 → same_shape i1 i3.
Proof. intros (?&?&?) (?&?&?). repeat split; congruence. Qed.

(** Translating the strings one after the other keeps their contents and
    gives each a translation. *)
Lemma for_each_translate_shape us lang w us' w' :
  for_each (fun u => TranslationString.translate client u lang) us w = Ok (us', w') →
  TranslationString.content <$> us' = TranslationString.content <$> us
  ∧ Forall (fun u => is_Some (TranslationString.translation u)) us'.
Proof.
  intros Hok.
  eapply (for_each_ok _ _ _ _ _ (fun _ => True)
            (fun u u' => TranslationString.content u' = TranslationString.content u
                         ∧ is_Some (TranslationString.translation u'))) in Hok as [HR _];
    [|clear Hok|done].
  2: { intros u w1 u' w2 _ Hu. apply translate_unit_cases in Hu as (Hc & _ & Hcases).
       split; [|done]. split; [done|].
       destruct Hcases as [(_&->&_)|[(_&t&_&->&_)|(_&_&t&_&->&_)]]; by eexists. }
  induction HR as [|u u' us us' [Hc Ht] _ [IH1 IH2]]; csimpl; [done|].
  split; [congruence|by constructor].
Qed.

Lemma item_translate_shape item lang w item' w' :
  TranslationItem.translate client item lang w = Ok (item', w') →
  same_shape item item'
  ∧ Forall (fun u => is_Some (TranslationString.translation u))
           (TranslationItem.translation_strings item').
Proof.
  unfold TranslationItem.translate, bind.
  destruct (for_each _ _ w) as [[us' w1]|] eqn:Hus; [|done].
  unfold ret. intros [= <- <-].
  apply for_each_translate_shape in Hus as [Hc Ht]. by repeat split.
Qed.

Lemma translate_items_shape lang items heap w heap' w' :
  TranslationBlock.translate_items client lang items heap w = Ok (heap', w') →
  Forall2 same_shape heap heap'.
Proof.
  revert heap w. induction items as [|ref items IH]; intros heap w; simpl.
  - intros [= <- <-]. apply Forall2_same_length_lookup. split; [done|].
    intros i x y ??. simplify_eq. apply same_shape_refl.
  - unfold bind at 1, lift, deref.
    destruct (heap !! ref) as [item|] eqn:Href; simpl; [|done].
    unfold bind at 1.
    destruct (TranslationItem.translate client item lang w) as [[item' w1]|] eqn:Hitem; [|done].
    intros Hrest. apply IH in Hrest. apply item_translate_shape in Hitem as [Hshape _].
    apply Forall2_same_length_lookup. apply Forall2_same_length_lookup in Hrest as [Hlen Hrest].
    rewrite length_insert in Hlen. split; [done|].
    intros i x z Hx Hz.
    destruct (lookup_lt_is_Some_2 (<[ref:=item']> heap) i) as [y Hy].
    { rewrite length_insert. by eapply lookup_lt_Some. }
    eapply same_shape_trans; [|by eapply Hrest].
    destruct (decide (i = ref)) as [->|Hne].
    + rewrite list_lookup_insert_eq in Hy by (by eapply lookup_lt_Some). by simplify_eq.
    + rewrite list_lookup_insert_ne in Hy by done. simplify_eq. apply same_shape_refl.
Qed.

Lemma translate_blocks_shape lang blocks heap w heap' w' :
  TranslationFile.translate_blocks client lang blocks heap w = Ok (heap', w') →
  Forall2 same_shape heap heap'.
Proof.
  revert heap w. induction blocks as [|b blocks IH]; intros heap w; simpl.
  - intros [= <- <-]. apply Forall2_same_length_lookup. split; [done|].
    intros i x y ??. simplify_eq. apply same_shape_refl.
  - unfold bind at 1, TranslationBlock.translate.
    destruct (TranslationBlock.translate_items _ _ _ heap w) as [[heap1 w1]|] eqn:Hb; [|done].
    intros Hrest. apply IH in Hrest. apply translate_items_shape in Hb.
    apply Forall2_same_length_lookup.
    apply Forall2_same_length_lookup in Hrest as [Hlen2 Hrest].
    apply Forall2_same_length_lookup in Hb as [Hlen1 Hb].
    split; [congruence|]. intros i x z Hx Hz.
    destruct (lookup_lt_is_Some_2 heap1 i) as [y Hy].
    { rewrite <- Hlen1. by eapply lookup_lt_Some. }
    eapply same_shape_trans; [by eapply Hb|by eapply Hrest].
Qed.

(** Translation moves no target line. *)
Lemma translate_recorded_targets translation_file lang heap w heap' w' :
  TranslationFile.translate client translation_file lang heap w = Ok (heap', w') →
  recorded_targets heap' translation_file = recorded_targets heap translation_file.
Proof.
  intros Hshape%translate_blocks_shape. unfold recorded_targets.
  assert (Hlook : ∀ ref, TranslationItem.target_line <$> heap' !! ref
                         = TranslationItem.target_line <$> heap !! ref).
  { intros ref. apply Forall2_same_length_lookup in Hshape as [Hlen Hshape].
    destruct (heap !! ref) as [item|] eqn:Href.
    - destruct (lookup_lt_is_Some_2 heap' ref) as [item' Href'].
      { rewrite <- Hlen. by eapply lookup_lt_Some. }
      rewrite Href'. simpl. f_equal. by apply (Hshape ref item item').
    - rewrite (lookup_ge_None_2 heap' ref); [done|].
      rewrite <- Hlen. by apply lookup_ge_None. }
  induction (TranslationFile.translation_blocks translation_file) as [|b bs IH]; csimpl; [done|].
  f_equal; [|done]. clear IH.
  induction (TranslationBlock.translation_items b) as [|ref refs IH]; csimpl; [done|].
  rewrite Hlook, IH. done.
Qed.
End translate_spec.

(** ** What the writeback loop writes *)

Lemma take_drop_while_app p a b :
  PyStr.every p a = true → PyStr.stops p b = true →
  PyStr.take_while p (a +:+ b) = a ∧ PyStr.drop_while p (a +:+ b) = b.
Proof.
  intros Ha Hb. induction a as [|c a IH].
  - rewrite string_app_nil. destruct b as [|d b]; [done|].
    simpl in *. by destruct (p d).
  - rewrite string_app_cons. simpl in *.
    apply andb_true_iff in Ha as [-> Ha]. destruct (IH Ha) as [-> ->]. done.
Qed.

(** No character is both whitespace and a word character. *)
Lemma isword_not_isspace c : PyStr.isword c = true → PyStr.isspace c = false.
Proof. destruct c as [[] [] [] [] [] [] [] []]; vm_compute; congruence. Qed.

(** On a line made of whitespace, a word and a rest that does not go on
    with a word character, the loop writes the same whitespace and the same
    word, then a space and the translated text between double quotes. *)
Lemma format_line_with_token indent token rest translated :
  PyStr.every PyStr.isspace indent = true →
  PyStr.every PyStr.isword token = true →
  token ≠ EmptyString →
  PyStr.stops PyStr.isword rest = true →
  let line := indent +:+ token +:+ rest in
  format_line (target_groups line !! 1) (target_groups line !! 2) translated
  = indent +:+ token +:+ " " +:+ String PyStr.dquote translated
    +:+ String PyStr.dquote (String PyStr.LF EmptyString).
Proof.
  intros Hindent Htoken Hne Hrest line.
  assert (Hstop : PyStr.stops PyStr.isspace (token +:+ rest) = true).
  { destruct token as [|c token]; [done|]. simpl in *.
    apply andb_true_iff in Htoken as [Hc _]. by rewrite (isword_not_isspace c Hc). }
  destruct (take_drop_while_app PyStr.isspace indent (token +:+ rest)) as [H1 H2]; [done..|].
  destruct (take_drop_while_app PyStr.isword token rest) as [H3 _]; [done..|].
  rewrite target_groups_1, target_groups_2. unfold line. simpl.
  rewrite H1, H2, H3. destruct token; [done|]. done.
Qed.

(** On a line whose first character after the leading whitespace is no
    word character, the loop writes the text None where the word would be. *)
Lemma format_line_without_token indent rest translated :
  PyStr.every PyStr.isspace indent = true →
  PyStr.stops PyStr.isspace rest = true →
  PyStr.stops PyStr.isword rest = true →
  let line := indent +:+ rest in
  format_line (target_groups line !! 1) (target_groups line !! 2) translated
  = indent +:+ "None" +:+ " " +:+ String PyStr.dquote translated
    +:+ String PyStr.dquote (String PyStr.LF EmptyString).
Proof.
  intros Hindent Hrest1 Hrest2 line.
  destruct (take_drop_while_app PyStr.isspace indent rest) as [H1 H2]; [done..|].
  rewrite target_groups_1, target_groups_2. unfold line. simpl.
  rewrite H1, H2.
  destruct rest as [|c rest]; [done|]. simpl in *.
  apply negb_true_iff in Hrest2. by rewrite Hrest2.
Qed.

(** C2, at the failing input.  The target line of a narrator line is
    four spaces and a quoted string, with no word before the quote.  The
    script parses the file, translates Hello world and writes back a line
    that has the text None between the indentation and the quote. *)
Theorem narrator_line_gains_None :
  Sample.round_trip "tl/script.rpy" Sample.narrator_file
  = Ok [ Sample.ln "translate french start_a170b500:";
         Sample.ln "";
         Sample.ln ("    # " +:+ Sample.quoted "Hello world");
         Sample.ln ("    None " +:+ Sample.quoted "<Hello world>") ].
Proof. vm_compute. reflexivity. Qed.

(** C3, at the failing input.  The target line is the statement [pass],
    which has no quoted string.  The script raises nothing: it writes back
    the line with a quoted translation appended to the statement. *)
Theorem mismatch_is_written_back :
  Sample.round_trip "tl/script.rpy" Sample.statement_file
  = Ok [ Sample.ln "translate french start_a170b500:";
         Sample.ln "";
         Sample.ln ("    # e " +:+ Sample.quoted "Hello world");
         Sample.ln ("    pass " +:+ Sample.quoted "<Hello world>") ].
Proof. vm_compute. reflexivity. Qed.

(** ** Splitting and joining at the escaped newline *)

Lemma split_go_not_nil cur s : PyStr.split_go cur s ≠ [].
Proof.
  revert cur. induction s as [|c s IH]; intros cur; simpl; [done|].
  destruct s as [|d s]; [done|].
  destruct (Ascii.eqb c PyStr.backslash && Ascii.eqb d "n"); [done|apply IH].
Qed.

(** A string that splits into one piece is that piece. *)
Lemma split_go_single cur t :
  length (PyStr.split_go cur t) = 1 → PyStr.split_go cur t = [String.rev_app cur t].
Proof.
  revert cur. induction t as [|c t IH]; intros cur; [done|].
  simpl. destruct t as [|d t]; [done|].
  destruct (Ascii.eqb c PyStr.backslash && Ascii.eqb d "n").
  - simpl. intros [= Hlen]. apply length_zero_iff_nil in Hlen.
    by apply split_go_not_nil in Hlen.
  - intros Hlen. by rewrite IH.
Qed.

(** Such a string followed by the delimiter is cut exactly at the
    delimiter: the delimiter cannot be found across the seam. *)
Lemma split_go_app cur t rest :
  length (PyStr.split_go cur t) = 1 →
  PyStr.split_go cur (t +:+ PyStr.ESC_NL +:+ rest)
  = String.rev_app cur t :: PyStr.split_go EmptyString rest.
Proof.
  revert cur. induction t as [|c t IH]; intros cur Hlen.
  - done.
  - rewrite string_app_cons. simpl in *. destruct t as [|d t].
    + specialize (IH (String c cur) eq_refl). rewrite string_app_nil in *.
      change (PyStr.ESC_NL +:+ rest) with (String PyStr.backslash (String "n" rest)) in *.
      cbv beta iota. change (Ascii.eqb PyStr.backslash "n") with false.
      rewrite andb_false_r. exact IH.
    + rewrite string_app_cons.
      destruct (Ascii.eqb c PyStr.backslash && Ascii.eqb d "n").
      * simpl in Hlen. injection Hlen as Hlen. apply length_zero_iff_nil in Hlen.
        by apply split_go_not_nil in Hlen.
      * rewrite <- string_app_cons. by rewrite IH.
Qed.

(** Joining pieces that hold no delimiter and splitting again gives the
    pieces back. *)
Lemma split_join ts :
  ts ≠ [] →
  Forall (fun t => length (PyStr.split_esc_nl t) = 1) ts →
  PyStr.split_esc_nl (PyStr.join_esc_nl ts) = ts.
Proof.
  intros Hne Hts. induction Hts as [|t ts Ht Hts IH]; [done|].
  destruct ts as [|t' ts].
  - simpl. unfold PyStr.split_esc_nl in *. by rewrite split_go_single.
  - cbn [PyStr.join_esc_nl]. unfold PyStr.split_esc_nl in *.
    rewrite split_go_app by done. simpl String.rev_app. f_equal. by apply IH.
Qed.

Lemma split_esc_nl_not_nil s : PyStr.split_esc_nl s ≠ [].
Proof. apply split_go_not_nil. Qed.

(** ** Segments of a dialogue line *)

(** C7, amended. Set the original content of a dialogue line and
    translate it.  If no translated string contains the escaped newline,
    the translated content splits at the escaped newline into exactly the
    translations of the units, so into as many segments as there are units;
    and there are as many units as pieces of the original content once its
    tags are removed. *)
Theorem segment_count_stable client source_line target_line original lang w item' w' :
  TranslationItem.translate client (TranslationItem.init source_line target_line original) lang w
    = Ok (item', w') →
  Forall (fun u => ∀ t, TranslationString.translation u = Some t →
                        length (PyStr.split_esc_nl t) = 1)
         (TranslationItem.translation_strings item') →
  ∃ translated,
    TranslationItem.get_translated_content item' = Ok translated
    ∧ mapM TranslationString.translation (TranslationItem.translation_strings item')
      = Some (PyStr.split_esc_nl translated)
    ∧ length (PyStr.split_esc_nl translated)
      = length (TranslationItem.translation_strings
                  (TranslationItem.init source_line target_line original))
    ∧ length (TranslationItem.translation_strings
                (TranslationItem.init source_line target_line original))
      = length (PyStr.split_esc_nl (Re.sub_empty TAG_PATTERN original)).
Proof.
  intros Htr Hfree.
  apply item_translate_shape in Htr as [(_ & _ & Hcontents) Hsome].
  unfold TranslationItem.get_translated_content.
  destruct (mapM TranslationString.translation (TranslationItem.translation_strings item'))
    as [parts|] eqn:Hparts.
  2: { apply mapM_None in Hparts. apply Exists_exists in Hparts as (u & Hu & Hnone).
       rewrite Forall_forall in Hsome. destruct (Hsome u Hu) as [t Ht]. congruence. }
  assert (Hlen : length parts = length (TranslationItem.translation_strings item')).
  { symmetry. by eapply length_mapM. }
  assert (Hunits : length (TranslationItem.translation_strings item')
                   = length (PyStr.split_esc_nl (Re.sub_empty TAG_PATTERN original))).
  { rewrite <- (length_fmap TranslationString.content), Hcontents. simpl.
    by rewrite !length_fmap. }
  assert (Hsplit : PyStr.split_esc_nl (PyStr.join_esc_nl parts) = parts).
  { apply split_join.
    - intros ->. simpl in Hlen. rewrite Hunits in Hlen. symmetry in Hlen.
      apply length_zero_iff_nil in Hlen. by apply split_esc_nl_not_nil in Hlen.
    - apply mapM_Some in Hparts. rewrite Forall_forall in Hfree.
      apply Forall_forall. intros t Ht.
      apply list_elem_of_lookup in Ht as [i Hi].
      destruct (Forall2_lookup_r _ _ _ _ _ Hparts Hi) as (u & Hu & Hut).
      apply (Hfree u); [by eapply list_elem_of_lookup_2|done]. }
  exists (PyStr.join_esc_nl parts). simpl. rewrite Hsplit.
  split_and!; [done..| |].
  - simpl. rewrite length_fmap. congruence.
  - simpl. by rewrite length_fmap.
Qed.

Lemma segment_count_stable_witness :
  let item' :=
    {| TranslationItem.source_line := 2; TranslationItem.target_line := 3;
       TranslationItem.translation_strings :=
         [{| TranslationString.content := "Hello";
             TranslationString.to_language := Some "fr";
             TranslationString.translation := Some "<Hello>" |};
          {| TranslationString.content := "world";
             TranslationString.to_language := Some "fr";
             TranslationString.translation := Some "<world>" |}];
       TranslationItem._original_content := "{i}Hello{/i}" +:+ PyStr.ESC_NL +:+ "world" |} in
  let w' := {| TRANSLATION_CACHE := {[ "world" := {[ "fr" := "<world>" ]};
                                       "Hello" := {[ "fr" := "<Hello>" ]} ]};
               client_log := [("Hello", "fr"); ("world", "fr")] |} in
  TranslationItem.translate Sample.client_brackets
    (TranslationItem.init 2 3 ("{i}Hello{/i}" +:+ PyStr.ESC_NL +:+ "world")) "fr" (mkWorld ∅ [])
    = Ok (item', w')
  ∧ ∃ translated,
      TranslationItem.get_translated_content item' = Ok translated
      ∧ mapM TranslationString.translation (TranslationItem.translation_strings item')
        = Some (PyStr.split_esc_nl translated)
      ∧ length (PyStr.split_esc_nl translated)
        = length (TranslationItem.translation_strings
                    (TranslationItem.init 2 3 ("{i}Hello{/i}" +:+ PyStr.ESC_NL +:+ "world")))
      ∧ length (TranslationItem.translation_strings
                  (TranslationItem.init 2 3 ("{i}Hello{/i}" +:+ PyStr.ESC_NL +:+ "world")))
        = length (PyStr.split_esc_nl
                    (Re.sub_empty TAG_PATTERN ("{i}Hello{/i}" +:+ PyStr.ESC_NL +:+ "world"))).
Proof.
  intros item' w'.
  assert (Htr : TranslationItem.translate Sample.client_brackets
                  (TranslationItem.init 2 3 ("{i}Hello{/i}" +:+ PyStr.ESC_NL +:+ "world"))
                  "fr" (mkWorld ∅ []) = Ok (item', w')) by (vm_compute; reflexivity).
  split; [exact Htr|].
  apply (segment_count_stable Sample.client_brackets 2 3
           ("{i}Hello{/i}" +:+ PyStr.ESC_NL +:+ "world") "fr" (mkWorld ∅ []) item' w' Htr).
  repeat constructor; intros t [= <-]; reflexivity.
Defined.

(** C7 as stated fails when a translation holds the escaped newline: the
    line Hi is one unit, its cached translation joins to a content that
    splits into two segments. *)
Lemma segment_count_changes :
  ∃ item' w' translated,
    TranslationItem.translate Sample.client_brackets (TranslationItem.init 2 3 "Hi") "fr"
      (mkWorld Sample.cache_two_lines []) = Ok (item', w')
    ∧ TranslationItem.get_translated_content item' = Ok translated
    ∧ length (TranslationItem.translation_strings (TranslationItem.init 2 3 "Hi")) = 1
    ∧ length (PyStr.split_esc_nl translated) = 2.
Proof. eexists _, _, _. vm_compute. by repeat split. Qed.

(** ** The price estimate *)

(** [PPC] is the double nearest to 0.00002. *)
Lemma PPC_value : PPC = Num.Float 0x1.4f8b588e368f1p-16%float.
Proof. reflexivity. Qed.

(** When [pull_from_cache] finds a translation. *)
Lemma pull_from_cache_Some u lang w t :
  TranslationString.pull_from_cache u lang w = Some t
  ↔ ∃ d, TRANSLATION_CACHE w !! TranslationString.content u = Some d
         ∧ d !! lang = Some t ∧ t ≠ EmptyString.
Proof.
  unfold TranslationString.pull_from_cache. split.
  - destruct (TRANSLATION_CACHE w !! _) as [d|]; [|done].
    case_bool_decide; [done|].
    destruct (d !! lang) as [t'|] eqn:Hd; [|done].
    destruct t'; simpl; [done|]. intros [= <-]. by exists d.
  - intros (d & -> & Hd & Ht). case_bool_decide as Hempty.
    + subst d. by rewrite lookup_empty in Hd.
    + rewrite Hd. by destruct t.
Qed.

Lemma cached_iff lang w u :
  cached lang w (TranslationString.content u)
  ↔ is_Some (TranslationString.pull_from_cache u lang w).
Proof.
  unfold cached.
  by rewrite (pull_from_cache_content
                (TranslationString.init (TranslationString.content u)) u).
Qed.

Lemma estimate_price_cached u lang w :
  cached lang w (TranslationString.content u) →
  TranslationString.estimate_price u lang w = (Num.Int 0, 1%Z).
Proof.
  intros H. destruct (proj1 (cached_iff lang w u) H) as [t Ht].
  unfold TranslationString.estimate_price. by rewrite Ht.
Qed.

(** Sums of estimates that are all cache hits. *)
Lemma fold_left_add_hits (data : list (Num.num * Z)) (ns : list nat) (a : Z) :
  Forall2 (fun x n => x = (Num.Int 0, Z.of_nat n)) data ns →
  fold_left Num.add (map fst data) (Num.Int 0) = Num.Int 0
  ∧ fold_left Z.add (map snd data) a = (a + Z.of_nat (sum_list ns))%Z.
Proof.
  intros H. revert a. induction H as [|x n data ns -> _ IH]; intros a.
  - split; [done|simpl; lia].
  - destruct (IH (a + Z.of_nat n)%Z) as [IH1 IH2]. cbn [map fold_left fst snd].
    simpl (sum_list _).
    change (Num.add (Num.Int 0) (Num.Int 0)) with (Num.Int 0).
    rewrite IH1, IH2. split; [done|lia].
Qed.

Lemma sum_pairs_hits (data : list (Num.num * Z)) (ns : list nat) :
  Forall2 (fun x n => x = (Num.Int 0, Z.of_nat n)) data ns →
  sum_pairs data = (Num.Int 0, Z.of_nat (sum_list ns)).
Proof.
  intros H. unfold sum_pairs, Num.sum.
  by destruct (fold_left_add_hits data ns 0 H) as [-> ->].
Qed.

Lemma item_estimate_cached item lang w :
  Forall (fun u => cached lang w (TranslationString.content u))
         (TranslationItem.translation_strings item) →
  TranslationItem.estimate_price item lang w
  = (Num.Int 0, Z.of_nat (length (TranslationItem.translation_strings item))).
Proof.
  intros Hall. unfold TranslationItem.estimate_price.
  rewrite (sum_pairs_hits _ (replicate (length (TranslationItem.translation_strings item)) 1)).
  - f_equal. f_equal. induction (TranslationItem.translation_strings item); simpl; [done|].
    inversion Hall; subst. f_equal. auto.
  - induction Hall as [|u us Hu _ IH]; simpl; constructor; [|done].
    by apply estimate_price_cached.
Qed.

Lemma strings_at_Some heap ref item :
  heap !! ref = Some item → strings_at heap ref = TranslationItem.translation_strings item.
Proof. unfold strings_at. intros ->. simpl. apply app_nil_r. Qed.

Lemma strings_at_None heap ref : heap !! ref = None → strings_at heap ref = [].
Proof. unfold strings_at. by intros ->. Qed.

Lemma fold_left_Zadd_shift (l : list Z) (a : Z) :
  fold_left Z.add l a = (a + fold_left Z.add l 0)%Z.
Proof.
  revert a. induction l as [|x l IH]; intros a; simpl; [lia|].
  rewrite (IH (a + x)%Z), (IH (0 + x)%Z). lia.
Qed.

Lemma sum_pairs_cons_hit (n m : Z) (data : list (Num.num * Z)) :
  sum_pairs data = (Num.Int 0, m) →
  sum_pairs ((Num.Int 0, n) :: data) = (Num.Int 0, (n + m)%Z).
Proof.
  unfold sum_pairs, Num.sum. cbn [map fold_left fst snd].
  change (Num.add (Num.Int 0) (Num.Int 0)) with (Num.Int 0).
  intros [= -> <-]. f_equal. by rewrite fold_left_Zadd_shift.
Qed.

Lemma estimate_items_cached refs lang heap w :
  Forall (fun ref => is_Some (heap !! ref)
                     ∧ Forall (fun u => cached lang w (TranslationString.content u))
                              (strings_at heap ref)) refs →
  ∃ items,
    mapM (fun ref => heap !! ref) refs = Some items
    ∧ sum_pairs (map (fun item => TranslationItem.estimate_price item lang w) items)
      = (Num.Int 0, Z.of_nat (length (ref ← refs; strings_at heap ref))).
Proof.
  induction 1 as [|ref refs [[item Href] Hcached] _ (items & Hitems & Hsum)].
  - by exists [].
  - exists (item :: items). split.
    { apply mapM_Some_2. constructor; [done|]. by apply mapM_Some_1. }
    csimpl. rewrite (strings_at_Some _ _ _ Href) in *.
    rewrite item_estimate_cached by done.
    rewrite length_app, Nat2Z.inj_add. by apply sum_pairs_cons_hit.
Qed.

Lemma block_estimate_cached b lang heap w :
  Forall (fun ref => is_Some (heap !! ref)
                     ∧ Forall (fun u => cached lang w (TranslationString.content u))
                              (strings_at heap ref))
         (TranslationBlock.translation_items b) →
  TranslationBlock.estimate_price b lang heap w
  = Ok (Num.Int 0,
        Z.of_nat (length (ref ← TranslationBlock.translation_items b; strings_at heap ref))).
Proof.
  intros (items & Hitems & Hsum)%estimate_items_cached.
  unfold TranslationBlock.estimate_price. rewrite Hitems. simpl. by rewrite Hsum.
Qed.

Lemma file_estimate_cached translation_file lang heap w :
  Forall (fun b =>
            Forall (fun ref => is_Some (heap !! ref)
                               ∧ Forall (fun u => cached lang w (TranslationString.content u))
                                        (strings_at heap ref))
                   (TranslationBlock.translation_items b))
         (TranslationFile.translation_blocks translation_file) →
  TranslationFile.estimate_price translation_file lang heap w
  = Ok (Num.Int 0, Z.of_nat (length (strings_of heap translation_file))).
Proof.
  unfold TranslationFile.estimate_price, strings_of.
  intros Hall.
  assert (∃ data,
            TranslationFile.estimate_blocks
              (TranslationFile.translation_blocks translation_file) lang heap w = Ok data
            ∧ sum_pairs data
              = (Num.Int 0,
                 Z.of_nat (length (b ← TranslationFile.translation_blocks translation_file;
                                   ref ← TranslationBlock.translation_items b;
                                   strings_at heap ref)))) as (data & -> & Hsum).
  { induction Hall as [|b bs Hb _ (data & Hdata & Hsum)].
    - by exists [].
    - eexists. csimpl. rewrite block_estimate_cached by done. simpl. rewrite Hdata. simpl.
      split; [done|]. rewrite length_app, Nat2Z.inj_add. by apply sum_pairs_cons_hit. }
  simpl. by rewrite Hsum.
Qed.

(** ** The cache during translation *)

Section cache_growth.
Variable client : Client.
Variable lang : string.
Hypothesis client_nonempty :
  ∀ log text l t, client log text l = Some t → t ≠ EmptyString.

Lemma grows_refl w : grows lang w w.
Proof. by intros c. Qed.

Lemma grows_trans w1 w2 w3 : grows lang w1 w2 → grows lang w2 w3 → grows lang w1 w3.
Proof. intros H12 H23 c Hc. by apply H23, H12. Qed.

(** One string: the cache keeps what it could serve and, unless the
    content is blank, can now serve this content. *)
Lemma unit_cache_step u w u' w' :
  TranslationString.translate client u lang w = Ok (u', w') →
  grows lang w w'
  ∧ (PyStr.all_space (TranslationString.content u) = false →
     cached lang w' (TranslationString.content u)).
Proof.
  intros (_ & _ & Hcases)%translate_unit_cases.
  destruct Hcases as [(Hb & _ & ->)|[(_ & t & Hpull & _ & ->)|(_ & Hpull & t & Hc & _ & ->)]].
  - split; [apply grows_refl|]. congruence.
  - split; [apply grows_refl|]. intros _. apply cached_iff. by exists t.
  - apply client_nonempty in Hc. split.
    + intros c Hcached. unfold cached in *.
      destruct (decide (c = TranslationString.content u)) as [->|Hne].
      * rewrite (pull_from_cache_content _ u) in Hcached by done.
        rewrite Hpull in Hcached. by destruct Hcached.
      * unfold TranslationString.pull_from_cache in *. simpl in *.
        by rewrite lookup_insert_ne.
    + intros _. exists t. by apply pull_after_store.
Qed.

Lemma strings_cache_step us w us' w' :
  for_each (fun u => TranslationString.translate client u lang) us w = Ok (us', w') →
  grows lang w w'
  ∧ Forall (fun u => PyStr.all_space (TranslationString.content u) = false →
                     cached lang w' (TranslationString.content u)) us.
Proof.
  revert w us'. induction us as [|u us IH]; intros w us'; simpl.
  - intros [= <- <-]. split; [apply grows_refl|done].
  - unfold bind at 1.
    destruct (TranslationString.translate client u lang w) as [[u1 w1]|] eqn:Hu; [|done].
    unfold bind at 1. destruct (for_each _ us w1) as [[us1 w2]|] eqn:Hus; [|done].
    unfold ret. intros [= <- <-].
    apply unit_cache_step in Hu as [Hg1 Hu]. apply IH in Hus as [Hg2 Hus].
    split; [by eapply grows_trans|]. constructor; [|done].
    intros Hb. by apply Hg2, Hu.
Qed.

Lemma item_cache_step item w item' w' :
  TranslationItem.translate client item lang w = Ok (item', w') →
  grows lang w w'
  ∧ Forall (fun u => PyStr.all_space (TranslationString.content u) = false →
                     cached lang w' (TranslationString.content u))
           (TranslationItem.translation_strings item).
Proof.
  unfold TranslationItem.translate, bind.
  destruct (for_each _ _ w) as [[us' w1]|] eqn:Hus; [|done].
  unfold ret. intros [= <- <-]. by apply strings_cache_step in Hus.
Qed.

Lemma served_grows heap w w' ref : grows lang w w' → served lang heap w ref → served lang heap w' ref.
Proof.
  intros Hg [Hsome Hall]. split; [done|].
  eapply Forall_impl; [exact Hall|]. intros c Hc Hb. by apply Hg, Hc.
Qed.

Lemma served_same_shape heap heap' w ref :
  Forall2 same_shape heap heap' → served lang heap' w ref → served lang heap w ref.
Proof.
  intros Hshape [[item' Href'] Hall].
  apply Forall2_same_length_lookup in Hshape as [Hlen Hshape].
  destruct (lookup_lt_is_Some_2 heap ref) as [item Href].
  { rewrite Hlen. by eapply lookup_lt_Some. }
  split; [by eexists|].
  rewrite (strings_at_Some _ _ _ Href). rewrite (strings_at_Some _ _ _ Href') in Hall.
  destruct (Hshape ref item item' Href Href') as (_ & _ & <-). done.
Qed.

Lemma same_shape_insert heap ref item item' :
  heap !! ref = Some item → same_shape item item' →
  Forall2 same_shape heap (<[ref := item']> heap).
Proof.
  intros Href Hshape. apply Forall2_same_length_lookup.
  split; [by rewrite length_insert|]. intros i x y Hx Hy.
  destruct (decide (i = ref)) as [->|Hne].
  - rewrite list_lookup_insert_eq in Hy by (by eapply lookup_lt_Some). by simplify_eq.
  - rewrite list_lookup_insert_ne in Hy by done. simplify_eq. apply same_shape_refl.
Qed.

Lemma items_cache_step items heap w heap' w' :
  TranslationBlock.translate_items client lang items heap w = Ok (heap', w') →
  grows lang w w' ∧ Forall (served lang heap w') items.
Proof.
  revert heap w. induction items as [|ref items IH]; intros heap w; simpl.
  - intros [= <- <-]. split; [apply grows_refl|done].
  - unfold bind at 1, lift, deref.
    destruct (heap !! ref) as [item|] eqn:Href; simpl; [|done].
    unfold bind at 1.
    destruct (TranslationItem.translate client item lang w) as [[item' w1]|] eqn:Hitem; [|done].
    intros Hrest. pose proof (translate_items_shape _ _ _ _ _ _ _ Hrest) as Hshape'.
    apply IH in Hrest as [Hg2 Hrest].
    pose proof (item_translate_shape _ _ _ _ _ _ Hitem) as [Hshape _].
    apply item_cache_step in Hitem as [Hg1 Hitem].
    pose proof (same_shape_insert heap ref item item' Href Hshape) as Hins.
    split; [by eapply grows_trans|]. constructor.
    + apply (served_grows _ w1); [done|]. split; [by eexists|].
      rewrite (strings_at_Some _ _ _ Href). by apply Forall_fmap.
    + eapply Forall_impl; [exact Hrest|]. intros r Hr.
      by eapply served_same_shape.
Qed.

Lemma blocks_cache_step blocks heap w heap' w' :
  TranslationFile.translate_blocks client lang blocks heap w = Ok (heap', w') →
  grows lang w w'
  ∧ Forall (fun b => Forall (served lang heap w') (TranslationBlock.translation_items b)) blocks.
Proof.
  revert heap w. induction blocks as [|b blocks IH]; intros heap w; simpl.
  - intros [= <- <-]. split; [apply grows_refl|done].
  - unfold bind at 1, TranslationBlock.translate.
    destruct (TranslationBlock.translate_items _ _ _ heap w) as [[heap1 w1]|] eqn:Hb; [|done].
    intros Hrest. pose proof (translate_items_shape _ _ _ _ _ _ _ Hb) as Hshape.
    apply items_cache_step in Hb as [Hg1 Hb]. apply IH in Hrest as [Hg2 Hrest].
    split; [by eapply grows_trans|]. constructor.
    + eapply Forall_impl; [exact Hb|]. intros r Hr. by eapply served_grows.
    + eapply Forall_impl; [exact Hrest|]. intros b' Hb'.
      eapply Forall_impl; [exact Hb'|]. intros r Hr. by eapply served_same_shape.
Qed.
End cache_growth.

Lemma cached_in_cache lang w c : cached lang w c ↔ in_cache c lang w.
Proof.
  unfold cached, in_cache. split.
  - intros [t Ht]. apply pull_from_cache_Some in Ht as (d & ? & ? & ?). by exists d, t.
  - intros (d & t & ? & ? & ?). exists t. apply pull_from_cache_Some. by exists d.
Qed.

(** Once every content that is not blank can be served, and no string is
    blank, every string of the translated tree can be served. *)
Lemma served_all_cached lang heap heap' w translation_file :
  Forall2 same_shape heap heap' →
  Forall (fun s => PyStr.all_space (TranslationString.content s) = false)
         (strings_of heap translation_file) →
  Forall (fun b => Forall (served lang heap w) (TranslationBlock.translation_items b))
         (TranslationFile.translation_blocks translation_file) →
  Forall (fun b =>
            Forall (fun ref => is_Some (heap' !! ref)
                               ∧ Forall (fun u => cached lang w (TranslationString.content u))
                                        (strings_at heap' ref))
                   (TranslationBlock.translation_items b))
         (TranslationFile.translation_blocks translation_file).
Proof.
  intros Hshape Hnonblank Hserved.
  apply Forall2_same_length_lookup in Hshape as [Hlen Hshape].
  rewrite Forall_forall in Hserved. rewrite Forall_forall in Hnonblank.
  apply Forall_forall. intros b Hb. apply Forall_forall. intros ref Href.
  pose proof (Hserved b Hb) as Hrefs. rewrite Forall_forall in Hrefs.
  destruct (Hrefs ref Href) as [[item Hitem] Hall].
  destruct (lookup_lt_is_Some_2 heap' ref) as [item' Hitem'].
  { rewrite <- Hlen. by eapply lookup_lt_Some. }
  split; [by eexists|].
  rewrite (strings_at_Some _ _ _ Hitem'). rewrite (strings_at_Some _ _ _ Hitem) in Hall.
  destruct (Hshape ref item item' Hitem Hitem') as (_ & _ & Hcontents).
  rewrite Forall_forall in Hall. apply Forall_forall. intros u' Hu'.
  assert (Hin : TranslationString.content u'
                ∈ TranslationString.content <$> TranslationItem.translation_strings item).
  { rewrite <- Hcontents. by apply list_elem_of_fmap_2. }
  apply Hall; [done|].
  apply list_elem_of_fmap in Hin as (u & -> & Hu).
  apply Hnonblank. unfold strings_of.
  apply list_elem_of_bind. exists b. split; [|done].
  apply list_elem_of_bind. exists ref. split; [|done].
  by rewrite (strings_at_Some _ _ _ Hitem).
Qed.

(** C5, amended. [estimate_price] of a string is the pair (0, 1) when
    the cache holds a non-empty translation of its content into the
    language, and the pair (length of the content times [PPC], 0)
    otherwise, where [PPC] is the double nearest to 0.00002.  And for a tree
    in which no string is blank, translated once by a client that never
    answers with an empty text, the estimate taken again on the translated
    tree against the resulting cache is the integer 0 with as many cache hits
    as the tree has strings: each string is a cache hit. *)
Theorem estimate_after_translate client lang translation_file heap w heap' w' u w0 :
  (∀ log text l t, client log text l = Some t → t ≠ EmptyString) →
  Forall (fun s => PyStr.all_space (TranslationString.content s) = false)
         (strings_of heap translation_file) →
  TranslationFile.translate client translation_file lang heap w = Ok (heap', w') →
  (in_cache (TranslationString.content u) lang w0 →
   TranslationString.estimate_price u lang w0 = (Num.Int 0, 1%Z))
  ∧ (¬ in_cache (TranslationString.content u) lang w0 →
     TranslationString.estimate_price u lang w0
     = (Num.mul (Num.Int (Z.of_nat (PyStr.len (TranslationString.content u)))) PPC, 0%Z))
  ∧ PPC = Num.Float 0x1.4f8b588e368f1p-16%float
  ∧ TranslationFile.estimate_price translation_file lang heap' w'
    = Ok (Num.Int 0, Z.of_nat (length (strings_of heap' translation_file)))
  ∧ Forall (fun s => TranslationString.estimate_price s lang w' = (Num.Int 0, 1%Z))
           (strings_of heap' translation_file).
Proof.
  intros Hclient Hnonblank Htr. split_and!.
  - intros Hin. apply estimate_price_cached. by apply cached_in_cache.
  - intros Hnot. unfold TranslationString.estimate_price.
    destruct (TranslationString.pull_from_cache u lang w0) as [t|] eqn:Hpull; [|done].
    destruct Hnot. apply cached_in_cache, cached_iff. by exists t.
  - reflexivity.
  - apply file_estimate_cached.
    pose proof (translate_blocks_shape _ _ _ _ _ _ _ Htr) as Hshape.
    apply (blocks_cache_step _ _ Hclient) in Htr as [_ Hserved].
    by eapply served_all_cached.
  - pose proof (translate_blocks_shape _ _ _ _ _ _ _ Htr) as Hshape.
    apply (blocks_cache_step _ _ Hclient) in Htr as [_ Hserved].
    pose proof (served_all_cached _ _ _ _ _ Hshape Hnonblank Hserved) as Hall.
    rewrite Forall_forall in Hall. apply Forall_forall. intros s Hs.
    unfold strings_of in Hs.
    apply list_elem_of_bind in Hs as (b & Hs & Hb).
    apply list_elem_of_bind in Hs as (ref & Hs & Href).
    pose proof (Hall b Hb) as Hrefs. rewrite Forall_forall in Hrefs.
    destruct (Hrefs ref Href) as [_ Hcached]. rewrite Forall_forall in Hcached.
    by apply estimate_price_cached, Hcached.
Qed.

Lemma estimate_after_translate_witness :
  let file := "tl/script.rpy" in
  let translation_file :=
    {| TranslationFile.filename := file;
       TranslationFile.translation_blocks :=
         [{| TranslationBlock.source_file := file; TranslationBlock.block_line := 0;
             TranslationBlock.translation_items := [0] |}] |} in
  let heap := [TranslationItem.init 2 3 "Hello world"] in
  let heap' :=
    [{| TranslationItem.source_line := 2; TranslationItem.target_line := 3;
        TranslationItem.translation_strings :=
          [{| TranslationString.content := "Hello world";
              TranslationString.to_language := Some "fr";
              TranslationString.translation := Some "<Hello world>" |}];
        TranslationItem._original_content := "Hello world" |}] in
  let w' := {| TRANSLATION_CACHE := {[ "Hello world" := {[ "fr" := "<Hello world>" ]} ]};
               client_log := [("Hello world", "fr")] |} in
  let u := TranslationString.init "Hello world" in
  parse_file file Sample.hello_file = Ok (translation_file, heap)
  ∧ TranslationFile.translate Sample.client_brackets translation_file "fr" heap (mkWorld ∅ [])
    = Ok (heap', w')
  ∧ TranslationFile.estimate_price translation_file "fr" heap (mkWorld ∅ [])
    = Ok (Num.Float 0x1.cd5f99c38b04bp-13%float, 0%Z)
  ∧ (in_cache (TranslationString.content u) "fr" w' →
     TranslationString.estimate_price u "fr" w' = (Num.Int 0, 1%Z))
  ∧ (¬ in_cache (TranslationString.content u) "fr" w' →
     TranslationString.estimate_price u "fr" w'
     = (Num.mul (Num.Int (Z.of_nat (PyStr.len (TranslationString.content u)))) PPC, 0%Z))
  ∧ PPC = Num.Float 0x1.4f8b588e368f1p-16%float
  ∧ TranslationFile.estimate_price translation_file "fr" heap' w'
    = Ok (Num.Int 0, Z.of_nat (length (strings_of heap' translation_file)))
  ∧ Forall (fun s => TranslationString.estimate_price s "fr" w' = (Num.Int 0, 1%Z))
           (strings_of heap' translation_file).
Proof.
  intros file translation_file heap heap' w' u.
  split; [vm_compute; reflexivity|].
  split; [vm_compute; reflexivity|].
  split; [vm_compute; reflexivity|].
  apply (estimate_after_translate Sample.client_brackets "fr" translation_file heap
           (mkWorld ∅ []) heap' w' u w').
  - intros log text l t [= <-]. discriminate.
  - repeat constructor.
  - vm_compute. reflexivity.
Defined.

(** C5 as stated fails on a tree with a blank string: the line of
    [Sample.blank_unit_file] has the two units Hi and a single space; after
    translating everything once the space is still no cache hit and still
    costs one character. *)
Lemma estimate_after_translate_blank :
  ∃ translation_file heap heap' w' price hits,
    parse_file "tl/script.rpy" Sample.blank_unit_file = Ok (translation_file, heap)
    ∧ TranslationFile.translate Sample.client_brackets translation_file "fr" heap (mkWorld ∅ [])
      = Ok (heap', w')
    ∧ TranslationFile.estimate_price translation_file "fr" heap' w' = Ok (price, hits)
    ∧ length (strings_of heap' translation_file) = 2
    ∧ hits = 1%Z
    ∧ Num.eqb price (Num.Int 0) = false
    ∧ price = PPC.
Proof. eexists _, _, _, _, _, _. vm_compute. by repeat split. Qed.

(** ** The parse loop *)

(** A header line starts with the letter t. *)
Lemma header_starts_with_t line :
  is_Some (Re.re_match RE_HEADER line) → ∃ r, line = String "t" r.
Proof.
  unfold Re.re_match, RE_HEADER. simpl Re.Str. rewrite !go_seq.
  destruct line as [|c line]; [by intros [? ?]|].
  rewrite go_chr.
  destruct (Ascii.eqb_spec "t" c) as [<-|]; [by eexists|by intros [? ?]].
Qed.

Lemma strip_cons c r :
  PyStr.isspace c = false → ∃ r', PyStr.strip (String c r) = String c r'.
Proof. intros Hc. unfold PyStr.strip. simpl. rewrite Hc. simpl. rewrite Hc. by eexists. Qed.

Lemma header_not_old line :
  is_Some (Re.re_match RE_HEADER line) → PyStr.startswith "old" (PyStr.strip line) = false.
Proof.
  intros [r ->]%header_starts_with_t.
  by destruct (strip_cons "t" r eq_refl) as [r' ->].
Qed.

Lemma header_not_nvl line :
  is_Some (Re.re_match RE_HEADER line) →
  PyStr.startswith "nvl clear" (PyStr.strip line) = false.
Proof.
  intros [r ->]%header_starts_with_t.
  by destruct (strip_cons "t" r eq_refl) as [r' ->].
Qed.

Lemma nvl_not_old_new s :
  PyStr.startswith "nvl clear" s = true →
  PyStr.startswith "old" s = false ∧ PyStr.startswith "new" s = false
  ∧ PyStr.is_empty s = false.
Proof.
  destruct s as [|c1 s]; [done|]. cbn [PyStr.startswith].
  destruct (Ascii.eqb_spec "n" c1) as [<-|]; [|done].
  destruct s as [|c2 s]; [done|]. cbn [PyStr.startswith].
  destruct (Ascii.eqb_spec "v" c2) as [<-|]; [|done]. done.
Qed.

Lemma getitem_pred {A} (l : list A) (k : nat) :
  getitem l (Z.of_nat (S k) - 1) = or_raise IndexError (l !! k).
Proof.
  replace (Z.of_nat (S k) - 1)%Z with (Z.of_nat k) by lia. apply getitem_nat.
Qed.

(** The step at a line that starts with [nvl clear] and follows a
    commented original: a new item, one line ahead, in the open block. *)
Lemma parse_line_nvl file text_lines k prev line st st' :
  text_lines !! k = Some prev →
  PyStr.startswith "#" (PyStr.strip prev) = true →
  PyStr.startswith "# nvl clear" (PyStr.strip prev) = false →
  PyStr.startswith "nvl clear" (PyStr.strip line) = true →
  parse_line file text_lines (S k) line st = Ok st' →
  ∃ content current,
    quoted_content (PyStr.slice_from 2 (PyStr.strip prev)) = Ok content
    ∧ translation_block st = Some current
    ∧ st' = {| translation_file := translation_file st;
               translation_block :=
                 Some (TranslationBlock.add_translation_item current (length (heap st)));
               translation_item := Some (length (heap st));
               block := block st;
               heap := heap st ++ [TranslationItem.init (S k) (S k + 1) content] |}.
Proof.
  intros Hprev Hhash Hmarker Hnvl. unfold parse_line.
  rewrite (bool_decide_eq_false_2 (is_Some (Re.re_match RE_HEADER line))).
  2: { intros Hh%header_not_nvl. congruence. }
  rewrite andb_false_r, getitem_pred, Hprev. cbn [rbind or_raise].
  destruct (nvl_not_old_new _ Hnvl) as (Hold & Hnew & Hne).
  rewrite Hhash, Hmarker, Hold, Hnew, Hne, Hnvl, !andb_false_r. cbn [andb negb].
  destruct (quoted_content _) as [content|]; cbn [rbind or_raise]; [|done].
  destruct (translation_block st) as [current|]; cbn [rbind or_raise]; [|done].
  intros [= <-]. by exists content, current.
Qed.

(** Any step keeps an item that is in a block where it is and as it is,
    unless the step is that of a [new] line while the item is the pending
    one; and after the step of an [old] line the pending item is younger. *)
Lemma parse_line_keeps file text_lines j line st st' ref it :
  parse_line file text_lines j line st = Ok st' →
  heap st !! ref = Some it →
  located ref st →
  (∀ prev, getitem text_lines (Z.of_nat j - 1) = Ok prev →
           new_after_old prev line = true → translation_item st ≠ Some ref) →
  heap st' !! ref = Some it
  ∧ located ref st'
  ∧ (∀ prev, getitem text_lines (Z.of_nat j - 1) = Ok prev →
             old_after_comment prev line = true →
             ∃ ref', translation_item st' = Some ref' ∧ ref < ref').
Proof.
  intros Hstep Hit Hloc Hpending. unfold parse_line in Hstep.
  destruct (negb _ && bool_decide (is_Some (Re.re_match RE_HEADER line))) eqn:Hheader.
  - injection Hstep as <-. simpl. split; [done|]. split.
    + destruct Hloc as [(b & -> & Hb)|(b & Hb & Href)]; right; exists b; simpl.
      * split; [|done]. apply elem_of_app. right. by apply list_elem_of_singleton.
      * split; [|done]. destruct (translation_block st); [|done].
        simpl. apply elem_of_app. by left.
    + intros prev _ Hold. apply andb_true_iff in Hheader as [_ Hh%bool_decide_eq_true].
      apply header_not_old in Hh. unfold old_after_comment in Hold.
      rewrite Hh, andb_false_r in Hold. done.
  - clear Hheader.
    destruct (getitem text_lines (Z.of_nat j - 1)) as [prev|] eqn:Hprev;
      cbn [rbind or_raise] in Hstep; [|done].
    specialize (Hpending prev eq_refl).
    fold (old_after_comment prev line) in Hstep. fold (new_after_old prev line) in Hstep.
    destruct (old_after_comment prev line) eqn:Hold.
    { destruct (quoted_content _) as [content|]; cbn [rbind or_raise] in Hstep; [|done].
      injection Hstep as <-. simpl. split; [by apply lookup_app_l_Some|]. split; [done|].
      intros prev' [= <-] _. eexists. split; [done|]. by eapply lookup_lt_Some. }
    destruct (new_after_old prev line) eqn:Hnew.
    { destruct (translation_item st) as [pending|]; cbn [rbind or_raise] in Hstep; [|done].
      destruct (translation_block st) as [current|] eqn:Hcur; cbn [rbind or_raise] in Hstep; [|done].
      injection Hstep as <-. simpl.
      assert (pending ≠ ref) by (intros ->; by apply Hpending).
      split; [by rewrite list_lookup_alter_ne|]. split.
      - destruct Hloc as [(b & Hb & Href)|Hfile]; [|by right].
        left. eexists. split; [done|]. simplify_eq. simpl. apply elem_of_app. by left.
      - intros prev' [= <-]. congruence. }
    destruct (PyStr.startswith "#" (PyStr.strip prev)
              && negb (PyStr.startswith "# nvl clear" (PyStr.strip prev))
              && negb (PyStr.is_empty (PyStr.strip line))).
    { destruct (quoted_content _) as [content|]; cbn [rbind or_raise] in Hstep; [|done].
      destruct (translation_block st) as [current|] eqn:Hcur; cbn [rbind or_raise] in Hstep; [|done].
      injection Hstep as <-. simpl. split; [by apply lookup_app_l_Some|]. split.
      - destruct Hloc as [(b & Hb & Href)|Hfile]; [|by right].
        left. eexists. split; [done|]. simplify_eq. simpl. apply elem_of_app. by left.
      - intros prev' [= <-]. congruence. }
    injection Hstep as <-. split; [done|]. split; [done|].
    intros prev' [= <-]. congruence.
Qed.

Lemma parse_loop_app file text_lines j l1 l2 st :
  parse_loop file text_lines j (l1 ++ l2) st
  = rbind (parse_loop file text_lines j l1 st)
          (fun st' => parse_loop file text_lines (j + length l1) l2 st').
Proof.
  revert j st. induction l1 as [|line l1 IH]; intros j st; simpl.
  - by rewrite Nat.add_0_r.
  - destruct (parse_line file text_lines j line st) as [st1|]; simpl; [|done].
    rewrite IH. by replace (S j + length l1) with (j + S (length l1)) by lia.
Qed.

(** The rest of the loop keeps the item, in a file whose [new] lines are
    paired. *)
Lemma parse_loop_keeps file text_lines ref it :
  paired text_lines →
  ∀ rest j st st',
    2 ≤ j →
    drop j text_lines = rest →
    parse_loop file text_lines j rest st = Ok st' →
    heap st !! ref = Some it →
    located ref st →
    (∀ before prev,
       text_lines !! (j - 2) = Some before → text_lines !! (j - 1) = Some prev →
       old_after_comment before prev = true →
       ∃ ref', translation_item st = Some ref' ∧ ref < ref') →
    heap st' !! ref = Some it ∧ located ref st'.
Proof.
  intros Hpaired rest. induction rest as [|line rest IH]; intros j st st' Hj Hdrop; simpl.
  - by intros [= <-].
  - destruct (parse_line file text_lines j line st) as [st1|] eqn:Hstep; simpl; [|done].
    intros Hrest Hit Hloc Hyoung.
    assert (Hline : text_lines !! j = Some line).
    { rewrite <- (Nat.add_0_r j), <- lookup_drop, Hdrop. done. }
    assert (Hprev : getitem text_lines (Z.of_nat j - 1) = or_raise IndexError (text_lines !! (j - 1))).
    { replace (Z.of_nat j - 1)%Z with (Z.of_nat (j - 1)) by lia. apply getitem_nat. }
    destruct (parse_line_keeps _ _ _ _ _ _ ref it Hstep Hit Hloc) as (Hit1 & Hloc1 & Hyoung1).
    { intros prev Hp Hnew. rewrite Hprev in Hp.
      destruct (text_lines !! (j - 1)) as [prev'|] eqn:Hprev'; simplify_eq/=.
      destruct (lookup_lt_is_Some_2 text_lines (j - 2)) as [before Hbefore].
      { apply lookup_lt_Some in Hprev'. lia. }
      destruct (Hyoung before prev) as (ref' & -> & Hlt); [done..| |intros [= ->]; lia].
      apply (Hpaired (j - 2) before prev line); [done| | |done].
      - by replace (S (j - 2)) with (j - 1) by lia.
      - by replace (S (S (j - 2))) with j by lia. }
    apply (IH (S j) st1 st'); [lia| |done..|].
    + replace (S j) with (j + 1) by lia. by rewrite <- drop_drop, Hdrop.
    + intros before prev Hbefore Hp Hold.
      replace (S j - 2) with (j - 1) in Hbefore by lia.
      replace (S j - 1) with j in Hp by lia. simplify_eq.
      apply (Hyoung1 before); [|done]. rewrite Hprev, Hbefore. done.
Qed.

(** C9, amended. In a file that the parser accepts and whose [new] lines
    are paired, let a line that starts, once trimmed, with [nvl clear] come
    right after a commented original, that is a line that starts with the
    comment sign but not with the commented marker.  Then the tree holds an
    item whose source line is the [nvl clear] line and whose target line is
    one greater; its original content is the quoted text of the comment. *)
Theorem nvl_clear_shifts_target file text_lines k prev line translation_file heap :
  text_lines !! k = Some prev →
  text_lines !! S k = Some line →
  PyStr.startswith "#" (PyStr.strip prev) = true →
  PyStr.startswith "# nvl clear" (PyStr.strip prev) = false →
  PyStr.startswith "nvl clear" (PyStr.strip line) = true →
  paired text_lines →
  parse_file file text_lines = Ok (translation_file, heap) →
  ∃ b ref item,
    b ∈ TranslationFile.translation_blocks translation_file
    ∧ ref ∈ TranslationBlock.translation_items b
    ∧ heap !! ref = Some item
    ∧ TranslationItem.source_line item = S k
    ∧ TranslationItem.target_line item = S (S k)
    ∧ quoted_content (PyStr.slice_from 2 (PyStr.strip prev))
      = Ok (TranslationItem.original_content item).
Proof.
  intros Hprev Hline Hhash Hmarker Hnvl Hpaired. unfold parse_file.
  rewrite <- (take_drop_middle text_lines (S k) line Hline) at 2.
  rewrite parse_loop_app.
  destruct (parse_loop file text_lines 0 (take (S k) text_lines) _) as [st1|];
    cbn [rbind]; [|done].
  rewrite length_take_le by (apply lookup_lt_Some in Hline; lia).
  cbn [parse_loop Nat.add].
  destruct (parse_line file text_lines (S k) line st1) as [st2|] eqn:Hstep; cbn [rbind]; [|done].
  destruct (parse_loop file text_lines (S (S k)) _ st2) as [st3|] eqn:Hrest; cbn [rbind]; [|done].
  intros [= <- <-].
  destruct (parse_line_nvl _ _ _ _ _ _ _ Hprev Hhash Hmarker Hnvl Hstep)
    as (content & current & Hcontent & Hcurrent & ->).
  set (item := TranslationItem.init (S k) (S k + 1) content).
  destruct (parse_loop_keeps file text_lines (length (heap st1)) item Hpaired
              _ (S (S k)) _ st3 ltac:(lia) eq_refl Hrest) as [Hit Hloc].
  - simpl. by rewrite lookup_app_r, Nat.sub_diag.
  - left. eexists. split; [done|]. simpl. apply elem_of_app. right.
    by apply list_elem_of_singleton.
  - intros before prev' Hbefore Hp Hold.
    replace (S (S k) - 1) with (S k) in Hp by lia. simplify_eq.
    destruct (nvl_not_old_new _ Hnvl) as (Hno & _).
    unfold old_after_comment in Hold. by rewrite Hno, andb_false_r in Hold.
  - assert (∃ b, b ∈ TranslationFile.translation_blocks
                       match translation_block st3 with
                       | Some b => TranslationFile.add_translation_block (translation_file st3) b
                       | None => translation_file st3
                       end
                 ∧ length (heap st1) ∈ TranslationBlock.translation_items b)
      as (b & Hb & Href).
    { destruct Hloc as [(b & -> & Href)|(b & Hb & Href)]; exists b.
      - split; [|done]. simpl. apply elem_of_app. right. by apply list_elem_of_singleton.
      - split; [|done]. destruct (translation_block st3); [|done].
        simpl. apply elem_of_app. by left. }
    exists b, (length (heap st1)), item. split_and!; try done.
    simpl. f_equal. lia.
Qed.

Lemma nvl_file_paired : paired Sample.nvl_file.
Proof.
  intros j before prev line Hb Hp Hl Hnew.
  do 4 (destruct j as [|j]; [vm_compute in Hp, Hl; simplify_eq; vm_compute in Hnew; done|]).
  by destruct j.
Qed.

Lemma nvl_clear_shifts_target_witness :
  let file := "tl/script.rpy" in
  let translation_file :=
    {| TranslationFile.filename := file;
       TranslationFile.translation_blocks :=
         [{| TranslationBlock.source_file := file; TranslationBlock.block_line := 0;
             TranslationBlock.translation_items := [0] |}] |} in
  let heap := [TranslationItem.init 4 5 "Hello world"] in
  parse_file file Sample.nvl_file = Ok (translation_file, heap)
  ∧ Sample.nvl_file !! 3 = Some (Sample.ln ("    # n " +:+ Sample.quoted "Hello world"))
  ∧ Sample.nvl_file !! 4 = Some (Sample.ln "    nvl clear")
  ∧ ∃ b ref item,
      b ∈ TranslationFile.translation_blocks translation_file
      ∧ ref ∈ TranslationBlock.translation_items b
      ∧ heap !! ref = Some item
      ∧ TranslationItem.source_line item = 4
      ∧ TranslationItem.target_line item = 5
      ∧ quoted_content
          (PyStr.slice_from 2 (PyStr.strip (Sample.ln ("    # n " +:+ Sample.quoted "Hello world"))))
        = Ok (TranslationItem.original_content item).
Proof.
  intros file translation_file heap.
  assert (Hparse : parse_file file Sample.nvl_file = Ok (translation_file, heap))
    by (vm_compute; reflexivity).
  split; [exact Hparse|]. split; [reflexivity|]. split; [reflexivity|].
  apply (nvl_clear_shifts_target file Sample.nvl_file 3
           (Sample.ln ("    # n " +:+ Sample.quoted "Hello world"))
           (Sample.ln "    nvl clear") translation_file heap);
    [reflexivity..| |exact Hparse].
  exact nvl_file_paired.
Defined.

(** C9 as stated fails, on two files in which a quoted line comes right
    after the commented marker.  In the first that line is the commented
    original, and the line to fill in follows: the one item of the tree has
    its target on its source line, not one further.  In the second it is a
    bare quoted line: the tree has no item at all. *)
Lemma marker_then_quoted_no_shift :
  (∃ translation_file heap item,
     parse_file "tl/script.rpy" Sample.marker_then_comment_file = Ok (translation_file, heap)
     ∧ heap = [item]
     ∧ TranslationItem.source_line item = 4
     ∧ TranslationItem.target_line item = 4)
  ∧ (∃ translation_file,
       parse_file "tl/script.rpy" Sample.marker_then_quoted_file = Ok (translation_file, [])
       ∧ recorded_targets [] translation_file = []).
Proof.
  split.
  - eexists _, _, _. vm_compute. by repeat split.
  - eexists. vm_compute. by repeat split.
Qed.

(** ** Joining what was split *)

Lemma rev_app_append cur t : String.rev_app cur t = String.rev cur +:+ t.
Proof.
  unfold String.rev. revert t. induction cur as [|c cur IH]; intros t; simpl; [done|].
  rewrite IH, (IH (String c EmptyString)).
  clear IH. induction (String.rev_app cur "") as [|d r IHr]; [done|].
  by rewrite !string_app_cons, IHr.
Qed.

Lemma join_cons x rest :
  rest ≠ [] → PyStr.join_esc_nl (x :: rest) = x +:+ PyStr.ESC_NL +:+ PyStr.join_esc_nl rest.
Proof. by destruct rest. Qed.

Lemma string_app_assoc a b c : (a +:+ b) +:+ c = a +:+ b +:+ c.
Proof. induction a as [|x a IH]; [done|]. by rewrite !string_app_cons, IH. Qed.

Lemma join_split_go n : ∀ cur s,
  String.length s ≤ n →
  PyStr.join_esc_nl (PyStr.split_go cur s) = String.rev_app cur s.
Proof.
  induction n as [|n IH]; intros cur s Hlen.
  - destruct s; [done|simpl in Hlen; lia].
  - destruct s as [|c [|d s]]; [done|done|].
    cbn [PyStr.split_go].
    destruct (Ascii.eqb_spec c PyStr.backslash) as [->|Hc];
      [destruct (Ascii.eqb_spec d "n") as [->|Hd]|]; cbn [andb].
    + rewrite join_cons by apply split_go_not_nil.
      rewrite (IH EmptyString s) by (simpl in Hlen; lia).
      rewrite !rev_app_append. done.
    + apply (IH (String PyStr.backslash cur) (String d s)). simpl in *. lia.
    + apply (IH (String c cur) (String d s)). simpl in *. lia.
Qed.

(** X1. Splitting at the escaped newline and joining again with it gives
    the string back. *)
Theorem join_split s : PyStr.join_esc_nl (PyStr.split_esc_nl s) = s.
Proof. unfold PyStr.split_esc_nl. by rewrite (join_split_go (String.length s)). Qed.

(** ** Removing the tags *)

(** A tag starts with an opening brace. *)
Lemma match_len_tag_None c s :
  c ≠ "{"%char → Re.match_len TAG_PATTERN (String c s) = None.
Proof.
  intros Hc. unfold Re.match_len, TAG_PATTERN. cbv zeta.
  rewrite !go_alt, !go_seq, !go_chr.
  destruct (Ascii.eqb_spec "{" c) as [Heq|_]; [by destruct Hc|done].
Qed.

Lemma sub_go_no_brace s :
  PyStr.occurs "{" s = false → Re.sub_go TAG_PATTERN 0 s = s.
Proof.
  induction s as [|c s IH]; [done|]. cbn [PyStr.occurs Re.sub_go].
  destruct (Ascii.eqb_spec "{" c) as [Heq|Hc]; [done|]. cbn [orb]. intros Hs.
  rewrite match_len_tag_None by done. by rewrite IH.
Qed.

(** X2. A content without an opening brace loses nothing to the removal
    of tags: the strings of the item are the pieces of the content itself. *)
Theorem sanitize_without_brace source_line target_line original :
  PyStr.occurs "{" original = false →
  TranslationString.content
    <$> TranslationItem.translation_strings
          (TranslationItem.init source_line target_line original)
  = PyStr.split_esc_nl original.
Proof.
  intros Hfree. simpl. unfold Re.sub_empty. rewrite sub_go_no_brace by done.
  rewrite <- list_fmap_compose. apply list_fmap_id.
Qed.

Lemma sanitize_without_brace_witness :
  PyStr.occurs "{" ("Hello" +:+ PyStr.ESC_NL +:+ "world") = false
  ∧ TranslationString.content
      <$> TranslationItem.translation_strings
            (TranslationItem.init 2 3 ("Hello" +:+ PyStr.ESC_NL +:+ "world"))
    = PyStr.split_esc_nl ("Hello" +:+ PyStr.ESC_NL +:+ "world").
Proof.
  split; [reflexivity|].
  apply (sanitize_without_brace 2 3 ("Hello" +:+ PyStr.ESC_NL +:+ "world")). reflexivity.
Defined.

(** ** A client that changes nothing *)

Section echo.
Variable client : Client.
Variable lang : string.
Hypothesis client_echo : ∀ log text l, client log text l = Some text.

Lemma echo_unit_step u w u' w' :
  echo_cache lang w →
  TranslationString.translate client u lang w = Ok (u', w') →
  (TranslationString.content u' = TranslationString.content u
   ∧ TranslationString.translation u' = Some (TranslationString.content u))
  ∧ echo_cache lang w'.
Proof.
  intros Hw (Hc & _ & Hcases)%translate_unit_cases.
  destruct Hcases as [(_ & -> & ->)|[(_ & t & Hpull & -> & ->)|(_ & _ & t & Hcl & -> & ->)]].
  - done.
  - split; [|done]. split; [done|].
    apply pull_from_cache_Some in Hpull as (d & Hd & Ht & _).
    apply Hw in Hd as ->. apply lookup_singleton_Some in Ht as [_ ->]. done.
  - rewrite client_echo in Hcl. injection Hcl as <-. split; [done|].
    intros c d. simpl. destruct (decide (TranslationString.content u = c)) as [->|Hne].
    + rewrite lookup_insert_eq. by intros [= <-].
    + rewrite lookup_insert_ne by done. apply Hw.
Qed.

(** With a client that always answers, translating strings never raises. *)
Lemma for_each_translate_total us w :
  ∃ us' w',
    for_each (fun u => TranslationString.translate client u lang) us w = Ok (us', w').
Proof.
  revert w. induction us as [|u us IH]; intros w; simpl; [by eexists _, _|].
  assert (∃ u' w1, TranslationString.translate client u lang w = Ok (u', w1))
    as (u' & w1 & Hu).
  { destruct (PyStr.all_space (TranslationString.content u)) eqn:Hb.
    - eexists _, _. apply translate_guard. by rewrite strip_empty.
    - destruct (TranslationString.pull_from_cache u lang w) as [t|] eqn:Hp.
      + eexists _, _. by apply translate_hit.
      + eexists _, _. apply translate_miss; [done..|apply client_echo]. }
  destruct (IH w1) as (us' & w' & Hus).
  unfold bind at 1. rewrite Hu. unfold bind at 1. rewrite Hus. by eexists _, _.
Qed.

(** X3. With a client that returns every text as it is, and an empty
    cache to start from, translating a dialogue line succeeds and its
    translated content is the original content without its tags: the tags
    are not put back. *)
Theorem echo_translation_drops_tags source_line target_line original log :
  ∃ item' w',
    TranslationItem.translate client
      (TranslationItem.init source_line target_line original) lang (mkWorld ∅ log)
    = Ok (item', w')
    ∧ TranslationItem.get_translated_content item'
      = Ok (Re.sub_empty TAG_PATTERN original).
Proof.
  unfold TranslationItem.translate, bind.
  destruct (for_each_translate_total
              (TranslationItem.translation_strings
                 (TranslationItem.init source_line target_line original))
              (mkWorld ∅ log)) as (us' & w' & Hus).
  rewrite Hus. eexists _, _. split; [done|].
  eapply (for_each_ok _ _ _ _ _ (echo_cache lang)
            (fun u u' => TranslationString.content u' = TranslationString.content u
                         ∧ TranslationString.translation u' = Some (TranslationString.content u)))
    in Hus as [HR _]; [|apply echo_unit_step|by intros c d; simpl; rewrite lookup_empty].
  unfold TranslationItem.get_translated_content. simpl in *.
  assert (Hparts : mapM TranslationString.translation us'
                   = Some (PyStr.split_esc_nl (Re.sub_empty TAG_PATTERN original))).
  { apply mapM_Some_2. revert HR.
    generalize (PyStr.split_esc_nl (Re.sub_empty TAG_PATTERN original)). intros pieces.
    revert us'. induction pieces as [|p pieces IH]; intros us' HR; csimpl in *.
    - inversion HR. constructor.
    - inversion HR as [|? u' ? us'' [_ Ht] Hrest]; subst. constructor; [done|]. by apply IH. }
  rewrite Hparts. simpl. by rewrite join_split.
Qed.
End echo.

Lemma echo_translation_drops_tags_witness :
  ∃ item' w',
    TranslationItem.translate (fun _ text _ => Some text)
      (TranslationItem.init 2 3 ("{i}Hello{/i}" +:+ PyStr.ESC_NL +:+ "world")) "fr"
      (mkWorld ∅ [])
    = Ok (item', w')
    ∧ TranslationItem.get_translated_content item'
      = Ok (Re.sub_empty TAG_PATTERN ("{i}Hello{/i}" +:+ PyStr.ESC_NL +:+ "world")).
Proof.
  apply (echo_translation_drops_tags (fun _ text _ => Some text) "fr").
  reflexivity.
Defined.

(** ** Summaries of a translation *)

Lemma strings_at_same_shape heap heap' ref :
  Forall2 same_shape heap heap' →
  TranslationString.content <$> strings_at heap' ref
  = TranslationString.content <$> strings_at heap ref.
Proof.
  intros Hshape. apply Forall2_same_length_lookup in Hshape as [Hlen Hshape].
  destruct (heap !! ref) as [item|] eqn:Href.
  - destruct (lookup_lt_is_Some_2 heap' ref) as [item' Href'].
    { rewrite <- Hlen. by eapply lookup_lt_Some. }
    rewrite (strings_at_Some _ _ _ Href), (strings_at_Some _ _ _ Href').
    by destruct (Hshape ref item item' Href Href') as (_ & _ & ->).
  - rewrite (strings_at_None _ _ Href), (strings_at_None heap' ref); [done|].
    apply lookup_ge_None. rewrite <- Hlen. by apply lookup_ge_None.
Qed.

Lemma contents_at_same_shape heap heap' (refs : list nat) :
  Forall2 same_shape heap heap' →
  TranslationString.content <$> (ref ← refs; strings_at heap' ref)
  = TranslationString.content <$> (ref ← refs; strings_at heap ref).
Proof.
  intros Hshape. induction refs as [|ref refs IH]; csimpl; [done|].
  by rewrite !fmap_app, IH, (strings_at_same_shape heap heap').
Qed.

(** A relation between the world before and after, indexed by the contents
    that were translated in between, lifts from one string to a whole tree
    when it holds of no step at all and composes. *)
Section summary.
Variable client : Client.
Variable lang : string.
Variable S : list string → World → World → Prop.
Hypothesis S_nil : ∀ w, S [] w w.
Hypothesis S_app : ∀ l1 l2 w1 w2 w3, S l1 w1 w2 → S l2 w2 w3 → S (l1 ++ l2) w1 w3.
Hypothesis S_unit : ∀ u w u' w',
  TranslationString.translate client u lang w = Ok (u', w') →
  S [TranslationString.content u] w w'.

Lemma summary_strings us w us' w' :
  for_each (fun u => TranslationString.translate client u lang) us w = Ok (us', w') →
  S (TranslationString.content <$> us) w w'.
Proof.
  revert w us'. induction us as [|u us IH]; intros w us'; simpl.
  - intros [= <- <-]. apply S_nil.
  - unfold bind at 1.
    destruct (TranslationString.translate client u lang w) as [[u1 w1]|] eqn:Hu; [|done].
    unfold bind at 1. destruct (for_each _ us w1) as [[us1 w2]|] eqn:Hus; [|done].
    unfold ret. intros [= <- <-].
    apply (S_app [_] _ w w1 w2); [by eapply S_unit|by eapply IH].
Qed.

Lemma summary_item item w item' w' :
  TranslationItem.translate client item lang w = Ok (item', w') →
  S (TranslationString.content <$> TranslationItem.translation_strings item) w w'.
Proof.
  unfold TranslationItem.translate, bind.
  destruct (for_each _ _ w) as [[us' w1]|] eqn:Hus; [|done].
  unfold ret. intros [= <- <-]. by apply summary_strings in Hus.
Qed.

Lemma summary_items refs heap w heap' w' :
  TranslationBlock.translate_items client lang refs heap w = Ok (heap', w') →
  S (TranslationString.content <$> (ref ← refs; strings_at heap ref)) w w'.
Proof.
  revert heap w. induction refs as [|ref refs IH]; intros heap w; simpl.
  - intros [= <- <-]. apply S_nil.
  - unfold bind at 1, lift, deref.
    destruct (heap !! ref) as [item|] eqn:Href; simpl; [|done].
    unfold bind at 1.
    destruct (TranslationItem.translate client item lang w) as [[item' w1]|] eqn:Hitem; [|done].
    intros Hrest. apply IH in Hrest.
    pose proof (item_translate_shape _ _ _ _ _ _ Hitem) as [Hshape _].
    rewrite (contents_at_same_shape heap) in Hrest by (by eapply same_shape_insert).
    csimpl. rewrite fmap_app, (strings_at_Some _ _ _ Href).
    eapply S_app; [by eapply summary_item|done].
Qed.

Lemma summary_blocks blocks heap w heap' w' :
  TranslationFile.translate_blocks client lang blocks heap w = Ok (heap', w') →
  S (TranslationString.content
       <$> (b ← blocks; ref ← TranslationBlock.translation_items b; strings_at heap ref))
    w w'.
Proof.
  revert heap w. induction blocks as [|b blocks IH]; intros heap w; simpl.
  - intros [= <- <-]. apply S_nil.
  - unfold bind at 1, TranslationBlock.translate.
    destruct (TranslationBlock.translate_items _ _ _ heap w) as [[heap1 w1]|] eqn:Hb; [|done].
    intros Hrest. apply IH in Hrest.
    pose proof (translate_items_shape _ _ _ _ _ _ _ Hb) as Hshape.
    assert (Hsame : TranslationString.content
                      <$> (b' ← blocks; ref ← TranslationBlock.translation_items b';
                           strings_at heap1 ref)
                    = TranslationString.content
                      <$> (b' ← blocks; ref ← TranslationBlock.translation_items b';
                           strings_at heap ref)).
    { clear -Hshape. induction blocks as [|b' bs IHb]; csimpl; [done|].
      by rewrite !fmap_app, IHb, (contents_at_same_shape heap heap1). }
    rewrite Hsame in Hrest. csimpl. rewrite fmap_app.
    eapply S_app; [by eapply summary_items|done].
Qed.

Lemma summary_file translation_file heap w heap' w' :
  TranslationFile.translate client translation_file lang heap w = Ok (heap', w') →
  S (contents_of heap translation_file) w w'.
Proof. apply summary_blocks. Qed.
End summary.

(** ** What a translation does to the cache and to the client *)

(** X4. The cache entry written on a miss holds the new language only:
    a translation of the same content into another language, cached before,
    can no longer be served. *)
Theorem translate_miss_drops_other_languages client self lang other w t :
  PyStr.all_space (TranslationString.content self) = false →
  TranslationString.pull_from_cache self lang w = None →
  client (client_log w) (TranslationString.content self) lang = Some t →
  other ≠ lang →
  ∃ self' w',
    TranslationString.translate client self lang w = Ok (self', w')
    ∧ TRANSLATION_CACHE w' !! TranslationString.content self = Some {[ lang := t ]}
    ∧ TranslationString.pull_from_cache self other w' = None.
Proof.
  intros Hblank Hmiss Hclient Hother. eexists _, _.
  split; [by apply translate_miss|]. simpl. rewrite lookup_insert_eq. split; [done|].
  unfold TranslationString.pull_from_cache. simpl. rewrite lookup_insert_eq.
  case_bool_decide; [done|]. by rewrite lookup_singleton_ne.
Qed.

Lemma translate_miss_drops_other_languages_witness :
  let w := mkWorld {[ "Hi" := {[ "de" := "Hallo" ]} ]} [] in
  TranslationString.pull_from_cache (TranslationString.init "Hi") "de" w = Some "Hallo"
  ∧ ∃ self' w',
      TranslationString.translate Sample.client_brackets (TranslationString.init "Hi") "fr" w
      = Ok (self', w')
      ∧ TRANSLATION_CACHE w' !! "Hi" = Some {[ "fr" := "<Hi>" ]}
      ∧ TranslationString.pull_from_cache (TranslationString.init "Hi") "de" w' = None.
Proof.
  intros w. split; [reflexivity|].
  apply (translate_miss_drops_other_languages Sample.client_brackets
           (TranslationString.init "Hi") "fr" "de" w "<Hi>"); [reflexivity..|discriminate].
Defined.

(** X5. Translating a tree changes the cache at the contents of its own
    strings only: the entry of any other source string is what it was. *)
Theorem translate_keeps_other_entries client translation_file lang heap w heap' w' c :
  TranslationFile.translate client translation_file lang heap w = Ok (heap', w') →
  c ∉ contents_of heap translation_file →
  TRANSLATION_CACHE w' !! c = TRANSLATION_CACHE w !! c.
Proof.
  intros Htr. revert c.
  refine (summary_file client lang
            (fun l w w' => ∀ c, c ∉ l → TRANSLATION_CACHE w' !! c = TRANSLATION_CACHE w !! c)
            _ _ _ _ _ _ _ _ Htr); [done| |].
  - intros l1 l2 w1 w2 w3 H1 H2 c Hc. apply not_elem_of_app in Hc as [Hc1 Hc2].
    by rewrite H2, H1.
  - intros u w1 u' w2 (_ & _ & Hcases)%translate_unit_cases c Hc.
    destruct Hcases as [(_ & _ & ->)|[(_ & t & _ & _ & ->)|(_ & _ & t & _ & _ & ->)]];
      [done..|].
    simpl. apply lookup_insert_ne. intros <-. apply Hc. by left.
Qed.

(** X6. Translating a tree into a language never takes away what the
    cache could serve for that language: the same translation is served
    afterwards. *)
Theorem translate_keeps_served client translation_file lang heap w heap' w' c t :
  TranslationFile.translate client translation_file lang heap w = Ok (heap', w') →
  TranslationString.pull_from_cache (TranslationString.init c) lang w = Some t →
  TranslationString.pull_from_cache (TranslationString.init c) lang w' = Some t.
Proof.
  intros Htr. revert c t.
  refine (summary_file client lang
            (fun _ w w' => ∀ c t,
               TranslationString.pull_from_cache (TranslationString.init c) lang w = Some t →
               TranslationString.pull_from_cache (TranslationString.init c) lang w' = Some t)
            _ _ _ _ _ _ _ _ Htr); [done| |].
  - intros _ _ w1 w2 w3 H1 H2 c t Hc. by apply H2, H1.
  - intros u w1 u' w2 (_ & _ & Hcases)%translate_unit_cases c t Hc.
    destruct Hcases as [(_ & _ & ->)|[(_ & t' & _ & _ & ->)|(_ & Hmiss & t' & _ & _ & ->)]];
      [done..|].
    destruct (decide (c = TranslationString.content u)) as [->|Hne].
    + rewrite (pull_from_cache_content _ u) in Hc by done. congruence.
    + unfold TranslationString.pull_from_cache in *. simpl in *.
      by rewrite lookup_insert_ne.
Qed.

Lemma all_cached_same_world client translation_file lang heap w heap' w' :
  Forall (fun c => PyStr.all_space c = true ∨ in_cache c lang w)
         (contents_of heap translation_file) →
  TranslationFile.translate client translation_file lang heap w = Ok (heap', w') →
  w' = w.
Proof.
  intros Hall Htr. revert Hall.
  refine (summary_file client lang
            (fun l w w' => Forall (fun c => PyStr.all_space c = true ∨ in_cache c lang w) l →
                           w' = w)
            _ _ _ _ _ _ _ _ Htr); [done| |].
  - intros l1 l2 w1 w2 w3 H1 H2 [Hl1 Hl2]%Forall_app.
    specialize (H1 Hl1) as ->. by apply H2.
  - intros u w1 u' w2 (_ & _ & Hcases)%translate_unit_cases Hu.
    destruct Hcases as [(_ & _ & ->)|[(_ & t' & _ & _ & ->)|(Hb & Hmiss & _)]]; [done..|].
    apply Forall_singleton in Hu as [Hu|Hu]; [congruence|].
    apply cached_in_cache in Hu.
    destruct (proj1 (cached_iff lang w1 u) Hu) as [t Ht]. congruence.
Qed.

(** X7. When the cache can serve every string of a tree that is not
    blank, translating the tree calls the client for nothing and writes
    nothing to the cache: the world is left as it was. *)
Theorem translate_all_cached client translation_file lang heap w heap' w' :
  Forall (fun c => PyStr.all_space c = true ∨ in_cache c lang w)
         (contents_of heap translation_file) →
  TranslationFile.translate client translation_file lang heap w = Ok (heap', w') →
  w' = w.
Proof. apply all_cached_same_world. Qed.

Section nonempty_client.
Variable client : Client.
Variable lang : string.
Hypothesis client_nonempty :
  ∀ log text l t, client log text l = Some t → t ≠ EmptyString.

Lemma contents_of_same_shape heap heap' translation_file :
  Forall2 same_shape heap heap' →
  contents_of heap' translation_file = contents_of heap translation_file.
Proof.
  intros Hshape. unfold contents_of, strings_of.
  induction (TranslationFile.translation_blocks translation_file) as [|b bs IH]; csimpl; [done|].
  by rewrite !fmap_app, IH, (contents_at_same_shape heap heap').
Qed.

(** After a translation the cache can serve every content of the tree
    that is not blank. *)
Lemma translate_serves_all translation_file heap w heap' w' :
  TranslationFile.translate client translation_file lang heap w = Ok (heap', w') →
  Forall (fun c => PyStr.all_space c = true ∨ in_cache c lang w')
         (contents_of heap translation_file).
Proof.
  intros Htr.
  refine (proj2 (summary_file client lang
            (fun l w w' => grows lang w w'
                           ∧ Forall (fun c => PyStr.all_space c = true ∨ in_cache c lang w') l)
            _ _ _ _ _ _ _ _ Htr)).
  - intros w0. split; [apply grows_refl|done].
  - intros l1 l2 w1 w2 w3 [Hg1 H1] [Hg2 H2]. split; [by eapply grows_trans|].
    apply Forall_app. split; [|done].
    eapply Forall_impl; [exact H1|]. intros c [Hc|Hc]; [by left|right].
    by apply cached_in_cache, Hg2, cached_in_cache.
  - intros u w1 u' w2 Hu.
    destruct (unit_cache_step client lang client_nonempty _ _ _ _ Hu) as [Hg Hserved].
    split; [done|]. apply Forall_singleton.
    destruct (PyStr.all_space (TranslationString.content u)); [by left|right].
    by apply cached_in_cache, Hserved.
Qed.

(** X8. Translating a tree a second time, right after the first, costs
    nothing: no call to the client, no write to the cache. *)
Theorem translate_again_is_free translation_file heap w heap' w' heap'' w'' :
  TranslationFile.translate client translation_file lang heap w = Ok (heap', w') →
  TranslationFile.translate client translation_file lang heap' w' = Ok (heap'', w'') →
  w'' = w'.
Proof.
  intros Hfirst Hsecond.
  apply (all_cached_same_world client translation_file lang heap' w' heap''); [|done].
  rewrite (contents_of_same_shape heap heap') by (by eapply translate_blocks_shape).
  by eapply translate_serves_all.
Qed.

(** X9. The calls a translation makes to the client are all different;
    each one sends, for the target language, a content of the tree that is
    not blank and that the cache could not serve at the start. *)
Theorem translate_calls translation_file heap w heap' w' :
  TranslationFile.translate client translation_file lang heap w = Ok (heap', w') →
  ∃ calls,
    client_log w' = client_log w ++ calls
    ∧ NoDup calls
    ∧ Forall (fun call => call.2 = lang
                          ∧ call.1 ∈ contents_of heap translation_file
                          ∧ PyStr.all_space call.1 = false
                          ∧ ¬ in_cache call.1 lang w) calls.
Proof.
  intros Htr.
  pose (S := fun (l : list string) (w w' : World) =>
    grows lang w w'
    ∧ ∃ calls,
        client_log w' = client_log w ++ calls
        ∧ NoDup calls
        ∧ Forall (fun call => call.2 = lang ∧ call.1 ∈ l
                              ∧ PyStr.all_space call.1 = false
                              ∧ ¬ cached lang w call.1 ∧ cached lang w' call.1) calls).
  assert (HS : S (contents_of heap translation_file) w w').
  { refine (summary_file client lang S _ _ _ _ _ _ _ _ Htr).
    - intros w0. split; [apply grows_refl|]. exists []. by rewrite app_nil_r, NoDup_nil.
    - intros l1 l2 w1 w2 w3 [Hg1 (c1 & Hlog1 & Hnd1 & H1)] [Hg2 (c2 & Hlog2 & Hnd2 & H2)].
      split; [by eapply grows_trans|]. exists (c1 ++ c2).
      split; [by rewrite Hlog2, Hlog1, app_assoc|].
      rewrite Forall_forall in H1. rewrite Forall_forall in H2. split.
      + apply NoDup_app. split_and!; [done| |done].
        intros call Hc1 Hc2. destruct (H1 call Hc1) as (_ & _ & _ & _ & Hin).
        destruct (H2 call Hc2) as (_ & _ & _ & Hout & _). done.
      + apply Forall_app. split; apply Forall_forall; intros call Hc.
        * destruct (H1 call Hc) as (? & ? & ? & ? & ?).
          split_and!; [done|apply elem_of_app; by left|done..|by apply Hg2].
        * destruct (H2 call Hc) as (? & ? & ? & Hout & ?).
          split_and!; [done|apply elem_of_app; by right|done| |done].
          intros Hin. by apply Hout, Hg1.
    - intros u w1 u' w2 Hu.
      destruct (unit_cache_step client lang client_nonempty _ _ _ _ Hu) as [Hg Hserved].
      split; [done|].
      apply translate_unit_cases in Hu as (_ & _ & Hcases).
      destruct Hcases as [(_ & _ & ->)|[(_ & t' & _ & _ & ->)|(Hb & Hmiss & t & _ & _ & ->)]].
      + exists []. by rewrite app_nil_r, NoDup_nil.
      + exists []. by rewrite app_nil_r, NoDup_nil.
      + exists [(TranslationString.content u, lang)]. simpl.
        split; [done|]. split; [apply NoDup_singleton|].
        apply Forall_singleton. simpl. split_and!; [done|by left|done| |by apply Hserved].
        intros Hc. destruct (proj1 (cached_iff lang w1 u) Hc) as [t' Ht']. congruence. }
  destruct HS as [_ (calls & Hlog & Hnd & Hall)]. exists calls. split_and!; [done..|].
  eapply Forall_impl; [exact Hall|]. intros call (? & ? & ? & Hout & _).
  split_and!; [done..|]. intros Hin. by apply Hout, cached_in_cache.
Qed.
End nonempty_client.

Lemma client_brackets_nonempty log text l t :
  Sample.client_brackets log text l = Some t → t ≠ EmptyString.
Proof. by intros [= <-]. Qed.

Lemma translate_keeps_other_entries_witness :
  let w := mkWorld {[ "Bye" := {[ "fr" := "Salut" ]} ]} [] in
  let w' := mkWorld (<[ "Hello world" := {[ "fr" := "<Hello world>" ]} ]>
                       {[ "Bye" := {[ "fr" := "Salut" ]} ]}) [("Hello world", "fr")] in
  TranslationFile.translate Sample.client_brackets Sample.hello_tree "fr" Sample.hello_heap w
  = Ok (Sample.hello_heap_fr, w')
  ∧ ("Bye" ∉ contents_of Sample.hello_heap Sample.hello_tree)
  ∧ TRANSLATION_CACHE w' !! "Bye" = TRANSLATION_CACHE w !! "Bye".
Proof.
  intros w w'.
  assert (Htr : TranslationFile.translate Sample.client_brackets Sample.hello_tree "fr" Sample.hello_heap w
                = Ok (Sample.hello_heap_fr, w')) by (vm_compute; reflexivity).
  assert (Hnot : "Bye" ∉ contents_of Sample.hello_heap Sample.hello_tree).
  { apply (bool_decide_unpack _). vm_compute. exact I. }
  split; [exact Htr|]. split; [exact Hnot|].
  exact (translate_keeps_other_entries Sample.client_brackets Sample.hello_tree "fr" Sample.hello_heap
           w Sample.hello_heap_fr w' "Bye" Htr Hnot).
Defined.

Lemma translate_keeps_served_witness :
  let w := mkWorld {[ "Bye" := {[ "fr" := "Salut" ]} ]} [] in
  let w' := mkWorld (<[ "Hello world" := {[ "fr" := "<Hello world>" ]} ]>
                       {[ "Bye" := {[ "fr" := "Salut" ]} ]}) [("Hello world", "fr")] in
  TranslationFile.translate Sample.client_brackets Sample.hello_tree "fr" Sample.hello_heap w
  = Ok (Sample.hello_heap_fr, w')
  ∧ TranslationString.pull_from_cache (TranslationString.init "Bye") "fr" w = Some "Salut"
  ∧ TranslationString.pull_from_cache (TranslationString.init "Bye") "fr" w' = Some "Salut".
Proof.
  intros w w'.
  assert (Htr : TranslationFile.translate Sample.client_brackets Sample.hello_tree "fr" Sample.hello_heap w
                = Ok (Sample.hello_heap_fr, w')) by (vm_compute; reflexivity).
  split; [exact Htr|]. split; [reflexivity|].
  exact (translate_keeps_served Sample.client_brackets Sample.hello_tree "fr" Sample.hello_heap
           w Sample.hello_heap_fr w' "Bye" "Salut" Htr eq_refl).
Defined.

Lemma translate_all_cached_witness :
  let w := mkWorld Sample.hello_cache_fr [] in
  Forall (fun c => PyStr.all_space c = true ∨ in_cache c "fr" w)
         (contents_of Sample.hello_heap Sample.hello_tree)
  ∧ TranslationFile.translate Sample.client_brackets Sample.hello_tree "fr" Sample.hello_heap w
    = Ok (Sample.hello_heap_fr, w)
  ∧ w = w.
Proof.
  intros w.
  assert (Hall : Forall (fun c => PyStr.all_space c = true ∨ in_cache c "fr" w)
                        (contents_of Sample.hello_heap Sample.hello_tree)).
  { change (contents_of Sample.hello_heap Sample.hello_tree) with ["Hello world"].
    apply Forall_singleton. right. exists {[ "fr" := "<Hello world>" ]}, "<Hello world>".
    split_and!; [reflexivity..|discriminate]. }
  assert (Htr : TranslationFile.translate Sample.client_brackets Sample.hello_tree "fr" Sample.hello_heap w
                = Ok (Sample.hello_heap_fr, w)) by (vm_compute; reflexivity).
  split; [exact Hall|]. split; [exact Htr|].
  exact (translate_all_cached Sample.client_brackets Sample.hello_tree "fr" Sample.hello_heap w
           Sample.hello_heap_fr w Hall Htr).
Defined.

Lemma translate_again_is_free_witness :
  let w' := mkWorld Sample.hello_cache_fr [("Hello world", "fr")] in
  TranslationFile.translate Sample.client_brackets Sample.hello_tree "fr" Sample.hello_heap (mkWorld ∅ [])
  = Ok (Sample.hello_heap_fr, w')
  ∧ TranslationFile.translate Sample.client_brackets Sample.hello_tree "fr" Sample.hello_heap_fr w'
    = Ok (Sample.hello_heap_fr, w')
  ∧ w' = w'.
Proof.
  intros w'.
  assert (H1 : TranslationFile.translate Sample.client_brackets Sample.hello_tree "fr" Sample.hello_heap
                 (mkWorld ∅ []) = Ok (Sample.hello_heap_fr, w')) by (vm_compute; reflexivity).
  assert (H2 : TranslationFile.translate Sample.client_brackets Sample.hello_tree "fr" Sample.hello_heap_fr
                 w' = Ok (Sample.hello_heap_fr, w')) by (vm_compute; reflexivity).
  split; [exact H1|]. split; [exact H2|].
  exact (translate_again_is_free Sample.client_brackets "fr" client_brackets_nonempty
           Sample.hello_tree Sample.hello_heap (mkWorld ∅ []) Sample.hello_heap_fr w' Sample.hello_heap_fr w' H1 H2).
Defined.

Lemma translate_calls_witness :
  let w' := mkWorld Sample.hello_cache_fr [("Hello world", "fr")] in
  TranslationFile.translate Sample.client_brackets Sample.hello_tree "fr" Sample.hello_heap (mkWorld ∅ [])
  = Ok (Sample.hello_heap_fr, w')
  ∧ ∃ calls,
      client_log w' = client_log (mkWorld ∅ []) ++ calls
      ∧ NoDup calls
      ∧ Forall (fun call => call.2 = "fr"
                            ∧ call.1 ∈ contents_of Sample.hello_heap Sample.hello_tree
                            ∧ PyStr.all_space call.1 = false
                            ∧ ¬ in_cache call.1 "fr" (mkWorld ∅ [])) calls.
Proof.
  intros w'.
  assert (H1 : TranslationFile.translate Sample.client_brackets Sample.hello_tree "fr" Sample.hello_heap
                 (mkWorld ∅ []) = Ok (Sample.hello_heap_fr, w')) by (vm_compute; reflexivity).
  split; [exact H1|].
  exact (translate_calls Sample.client_brackets "fr" client_brackets_nonempty
           Sample.hello_tree Sample.hello_heap (mkWorld ∅ []) Sample.hello_heap_fr w' H1).
Defined.

(** ** The steps of the parse loop *)

(** The five ways a step can go through. *)
Lemma parse_line_cases file text_lines j line st st' :
  parse_line file text_lines j line st = Ok st' →
  (block st ≠ Some j ∧ is_header line = true
   ∧ st' = {| translation_file :=
                match translation_block st with
                | Some b => TranslationFile.add_translation_block (translation_file st) b
                | None => translation_file st
                end;
              translation_block := Some (TranslationBlock.init file j);
              translation_item := translation_item st;
              block := Some j;
              heap := heap st |})
  ∨ ∃ prev,
      getitem text_lines (Z.of_nat j - 1) = Ok prev
      ∧ (block st = Some j ∨ is_header line = false)
      ∧ ((old_after_comment prev line = true
          ∧ ∃ content,
              quoted_content (PyStr.strip line) = Ok content
              ∧ st' = {| translation_file := translation_file st;
                         translation_block := translation_block st;
                         translation_item := Some (length (heap st));
                         block := block st;
                         heap := heap st ++ [TranslationItem.init j 0 content] |})
         ∨ (old_after_comment prev line = false ∧ new_after_old prev line = true
            ∧ ∃ ref current,
                translation_item st = Some ref ∧ translation_block st = Some current
                ∧ st' = {| translation_file := translation_file st;
                           translation_block :=
                             Some (TranslationBlock.add_translation_item current ref);
                           translation_item := translation_item st;
                           block := block st;
                           heap := alter (TranslationItem.set_target_line j) ref (heap st) |})
         ∨ (old_after_comment prev line = false ∧ new_after_old prev line = false
            ∧ after_commented_original prev line = true
            ∧ ∃ content current,
                quoted_content (PyStr.slice_from 2 (PyStr.strip prev)) = Ok content
                ∧ translation_block st = Some current
                ∧ st' = {| translation_file := translation_file st;
                           translation_block :=
                             Some (TranslationBlock.add_translation_item current
                                     (length (heap st)));
                           translation_item := Some (length (heap st));
                           block := block st;
                           heap := heap st
                                   ++ [if PyStr.startswith "nvl clear" (PyStr.strip line)
                                       then TranslationItem.init j (j + 1) content
                                       else TranslationItem.init j j content] |})
         ∨ (old_after_comment prev line = false ∧ new_after_old prev line = false
            ∧ after_commented_original prev line = false ∧ st' = st)).
Proof.
  unfold parse_line. fold (is_header line).
  destruct (negb (bool_decide (block st = Some j)) && is_header line) eqn:Hheader.
  - intros [= <-]. left. apply andb_true_iff in Hheader as [Hb ->].
    apply negb_true_iff, bool_decide_eq_false in Hb. done.
  - intros Hstep. right.
    destruct (getitem text_lines (Z.of_nat j - 1)) as [prev|] eqn:Hprev;
      cbn [rbind or_raise] in Hstep; [|done].
    exists prev. split; [done|]. split.
    { apply andb_false_iff in Hheader as [Hb|Hh]; [left|by right].
      by apply negb_false_iff, bool_decide_eq_true in Hb. }
    fold (old_after_comment prev line) in Hstep. fold (new_after_old prev line) in Hstep.
    fold (after_commented_original prev line) in Hstep.
    destruct (old_after_comment prev line).
    { left. split; [done|].
      destruct (quoted_content _) as [content|]; cbn [rbind or_raise] in Hstep; [|done].
      injection Hstep as <-. by exists content. }
    right. destruct (new_after_old prev line).
    { left. split_and!; [done..|].
      destruct (translation_item st) as [ref|]; cbn [rbind or_raise] in Hstep; [|done].
      destruct (translation_block st) as [current|]; cbn [rbind or_raise] in Hstep; [|done].
      injection Hstep as <-. by exists ref, current. }
    right. destruct (after_commented_original prev line).
    { left. split_and!; [done..|].
      destruct (quoted_content _) as [content|]; cbn [rbind or_raise] in Hstep; [|done].
      destruct (translation_block st) as [current|]; cbn [rbind or_raise] in Hstep; [|done].
      injection Hstep as <-. by exists content, current. }
    right. injection Hstep as <-. done.
Qed.

(** A property of the state that every step keeps holds at the end. *)
Lemma parse_loop_invariant file text_lines (I : nat → ParseState → Prop) :
  (∀ j line st st',
     text_lines !! j = Some line → I j st →
     parse_line file text_lines j line st = Ok st' → I (S j) st') →
  ∀ rest j st st',
    j ≤ length text_lines →
    drop j text_lines = rest → I j st →
    parse_loop file text_lines j rest st = Ok st' →
    I (length text_lines) st'.
Proof.
  intros Hstep rest. induction rest as [|line rest IH]; intros j st st' Hj Hdrop HI; simpl.
  - intros [= <-]. apply (f_equal length) in Hdrop. rewrite length_drop in Hdrop.
    simpl in Hdrop. by replace (length text_lines) with j by lia.
  - assert (Hline : text_lines !! j = Some line).
    { rewrite <- (Nat.add_0_r j), <- lookup_drop, Hdrop. done. }
    destruct (parse_line file text_lines j line st) as [st1|] eqn:Hstep1; simpl; [|done].
    intros Hrest. apply (IH (S j) st1); [| | |done].
    + by apply lookup_lt_Some in Hline.
    + replace (S j) with (j + 1) by lia. by rewrite <- drop_drop, Hdrop.
    + by eapply Hstep.
Qed.

(** The same, for a whole file. *)
Lemma parse_file_invariant file text_lines (I : nat → ParseState → Prop) st :
  (∀ j line st st',
     text_lines !! j = Some line → I j st →
     parse_line file text_lines j line st = Ok st' → I (S j) st') →
  I 0 (parse_start file) →
  parse_loop file text_lines 0 text_lines (parse_start file) = Ok st →
  I (length text_lines) st.
Proof.
  intros Hstep H0 Hloop.
  by apply (parse_loop_invariant file text_lines I Hstep text_lines 0 (parse_start file) st);
    [lia|..].
Qed.

(** ** What every parsed tree satisfies *)



Lemma init_source_line a b c :
  TranslationItem.source_line (TranslationItem.init a b c) = a.
Proof. reflexivity. Qed.

Lemma init_target_line a b c :
  TranslationItem.target_line (TranslationItem.init a b c) = b.
Proof. reflexivity. Qed.

Lemma well_placed_mono heap heap' bound bound' ref :
  (∀ item, heap !! ref = Some item → heap' !! ref = Some item) →
  bound ≤ bound' → well_placed heap bound ref → well_placed heap' bound' ref.
Proof.
  intros Hheap Hb (item & Hitem & Hle & Hbound). exists item. split_and!; [auto|done|lia].
Qed.

Lemma opened_blocks_mono (P P' : nat → Prop) st st' :
  (∀ ref, P ref → P' ref) →
  opened_blocks st' = opened_blocks st →
  Forall (fun b => Forall P (TranslationBlock.translation_items b)) (opened_blocks st) →
  Forall (fun b => Forall P' (TranslationBlock.translation_items b)) (opened_blocks st').
Proof.
  intros HP -> H. eapply Forall_impl; [exact H|].
  intros b Hb. eapply Forall_impl; [exact Hb|done].
Qed.

Lemma parse_wf_step file text_lines j line st st' :
  text_lines !! j = Some line → parse_wf j st →
  parse_line file text_lines j line st = Ok st' → parse_wf (S j) st'.
Proof.
  intros _ (Hpending & Hheap & Hblocks) Hstep.
  assert (Hheap' : Forall (fun item => TranslationItem.source_line item < S j) (heap st)).
  { eapply Forall_impl; [exact Hheap|]. intros item ?. simpl in *. lia. }
  apply parse_line_cases in Hstep
    as [(_ & _ & ->)|(prev & _ & _ & [(_ & content & _ & ->)|[(_ & _ & ref & cur & Hp & Hc & ->)
        |[(_ & _ & _ & content & cur & _ & Hc & ->)|(_ & _ & _ & ->)]]])].
  - (* header *)
    split_and!; [done..|]. unfold opened_blocks in *. simpl.
    apply Forall_app. split; [|by repeat constructor].
    assert (TranslationFile.translation_blocks
              match translation_block st with
              | Some b => TranslationFile.add_translation_block (translation_file st) b
              | None => translation_file st
              end
            = TranslationFile.translation_blocks (translation_file st)
              ++ option_list (translation_block st)) as ->.
    { destruct (translation_block st); simpl; [done|by rewrite app_nil_r]. }
    eapply Forall_impl; [exact Hblocks|]. intros b Hb.
    eapply Forall_impl; [exact Hb|]. intros r Hr.
    eapply well_placed_mono; [|..|exact Hr]; [done|lia].
  - (* old *)
    split_and!; simpl.
    + intros ref [= <-]. rewrite length_app. simpl. lia.
    + apply Forall_app. split; [done|]. apply Forall_singleton.
      rewrite init_source_line. lia.
    + eapply (opened_blocks_mono _ _ st); [|done|exact Hblocks].
      intros r Hr. eapply well_placed_mono; [|..|exact Hr]; [|lia].
      intros item Hitem. by apply lookup_app_l_Some.
  - (* new *)
    specialize (Hpending ref Hp).
    destruct (lookup_lt_is_Some_2 _ _ Hpending) as [pending Hpend].
    assert (Hsrc : TranslationItem.source_line pending < j).
    { rewrite Forall_forall in Hheap. apply Hheap. by eapply list_elem_of_lookup_2. }
    assert (Hkeep : ∀ r, well_placed (heap st) j r →
              well_placed (alter (TranslationItem.set_target_line j) ref (heap st)) (S j) r).
    { intros r (item & Hitem & Hle & Hbound).
      destruct (decide (r = ref)) as [->|Hne].
      - simplify_eq. eexists. rewrite list_lookup_alter_eq, Hpend. simpl.
        split_and!; [done|simpl; lia|simpl; lia].
      - exists item. rewrite list_lookup_alter_ne by done. split_and!; [done|done|lia]. }
    split_and!; simpl.
    + intros r Hr. rewrite length_alter. by simplify_eq.
    + apply Forall_forall. intros item Hitem.
      apply list_elem_of_lookup in Hitem as [i Hi].
      destruct (decide (i = ref)) as [->|Hne].
      * rewrite list_lookup_alter_eq, Hpend in Hi. simpl in Hi. injection Hi as <-. simpl. lia.
      * rewrite list_lookup_alter_ne in Hi by done.
        rewrite Forall_forall in Hheap'. apply Hheap'. by eapply list_elem_of_lookup_2.
    + unfold opened_blocks in *. simpl in *. rewrite Hc in Hblocks. simpl in Hblocks.
      apply Forall_app in Hblocks as [Hfile Hcur]. rewrite Forall_singleton in Hcur.
      apply Forall_app. split.
      * eapply Forall_impl; [exact Hfile|]. intros b Hb.
        eapply Forall_impl; [exact Hb|]. done.
      * apply Forall_singleton. simpl. apply Forall_app. split.
        -- eapply Forall_impl; [exact Hcur|]. done.
        -- apply Forall_singleton. eexists. rewrite list_lookup_alter_eq, Hpend. simpl.
           split_and!; [done|simpl; lia|simpl; lia].
  - (* commented original *)
    assert (Hkeep : ∀ r item', well_placed (heap st) j r →
                               well_placed (heap st ++ [item']) (S j) r).
    { intros r item' Hr. eapply well_placed_mono; [|..|exact Hr]; [|lia].
      intros item Hitem. by apply lookup_app_l_Some. }
    generalize (PyStr.startswith "nvl clear" (PyStr.strip line)). intros nvl.
    split_and!; simpl.
    + intros ref [= <-]. rewrite length_app. simpl. lia.
    + apply Forall_app. split; [done|]. apply Forall_singleton.
      destruct nvl;
        rewrite ?init_source_line, ?init_target_line; lia.
    + unfold opened_blocks in *. simpl in *. rewrite Hc in Hblocks. simpl in Hblocks.
      apply Forall_app in Hblocks as [Hfile Hcur]. rewrite Forall_singleton in Hcur.
      apply Forall_app. split.
      * eapply Forall_impl; [exact Hfile|]. intros b Hb.
        eapply Forall_impl; [exact Hb|]. intros r. apply Hkeep.
      * apply Forall_singleton. simpl. apply Forall_app. split.
        -- eapply Forall_impl; [exact Hcur|]. intros r. apply Hkeep.
        -- apply Forall_singleton. eexists.
           rewrite lookup_app_r, Nat.sub_diag by done. split; [done|].
           destruct nvl; rewrite ?init_source_line, ?init_target_line; lia.
  - (* nothing *)
    split_and!; [done..|].
    eapply Forall_impl; [exact Hblocks|]. intros b Hb.
    eapply Forall_impl; [exact Hb|]. intros r Hr.
    eapply well_placed_mono; [|..|exact Hr]; [done|lia].
Qed.

Lemma parse_file_opened file text_lines parsed heap0 :
  parse_file file text_lines = Ok (parsed, heap0) →
  ∃ st,
    parse_loop file text_lines 0 text_lines (parse_start file) = Ok st
    ∧ heap0 = heap st
    ∧ TranslationFile.translation_blocks parsed = opened_blocks st
    ∧ TranslationFile.filename parsed
      = TranslationFile.filename (translation_file st).
Proof.
  unfold parse_file. fold (parse_start file).
  destruct (parse_loop _ _ _ _ _) as [st|]; cbn [rbind]; [|done].
  intros [= <- <-]. exists st. split_and!; [done..| |].
  - unfold opened_blocks. destruct (translation_block st); simpl; [done|by rewrite app_nil_r].
  - by destruct (translation_block st).
Qed.

(** X10. In a parsed tree every reference held by a block leads to an
    item of the heap; the item's source line is a line of the file, its
    target line is not before its source line and at most one past the last
    line. *)
Theorem parse_file_well_formed file text_lines translation_file heap :
  parse_file file text_lines = Ok (translation_file, heap) →
  Forall (fun b =>
            Forall (fun ref =>
                      ∃ item,
                        heap !! ref = Some item
                        ∧ TranslationItem.source_line item < length text_lines
                        ∧ TranslationItem.source_line item ≤ TranslationItem.target_line item
                        ∧ TranslationItem.target_line item ≤ length text_lines)
                   (TranslationBlock.translation_items b))
         (TranslationFile.translation_blocks translation_file).
Proof.
  intros (st & Hloop & -> & -> & _)%parse_file_opened.
  apply (parse_file_invariant file text_lines parse_wf) in Hloop
    as (_ & Hheap & Hblocks); [|apply parse_wf_step|].
  - eapply Forall_impl; [exact Hblocks|]. intros b Hb.
    eapply Forall_impl; [exact Hb|]. intros r (item & Hitem & Hle & Hbound).
    exists item. split_and!; [done| |done..].
    rewrite Forall_forall in Hheap. apply Hheap. by eapply list_elem_of_lookup_2.
  - split_and!; [done|constructor|]. unfold opened_blocks. simpl. constructor.
Qed.

Lemma parse_file_well_formed_witness :
  Forall (fun b =>
            Forall (fun ref =>
                      ∃ item,
                        Sample.hello_heap !! ref = Some item
                        ∧ TranslationItem.source_line item < length Sample.hello_file
                        ∧ TranslationItem.source_line item ≤ TranslationItem.target_line item
                        ∧ TranslationItem.target_line item ≤ length Sample.hello_file)
                   (TranslationBlock.translation_items b))
         (TranslationFile.translation_blocks Sample.hello_tree).
Proof.
  apply (parse_file_well_formed "tl/script.rpy" Sample.hello_file Sample.hello_tree
           Sample.hello_heap).
  vm_compute. reflexivity.
Defined.


(** ** What a match of the matcher went through *)

(** A successful run of the matcher got its result from the continuation,
    called on a later part of the input. *)
Lemma go_suffix {A : Type} r :
  ∀ s (caps : Re.captures) (k : string → Re.captures → option A) x,
    Re.go r s caps k = Some x →
    ∃ pre s' caps', s = pre +:+ s' ∧ k s' caps' = Some x.
Proof.
  induction r as [|c|p|r1 IH1 r2 IH2|r1 IH1 r2 IH2|r1 IH1|n r1 IH1]; intros s caps k x.
  - rewrite go_eps. by exists EmptyString, s, caps.
  - rewrite go_chr. destruct s as [|d s]; [done|]. destruct (Ascii.eqb c d); [|done].
    by exists (String d EmptyString), s, caps.
  - rewrite go_cls. destruct s as [|d s]; [done|]. destruct (p d); [|done].
    by exists (String d EmptyString), s, caps.
  - rewrite go_seq. intros (pre1 & s1 & caps1 & -> & H)%IH1.
    apply IH2 in H as (pre2 & s2 & caps2 & -> & H).
    exists (pre1 +:+ pre2), s2, caps2. by rewrite string_app_assoc.
  - rewrite go_alt. destruct (Re.go r1 s caps k) as [y|] eqn:H1.
    + intros [= ->]. by apply IH1 in H1.
    + apply IH2.
  - cbn [Re.go]. generalize (String.length s). intros n. revert s caps.
    induction n as [|n IHn]; intros s caps; [by exists EmptyString, s, caps|].
    destruct (Re.go r1 s caps _) as [y|] eqn:H1.
    + intros [= ->]. apply IH1 in H1 as (pre1 & s1 & caps1 & -> & H1).
      destruct (String.length s1 <? String.length (pre1 +:+ s1)); [|done].
      apply IHn in H1 as (pre2 & s2 & caps2 & -> & H1).
      exists (pre1 +:+ pre2), s2, caps2. by rewrite string_app_assoc.
    + by exists EmptyString, s, caps.
  - rewrite go_group. intros (pre & s1 & caps1 & -> & H)%IH1. eauto.
Qed.

(** Where the quoted pattern matches, the text has a double quote and the
    third group took part. *)
Lemma re_match_quoted_Some s m :
  Re.re_match RE_QUOTED s = Some m →
  PyStr.occurs PyStr.dquote s = true ∧ is_Some (m !! 3).
Proof.
  unfold Re.re_match, RE_QUOTED. intros H.
  rewrite go_seq in H. apply go_suffix in H as (pre1 & s1 & caps1 & -> & H).
  rewrite go_seq in H. apply go_suffix in H as (pre2 & s2 & caps2 & -> & H).
  rewrite go_seq in H. apply go_suffix in H as (pre3 & s3 & caps3 & -> & H).
  rewrite go_seq, go_chr in H. destruct s3 as [|d s3]; [done|].
  destruct (Ascii.eqb_spec PyStr.dquote d) as [<-|]; [|done]. split.
  - rewrite <- !string_app_assoc.
    induction ((pre1 +:+ pre2) +:+ pre3) as [|c pre IH].
    + rewrite string_app_nil. cbn [PyStr.occurs]. by rewrite Ascii.eqb_refl.
    + rewrite string_app_cons. cbn [PyStr.occurs]. by rewrite IH, orb_true_r.
  - rewrite go_seq, go_group in H.
    apply go_suffix in H as (pre5 & s5 & caps5 & _ & H).
    rewrite go_chr in H. destruct s5 as [|d s5]; [done|].
    destruct (Ascii.eqb _ d); [|done]. injection H as <-.
    rewrite lookup_insert_eq. eauto.
Qed.

(** On a text without double quote the extraction raises [AttributeError]. *)
Lemma quoted_content_no_quote s :
  PyStr.occurs PyStr.dquote s = false → quoted_content s = Raise AttributeError.
Proof.
  intros Hs. unfold quoted_content.
  destruct (Re.re_match RE_QUOTED s) as [m|] eqn:Hm; [|done].
  apply re_match_quoted_Some in Hm as [Hq _]. congruence.
Qed.

(** The extraction raises nothing but [AttributeError]. *)
Lemma quoted_content_error s e : quoted_content s = Raise e → e = AttributeError.
Proof.
  unfold quoted_content.
  destruct (Re.re_match RE_QUOTED s) as [m|] eqn:Hm; cbn [rbind or_raise]; [|congruence].
  destruct (re_match_quoted_Some s m Hm) as [_ [c ->]]. done.
Qed.

(** ** Blocks and header lines *)

Lemma header_lines_from_app j l1 l2 :
  header_lines_from j (l1 ++ l2)
  = header_lines_from j l1 ++ header_lines_from (j + length l1) l2.
Proof.
  revert j. induction l1 as [|line l1 IH]; intros j; simpl.
  - by rewrite Nat.add_0_r.
  - rewrite IH. replace (S j + length l1) with (j + S (length l1)) by lia.
    by destruct (is_header line).
Qed.

Lemma header_lines_from_take_S text_lines j line :
  text_lines !! j = Some line →
  header_lines_from 0 (take (S j) text_lines)
  = header_lines_from 0 (take j text_lines) ++ (if is_header line then [j] else []).
Proof.
  intros Hline. rewrite (take_S_r _ _ _ Hline), header_lines_from_app.
  rewrite length_take_le by (apply lookup_lt_Some in Hline; lia).
  simpl. by destruct (is_header line).
Qed.

(** The loop's state after [j] lines, as far as blocks go: the last header
    line seen is an earlier line, and the blocks opened so far are those of
    the header lines among the first [j] lines. *)
Lemma parse_blocks_step file text_lines j line st st' :
  text_lines !! j = Some line →
  (∀ b, block st = Some b → b < j)
  ∧ TranslationBlock.block_line <$> opened_blocks st = header_lines_from 0 (take j text_lines)
  ∧ Forall (fun b => TranslationBlock.source_file b = file) (opened_blocks st)
  ∧ TranslationFile.filename (translation_file st) = file →
  parse_line file text_lines j line st = Ok st' →
  (∀ b, block st' = Some b → b < S j)
  ∧ TranslationBlock.block_line <$> opened_blocks st' = header_lines_from 0 (take (S j) text_lines)
  ∧ Forall (fun b => TranslationBlock.source_file b = file) (opened_blocks st')
  ∧ TranslationFile.filename (translation_file st') = file.
Proof.
  intros Hline (Hblock & Hlines & Hfiles & Hname) Hstep.
  rewrite (header_lines_from_take_S _ _ _ Hline).
  assert (Hblock' : ∀ b, block st = Some b → b < S j).
  { intros b Hb. specialize (Hblock b Hb). lia. }
  unfold opened_blocks in *.
  apply parse_line_cases in Hstep
    as [(_ & -> & ->)|(prev & _ & [Hb|Hh] & Hstep)].
  - simpl. split_and!.
    + intros b [= <-]. lia.
    + rewrite fmap_app. simpl. f_equal. rewrite <- Hlines.
      destruct (translation_block st); simpl; [done|by rewrite app_nil_r].
    + apply Forall_app. split; [|by repeat constructor].
      destruct (translation_block st); simpl in *; [done|by rewrite app_nil_r in Hfiles].
    + by destruct (translation_block st).
  - apply Hblock in Hb. lia.
  - rewrite Hh, app_nil_r.
    destruct Hstep as [(_ & content & _ & ->)|[(_ & _ & ref & cur & _ & Hc & ->)
        |[(_ & _ & _ & content & cur & _ & Hc & ->)|(_ & _ & _ & ->)]]]; simpl;
      [done| | |done].
    + rewrite Hc in Hlines, Hfiles. simpl in *. split_and!; [done| | |done].
      * by rewrite fmap_app in Hlines |- *.
      * rewrite Forall_app, Forall_singleton in Hfiles |- *. done.
    + rewrite Hc in Hlines, Hfiles. simpl in *. split_and!; [done| | |done].
      * by rewrite fmap_app in Hlines |- *.
      * rewrite Forall_app, Forall_singleton in Hfiles |- *. done.
Qed.

(** X11. The blocks of a parsed tree are those of the header lines: one
    block per line that the header pattern matches, in the order of the
    lines, each with the line's index and the file's name.  So the test
    that compares the line index with the last header line never keeps a
    header line from opening a block. *)
Theorem parse_file_blocks file text_lines parsed heap :
  parse_file file text_lines = Ok (parsed, heap) →
  TranslationFile.filename parsed = file
  ∧ TranslationBlock.block_line <$> TranslationFile.translation_blocks parsed
    = header_lines_from 0 text_lines
  ∧ Forall (fun b => TranslationBlock.source_file b = file)
           (TranslationFile.translation_blocks parsed).
Proof.
  intros (st & Hloop & _ & -> & ->)%parse_file_opened.
  apply (parse_file_invariant file text_lines
           (fun j st =>
              (∀ b, block st = Some b → b < j)
              ∧ TranslationBlock.block_line <$> opened_blocks st
                = header_lines_from 0 (take j text_lines)
              ∧ Forall (fun b => TranslationBlock.source_file b = file) (opened_blocks st)
              ∧ TranslationFile.filename (translation_file st) = file))
    in Hloop as (_ & Hlines & Hfiles & Hname).
  - by rewrite firstn_all in Hlines.
  - apply parse_blocks_step.
  - split_and!; [done|by rewrite take_0|constructor|done].
Qed.

Lemma parse_file_blocks_witness :
  TranslationFile.filename Sample.hello_tree = "tl/script.rpy"
  ∧ TranslationBlock.block_line <$> TranslationFile.translation_blocks Sample.hello_tree
    = header_lines_from 0 Sample.hello_file
  ∧ Forall (fun b => TranslationBlock.source_file b = "tl/script.rpy")
           (TranslationFile.translation_blocks Sample.hello_tree).
Proof.
  apply (parse_file_blocks "tl/script.rpy" Sample.hello_file Sample.hello_tree
           Sample.hello_heap).
  vm_compute. reflexivity.
Defined.

(** ** What the loop can raise *)

Lemma getitem_minus_one {A} (l : list A) :
  getitem l (Z.of_nat 0 - 1) = or_raise IndexError (last l).
Proof.
  unfold getitem. destruct l as [|x l]; [done|].
  rewrite last_lookup. set (n := length (x :: l)).
  assert (1 ≤ n) by (subst n; simpl; lia).
  destruct (Z.ltb_spec (Z.of_nat 0 - 1) 0) as [_|?]; [|lia].
  destruct (Z.leb_spec 0 (Z.of_nat n + (Z.of_nat 0 - 1))) as [_|?]; [|lia].
  f_equal. f_equal. lia.
Qed.

(** Reading the line before a line of the file never fails. *)
Lemma getitem_prev_is_Ok {A} (l : list A) j x :
  l !! j = Some x → ∃ prev, getitem l (Z.of_nat j - 1) = Ok prev.
Proof.
  intros Hx. destruct j as [|j].
  - rewrite getitem_minus_one. destruct l as [|y l]; [done|].
    destruct (last (y :: l)) eqn:Hlast; [by eexists|].
    by apply last_None in Hlast.
  - rewrite getitem_pred.
    destruct (lookup_lt_is_Some_2 l j) as [prev ->]; [|by eexists].
    apply lookup_lt_Some in Hx. lia.
Qed.

Lemma parse_line_error file text_lines j line st e :
  text_lines !! j = Some line →
  parse_line file text_lines j line st = Raise e → e = AttributeError.
Proof.
  intros Hline. unfold parse_line.
  destruct (negb _ && _); [done|].
  destruct (getitem_prev_is_Ok _ _ _ Hline) as [prev ->]. cbn [rbind or_raise].
  destruct (_ && _).
  { destruct (quoted_content _) as [content|e'] eqn:Hc; cbn [rbind or_raise]; [done|].
    apply quoted_content_error in Hc as ->. congruence. }
  destruct (_ && _).
  { destruct (translation_item st); cbn [rbind or_raise]; [|congruence].
    destruct (translation_block st); cbn [rbind or_raise]; [done|congruence]. }
  destruct (_ && _); [|done].
  destruct (quoted_content _) as [content|e'] eqn:Hc; cbn [rbind or_raise].
  - destruct (translation_block st); cbn [rbind or_raise]; [done|congruence].
  - apply quoted_content_error in Hc as ->. congruence.
Qed.

Lemma parse_loop_error file text_lines e :
  ∀ rest j st,
    drop j text_lines = rest →
    parse_loop file text_lines j rest st = Raise e → e = AttributeError.
Proof.
  induction rest as [|line rest IH]; intros j st Hdrop; simpl; [done|].
  assert (Hline : text_lines !! j = Some line).
  { rewrite <- (Nat.add_0_r j), <- lookup_drop, Hdrop. done. }
  destruct (parse_line file text_lines j line st) as [st1|e'] eqn:Hstep; simpl.
  - apply IH. replace (S j) with (j + 1) by lia. by rewrite <- drop_drop, Hdrop.
  - intros [= <-]. by eapply parse_line_error.
Qed.

(** Parsing raises nothing but [AttributeError]. *)
Lemma parse_file_raises file text_lines e :
  parse_file file text_lines = Raise e → e = AttributeError.
Proof.
  unfold parse_file.
  destruct (parse_loop _ _ _ _ _) as [st|e'] eqn:Hloop; cbn [rbind]; [done|].
  intros [= <-]. by eapply (parse_loop_error file text_lines e' text_lines 0).
Qed.

(** X12. Whatever the file, parsing raises nothing but [AttributeError]:
    reading the previous line never leaves the list, not even at the first
    line, and a match of the quoted pattern always has its third group. *)
Theorem parse_file_error file text_lines e :
  parse_file file text_lines = Raise e → e = AttributeError.
Proof. apply parse_file_raises. Qed.

Lemma parse_file_error_witness :
  parse_file "tl/script.rpy" [Sample.ln "# TODO"] = Raise AttributeError.
Proof.
  assert (H : ∃ e, parse_file "tl/script.rpy" [Sample.ln "# TODO"] = Raise e)
    by (eexists; vm_compute; reflexivity).
  destruct H as [e H]. by rewrite H, (parse_file_error _ _ e H).
Defined.

(** X13. At the first line the loop takes the last line of the file for
    the previous one.  When the first line is no header and, read after the
    last line, falls under the branch of the [new] lines or under that of
    the commented originals, parsing raises [AttributeError]: no block is
    open yet. *)
Theorem first_line_reads_last_line file first rest final :
  last (first :: rest) = Some final →
  is_header first = false →
  old_after_comment final first = false →
  new_after_old final first = true ∨ after_commented_original final first = true →
  parse_file file (first :: rest) = Raise AttributeError.
Proof.
  intros Hlast Hh Hold Hbranch. unfold parse_file. cbn [parse_loop].
  unfold parse_line at 1. fold (is_header first). rewrite Hh, andb_false_r.
  rewrite getitem_minus_one, Hlast. cbn [rbind or_raise].
  fold (old_after_comment final first). fold (new_after_old final first).
  fold (after_commented_original final first). rewrite Hold.
  destruct (new_after_old final first); [done|].
  destruct Hbranch as [Hn | ->]; [done|]. cbn [translation_block].
  destruct (quoted_content _) as [content|e] eqn:Hc; cbn [rbind or_raise]; [done|].
  by apply quoted_content_error in Hc as ->.
Qed.

Lemma first_line_reads_last_line_witness :
  parse_file "tl/script.rpy"
    [Sample.ln ("e " +:+ Sample.quoted ""); Sample.ln ("# e " +:+ Sample.quoted "Hello")]
  = Raise AttributeError.
Proof.
  apply (first_line_reads_last_line "tl/script.rpy" _ _
           (Sample.ln ("# e " +:+ Sample.quoted "Hello"))).
  - reflexivity.
  - vm_compute. reflexivity.
  - vm_compute. reflexivity.
  - right. vm_compute. reflexivity.
Defined.

(** ** What the quoted pattern extracts *)

Section star_cls_backtrack.
Context {A : Type}.
Implicit Types (k : string → Re.captures → option A) (caps : Re.captures).

(** The longest run is tried first: when the continuation accepts it, that
    is the match. *)
Lemma go_star_cls_first p s caps k x :
  k (PyStr.drop_while p s) caps = Some x →
  Re.go (Re.Star (Re.Cls p)) s caps k = Some x.
Proof.
  induction s as [|c s IH]; simpl PyStr.drop_while.
  - by rewrite go_star_cls_stop.
  - destruct (p c) eqn:Hc.
    + intros Hk. by rewrite go_star_cls_cons, IH.
    + rewrite go_star_cls_stop; [done|]. by rewrite Hc.
Qed.

(** When the continuation refuses what is left after every run, there is
    no match. *)
Lemma go_star_cls_fail p b caps k :
  (∀ b1 b2, b = b1 +:+ b2 → PyStr.every p b1 = true → k b2 caps = None) →
  Re.go (Re.Star (Re.Cls p)) b caps k = None.
Proof.
  induction b as [|c b IH]; intros Hk.
  - rewrite go_star_cls_stop; [|done]. by apply (Hk EmptyString).
  - destruct (p c) eqn:Hc.
    + rewrite go_star_cls_cons, IH; [|..|done].
      * by apply (Hk EmptyString).
      * intros b1 b2 -> Hb1. apply (Hk (String c b1)); [done|]. simpl. by rewrite Hc.
    + rewrite go_star_cls_stop; [|by rewrite Hc]. by apply (Hk EmptyString).
Qed.

(** Backtracking: the run gives back characters until the continuation
    accepts. *)
Lemma go_star_cls_last p a b caps k x :
  PyStr.every p a = true →
  k b caps = Some x →
  (∀ b1 b2, b = b1 +:+ b2 → b1 ≠ EmptyString → PyStr.every p b1 = true → k b2 caps = None) →
  Re.go (Re.Star (Re.Cls p)) (a +:+ b) caps k = Some x.
Proof.
  intros Ha Hk Hnone. induction a as [|c a IH].
  - rewrite string_app_nil. destruct b as [|c b].
    + by rewrite go_star_cls_stop.
    + destruct (p c) eqn:Hc.
      * rewrite go_star_cls_cons, go_star_cls_fail; [done| |done].
        intros b1 b2 -> Hb1. apply (Hnone (String c b1)); [done..|]. simpl. by rewrite Hc.
      * rewrite go_star_cls_stop; [done|]. by rewrite Hc.
  - simpl in Ha. apply andb_true_iff in Ha as [Hc Ha].
    rewrite string_app_cons, go_star_cls_cons, IH; done.
Qed.
End star_cls_backtrack.

Lemma drop_while_every p a b :
  PyStr.every p a = true → PyStr.drop_while p (a +:+ b) = PyStr.drop_while p b.
Proof.
  induction a as [|c a IH]; [done|]. simpl. intros [-> Ha]%andb_true_iff. auto.
Qed.

Lemma length_string_app a b : String.length (a +:+ b) = String.length a + String.length b.
Proof. induction a as [|c a IH]; simpl; [done|]. by rewrite IH. Qed.

Lemma consumed_app a b : Re.consumed (a +:+ b) b = a.
Proof.
  unfold Re.consumed. rewrite length_string_app.
  replace (String.length a + String.length b - String.length b) with (String.length a) by lia.
  apply substring_prefix.
Qed.

Lemma every_not_LF body :
  PyStr.occurs PyStr.LF body = false →
  PyStr.every (fun c => negb (Ascii.eqb c PyStr.LF)) body = true.
Proof.
  induction body as [|c body IH]; [done|]. cbn [PyStr.occurs PyStr.every].
  intros [Hc Hb]%orb_false_iff. rewrite Ascii.eqb_sym, Hc. auto.
Qed.

(** No later part of a text without double quote starts with one. *)
Lemma occurs_suffix c t1 t2 :
  PyStr.occurs c (t1 +:+ t2) = false → PyStr.occurs c t2 = false.
Proof.
  induction t1 as [|d t1 IH]; [done|]. rewrite string_app_cons. cbn [PyStr.occurs].
  intros [_ H]%orb_false_iff. auto.
Qed.

(** From the opening quote on: the third group runs up to the last double
    quote before the end of the line. *)
Lemma go_quoted_tail body tail (caps : Re.captures) :
  PyStr.occurs PyStr.LF body = false →
  PyStr.occurs PyStr.dquote tail = false →
  Re.go (Re.Seq (Re.Chr PyStr.dquote)
                (Re.Seq (Re.Group 3 (Re.Star Re.cls_dot)) (Re.Chr PyStr.dquote)))
        (String PyStr.dquote (body +:+ String PyStr.dquote tail)) caps
        (fun _ caps' => Some caps')
  = Some (<[3 := body]> caps).
Proof.
  intros Hbody Htail. rewrite go_seq, go_chr, Ascii.eqb_refl, go_seq, go_group.
  unfold Re.cls_dot. apply go_star_cls_last.
  - by apply every_not_LF.
  - by rewrite go_chr, Ascii.eqb_refl, consumed_app.
  - intros b1 b2 Hb Hne _.
    destruct b1 as [|c b1]; [done|]. rewrite string_app_cons in Hb. injection Hb as _ ->.
    apply occurs_suffix in Htail. destruct b2 as [|d b2]; [done|].
    cbn [PyStr.occurs] in Htail. apply orb_false_iff in Htail as [Hd _].
    by rewrite go_chr, Hd.
Qed.

Lemma isspace_not_isword c : PyStr.isspace c = true → PyStr.isword c = false.
Proof.
  intros Hs. destruct (PyStr.isword c) eqn:Hw; [|done].
  apply isword_not_isspace in Hw. congruence.
Qed.

(** From the gap before the opening quote on. *)
Lemma go_quoted_gap gap body tail (caps : Re.captures) :
  PyStr.every PyStr.isspace gap = true →
  PyStr.occurs PyStr.LF body = false →
  PyStr.occurs PyStr.dquote tail = false →
  Re.go (Re.Seq (Re.Star Re.cls_s)
           (Re.Seq (Re.Chr PyStr.dquote)
              (Re.Seq (Re.Group 3 (Re.Star Re.cls_dot)) (Re.Chr PyStr.dquote))))
        (gap +:+ String PyStr.dquote (body +:+ String PyStr.dquote tail)) caps
        (fun _ caps' => Some caps')
  = Some (<[3 := body]> caps).
Proof.
  intros Hgap Hbody Htail. rewrite go_seq. apply go_star_cls_first.
  rewrite drop_while_every by done. by apply go_quoted_tail.
Qed.

(** The match of the quoted pattern on a text of the expected shape. *)
Lemma re_match_quoted indent token gap body tail :
  PyStr.every PyStr.isspace indent = true →
  PyStr.every PyStr.isword token = true →
  PyStr.every PyStr.isspace gap = true →
  PyStr.occurs PyStr.LF body = false →
  PyStr.occurs PyStr.dquote tail = false →
  ∃ m, Re.re_match RE_QUOTED
         (indent +:+ token +:+ gap +:+ String PyStr.dquote (body +:+ String PyStr.dquote tail))
       = Some m
       ∧ m !! 3 = Some body.
Proof.
  intros Hindent Htoken Hgap Hbody Htail.
  set (rest := String PyStr.dquote (body +:+ String PyStr.dquote tail)).
  assert (Hgap_rest : PyStr.drop_while PyStr.isspace (gap +:+ rest) = rest).
  { by rewrite drop_while_every. }
  unfold Re.re_match, RE_QUOTED. rewrite go_seq, go_group.
  destruct token as [|c token].
  - rewrite string_app_nil. eexists. split.
    + apply go_star_cls_first. rewrite drop_while_every, Hgap_rest by done.
      rewrite go_seq. unfold Re.Opt at 1. rewrite go_alt, go_group.
      unfold Re.Plus at 1. rewrite go_seq. unfold Re.cls_w at 1. rewrite go_cls.
      unfold rest at 1. replace (PyStr.isword PyStr.dquote) with false by done.
      rewrite go_eps.
      apply (go_quoted_gap EmptyString body tail); done.
    + by rewrite lookup_insert_eq.
  - cbn [PyStr.every] in Htoken. apply andb_true_iff in Htoken as [Hc Htoken].
    assert (Hstop : PyStr.stops PyStr.isword (gap +:+ rest) = true).
    { destruct gap as [|d gap]; [done|]. rewrite string_app_cons. cbn [PyStr.stops].
      cbn [PyStr.every] in Hgap. apply andb_true_iff in Hgap as [Hd _].
      by rewrite (isspace_not_isword d Hd). }
    destruct (take_drop_while_app PyStr.isword token (gap +:+ rest) Htoken Hstop) as [_ Hdrop].
    eexists. split.
    + apply go_star_cls_first. rewrite drop_while_every by done.
      rewrite string_app_cons. cbn [PyStr.drop_while]. rewrite (isword_not_isspace c Hc).
      rewrite go_seq. unfold Re.Opt at 1. rewrite go_alt, go_group.
      unfold Re.Plus at 1. rewrite go_seq. unfold Re.cls_w at 1. rewrite go_cls, Hc.
      unfold Re.cls_w at 1.
      erewrite go_star_cls_first; [reflexivity|].
      rewrite Hdrop. cbv beta. apply (go_quoted_gap gap body tail); done.
    + by rewrite lookup_insert_eq.
Qed.

(** X14. On a text made of whitespace, a word or none, whitespace, and a
    double quote, the quoted pattern takes for the original everything up
    to the last double quote of the line, double quotes in between
    included. *)
Theorem quoted_content_greedy indent token gap body tail :
  PyStr.every PyStr.isspace indent = true →
  PyStr.every PyStr.isword token = true →
  PyStr.every PyStr.isspace gap = true →
  PyStr.occurs PyStr.LF body = false →
  PyStr.occurs PyStr.dquote tail = false →
  quoted_content
    (indent +:+ token +:+ gap +:+ String PyStr.dquote (body +:+ String PyStr.dquote tail))
  = Ok body.
Proof.
  intros Hindent Htoken Hgap Hbody Htail.
  destruct (re_match_quoted indent token gap body tail) as (m & Hm & H3); [done..|].
  unfold quoted_content. rewrite Hm. cbn [rbind or_raise]. by rewrite H3.
Qed.

Lemma quoted_content_greedy_witness :
  quoted_content ("old " +:+ Sample.quoted ("a" +:+ Sample.quoted " " +:+ "b"))
  = Ok ("a" +:+ Sample.quoted " " +:+ "b").
Proof.
  apply (quoted_content_greedy "" "old" " " ("a" +:+ Sample.quoted " " +:+ "b") "");
    reflexivity.
Defined.

(** ** Items of dialogue lines and of string pairs *)

Lemma header_not_new line :
  is_header line = true → PyStr.startswith "new" (PyStr.strip line) = false.
Proof.
  intros Hh%bool_decide_eq_true. apply header_starts_with_t in Hh as [r ->].
  by destruct (strip_cons "t" r eq_refl) as [r' ->].
Qed.

Lemma hash_not_old s : PyStr.startswith "#" s = true → PyStr.startswith "old" s = false.
Proof.
  destruct s as [|c s]; [done|]. cbn [PyStr.startswith].
  destruct (Ascii.eqb_spec "#" c) as [<-|]; done.
Qed.

Lemma old_not_hash s : PyStr.startswith "old" s = true → PyStr.startswith "#" s = false.
Proof.
  intros Hold. destruct (PyStr.startswith "#" s) eqn:Hhash; [|done].
  apply hash_not_old in Hhash. congruence.
Qed.

(** The line at index [j] is stepped over between the first [j] lines and
    the rest. *)
Lemma parse_file_split file text_lines j line parsed heap0 :
  text_lines !! j = Some line →
  parse_file file text_lines = Ok (parsed, heap0) →
  ∃ st1 st2 st3,
    parse_loop file text_lines 0 (take j text_lines) (parse_start file) = Ok st1
    ∧ parse_line file text_lines j line st1 = Ok st2
    ∧ parse_loop file text_lines (S j) (drop (S j) text_lines) st2 = Ok st3
    ∧ heap0 = heap st3
    ∧ TranslationFile.translation_blocks parsed = opened_blocks st3.
Proof.
  intros Hline (st3 & Hloop & -> & Hblocks & _)%parse_file_opened.
  rewrite <- (take_drop_middle text_lines j line Hline) in Hloop at 2.
  rewrite parse_loop_app in Hloop.
  destruct (parse_loop file text_lines 0 (take j text_lines) _) as [st1|];
    cbn [rbind] in Hloop; [|done].
  rewrite length_take_le in Hloop by (apply lookup_lt_Some in Hline; lia).
  cbn [parse_loop Nat.add] in Hloop.
  destruct (parse_line file text_lines j line st1) as [st2|] eqn:Hstep;
    cbn [rbind] in Hloop; [|done].
  by exists st1, st2, st3.
Qed.

(** An item of the open block or of a closed one is an item of the tree. *)
Lemma located_opened ref st :
  located ref st →
  ∃ b, b ∈ opened_blocks st ∧ ref ∈ TranslationBlock.translation_items b.
Proof.
  unfold opened_blocks.
  intros [(b & Hb & Href)|(b & Hb & Href)]; exists b; (split; [|done]);
    apply elem_of_app; [right|by left].
  rewrite Hb. by apply list_elem_of_singleton.
Qed.

(** The step at a line that follows a commented original and is neither a
    header nor an [old] line: a new item in the open block. *)
Lemma parse_line_commented file text_lines k prev line st st' :
  text_lines !! k = Some prev →
  is_header line = false →
  old_after_comment prev line = false →
  after_commented_original prev line = true →
  parse_line file text_lines (S k) line st = Ok st' →
  ∃ content current,
    quoted_content (PyStr.slice_from 2 (PyStr.strip prev)) = Ok content
    ∧ translation_block st = Some current
    ∧ st' = {| translation_file := translation_file st;
               translation_block :=
                 Some (TranslationBlock.add_translation_item current (length (heap st)));
               translation_item := Some (length (heap st));
               block := block st;
               heap := heap st
                       ++ [if PyStr.startswith "nvl clear" (PyStr.strip line)
                           then TranslationItem.init (S k) (S k + 1) content
                           else TranslationItem.init (S k) (S k) content] |}.
Proof.
  intros Hprev Hh Hold Hafter Hstep.
  apply parse_line_cases in Hstep as [(_ & ? & _)|(prev' & Hp & _ & Hstep)]; [congruence|].
  rewrite getitem_pred, Hprev in Hp. injection Hp as <-.
  destruct Hstep as [(? & _)|[(_ & Hnew & _)|[(_ & _ & _ & content & cur & Hc & Hcur & ->)
        |(_ & _ & ? & _)]]]; [congruence| | |congruence].
  - unfold after_commented_original in Hafter. unfold new_after_old in Hnew.
    apply andb_true_iff in Hafter as [[Hhash _]%andb_true_iff _].
    by rewrite (hash_not_old _ Hhash) in Hnew.
  - by exists content, cur.
Qed.

(** The item of a commented original ends up in the tree as it was made. *)
Lemma commented_original_recorded file text_lines k prev line parsed heap0 :
  text_lines !! k = Some prev →
  text_lines !! S k = Some line →
  is_header line = false →
  old_after_comment prev line = false →
  after_commented_original prev line = true →
  paired text_lines →
  parse_file file text_lines = Ok (parsed, heap0) →
  ∃ content b ref,
    quoted_content (PyStr.slice_from 2 (PyStr.strip prev)) = Ok content
    ∧ b ∈ TranslationFile.translation_blocks parsed
    ∧ ref ∈ TranslationBlock.translation_items b
    ∧ heap0 !! ref
      = Some (if PyStr.startswith "nvl clear" (PyStr.strip line)
              then TranslationItem.init (S k) (S k + 1) content
              else TranslationItem.init (S k) (S k) content).
Proof.
  intros Hprev Hline Hh Hold Hafter Hpaired Hparse.
  destruct (parse_file_split _ _ _ _ _ _ Hline Hparse)
    as (st1 & st2 & st3 & _ & Hstep & Hrest & -> & ->).
  destruct (parse_line_commented _ _ _ _ _ _ _ Hprev Hh Hold Hafter Hstep)
    as (content & current & Hcontent & Hcurrent & ->).
  match type of Hrest with context [heap st1 ++ [?x]] => set (item := x) in * end.
  destruct (parse_loop_keeps file text_lines (length (heap st1)) item Hpaired
              _ (S (S k)) _ st3 ltac:(lia) eq_refl Hrest) as [Hit Hloc].
  - simpl. by rewrite lookup_app_r, Nat.sub_diag.
  - left. eexists. split; [done|]. simpl. apply elem_of_app. right.
    by apply list_elem_of_singleton.
  - intros before prev' Hbefore Hp Hold'.
    replace (S (S k) - 2) with k in Hbefore by lia.
    replace (S (S k) - 1) with (S k) in Hp by lia. simplify_eq. congruence.
  - apply located_opened in Hloc as (b & Hb & Href).
    by exists content, b, (length (heap st1)).
Qed.

(** X15. In a file that the parser accepts and whose [new] lines are
    paired, let a line that is not blank, is no header and starts neither
    with [old] nor with [nvl clear] come right after a commented original.
    Then the tree holds an item whose source line and target line are both
    that line; its original content is the quoted text of the comment. *)
Theorem dialogue_line_is_its_own_target file text_lines k prev line parsed heap0 :
  text_lines !! k = Some prev →
  text_lines !! S k = Some line →
  is_header line = false →
  old_after_comment prev line = false →
  after_commented_original prev line = true →
  PyStr.startswith "nvl clear" (PyStr.strip line) = false →
  paired text_lines →
  parse_file file text_lines = Ok (parsed, heap0) →
  ∃ b ref item,
    b ∈ TranslationFile.translation_blocks parsed
    ∧ ref ∈ TranslationBlock.translation_items b
    ∧ heap0 !! ref = Some item
    ∧ TranslationItem.source_line item = S k
    ∧ TranslationItem.target_line item = S k
    ∧ quoted_content (PyStr.slice_from 2 (PyStr.strip prev))
      = Ok (TranslationItem.original_content item).
Proof.
  intros Hprev Hline Hh Hold Hafter Hnvl Hpaired Hparse.
  destruct (commented_original_recorded _ _ _ _ _ _ _ Hprev Hline Hh Hold Hafter Hpaired Hparse)
    as (content & b & ref & Hcontent & Hb & Href & Hitem).
  rewrite Hnvl in Hitem. by exists b, ref, (TranslationItem.init (S k) (S k) content).
Qed.

Lemma narrator_file_paired : paired Sample.narrator_file.
Proof.
  intros j before prev line Hb Hp Hl Hnew.
  do 2 (destruct j as [|j]; [vm_compute in Hp, Hl; simplify_eq; vm_compute in Hnew; done|]).
  by destruct j.
Qed.

Lemma dialogue_line_is_its_own_target_witness :
  ∃ parsed heap0,
    parse_file "tl/script.rpy" Sample.narrator_file = Ok (parsed, heap0)
    ∧ ∃ b ref item,
        b ∈ TranslationFile.translation_blocks parsed
        ∧ ref ∈ TranslationBlock.translation_items b
        ∧ heap0 !! ref = Some item
        ∧ TranslationItem.source_line item = 3
        ∧ TranslationItem.target_line item = 3
        ∧ quoted_content
            (PyStr.slice_from 2
               (PyStr.strip (Sample.ln ("    # " +:+ Sample.quoted "Hello world"))))
          = Ok (TranslationItem.original_content item).
Proof.
  eexists _, _. split; [vm_compute; reflexivity|].
  apply (dialogue_line_is_its_own_target "tl/script.rpy" Sample.narrator_file 2
           (Sample.ln ("    # " +:+ Sample.quoted "Hello world"))
           (Sample.ln ("    " +:+ Sample.quoted "")));
    [reflexivity|reflexivity|vm_compute; reflexivity..|exact narrator_file_paired
    |vm_compute; reflexivity].
Defined.

(** X16. In a file that the parser accepts and whose [new] lines are
    paired, let an [old] line follow a comment line and a [new] line follow
    the [old] line.  Then the tree holds an item whose source line is the
    [old] line and whose target line is the [new] line; its original
    content is the quoted text of the [old] line. *)
Theorem old_new_pair_recorded file text_lines k before prev line parsed heap0 :
  text_lines !! k = Some before →
  text_lines !! S k = Some prev →
  text_lines !! S (S k) = Some line →
  old_after_comment before prev = true →
  new_after_old prev line = true →
  paired text_lines →
  parse_file file text_lines = Ok (parsed, heap0) →
  ∃ b ref item,
    b ∈ TranslationFile.translation_blocks parsed
    ∧ ref ∈ TranslationBlock.translation_items b
    ∧ heap0 !! ref = Some item
    ∧ TranslationItem.source_line item = S k
    ∧ TranslationItem.target_line item = S (S k)
    ∧ quoted_content (PyStr.strip prev) = Ok (TranslationItem.original_content item).
Proof.
  intros Hbefore Hprev Hline Hold Hnew Hpaired Hparse.
  pose proof Hold as [_ Hprev_old]%andb_true_iff.
  pose proof Hnew as [_ Hline_new]%andb_true_iff.
  assert (Hh1 : is_header prev = false).
  { destruct (is_header prev) eqn:Hh; [|done].
    apply bool_decide_eq_true, header_not_old in Hh. congruence. }
  assert (Hh2 : is_header line = false).
  { destruct (is_header line) eqn:Hh; [|done]. apply header_not_new in Hh. congruence. }
  assert (Hold2 : old_after_comment prev line = false).
  { unfold old_after_comment. by rewrite (old_not_hash _ Hprev_old). }
  destruct (parse_file_split _ _ _ _ _ _ Hline Hparse)
    as (st2 & st3 & st4 & Hfirst & Hstep2 & Hrest & -> & ->).
  rewrite (take_S_r _ _ _ Hprev), parse_loop_app in Hfirst.
  destruct (parse_loop file text_lines 0 (take (S k) text_lines) _) as [st1|];
    cbn [rbind] in Hfirst; [|done].
  rewrite length_take_le in Hfirst by (apply lookup_lt_Some in Hprev; lia).
  cbn [parse_loop Nat.add] in Hfirst.
  destruct (parse_line file text_lines (S k) prev st1) as [st2'|] eqn:Hstep1;
    cbn [rbind] in Hfirst; [|done].
  injection Hfirst as ->.
  (* the [old] line *)
  apply parse_line_cases in Hstep1 as [(_ & ? & _)|(p1 & Hp1 & _ & Hstep1)]; [congruence|].
  rewrite getitem_pred, Hbefore in Hp1. injection Hp1 as <-.
  destruct Hstep1 as [(_ & content & Hcontent & ->)|[(? & _)|[(? & _)|(? & _)]]];
    [|congruence..].
  (* the [new] line *)
  apply parse_line_cases in Hstep2 as [(_ & ? & _)|(p2 & Hp2 & _ & Hstep2)]; [congruence|].
  rewrite getitem_pred, Hprev in Hp2. injection Hp2 as <-.
  destruct Hstep2 as [(? & _)|[(_ & _ & ref & cur & Hp & Hc & ->)|[(_ & ? & _)|(_ & ? & _)]]];
    [congruence| |congruence..].
  cbn [translation_item] in Hp. injection Hp as <-.
  cbn [heap translation_item translation_block translation_file block] in Hrest.
  set (item := TranslationItem.set_target_line (S (S k))
                 (TranslationItem.init (S k) 0 content)).
  destruct (parse_loop_keeps file text_lines (length (heap st1)) item Hpaired
              _ (S (S (S k))) _ st4 ltac:(lia) eq_refl Hrest) as [Hit Hloc].
  - cbn [heap]. rewrite list_lookup_alter_eq, lookup_app_r, Nat.sub_diag by done. done.
  - left. eexists. split; [done|]. simpl. apply elem_of_app. right.
    by apply list_elem_of_singleton.
  - intros before' prev' Hb' Hp' Hold'.
    replace (S (S (S k)) - 2) with (S k) in Hb' by lia.
    replace (S (S (S k)) - 1) with (S (S k)) in Hp' by lia. simplify_eq. congruence.
  - apply located_opened in Hloc as (b & Hb & Href).
    by exists b, (length (heap st1)), item.
Qed.

Lemma hello_file_paired : paired Sample.hello_file.
Proof.
  intros j before prev line Hb Hp Hl Hnew.
  do 2 (destruct j as [|j]; [vm_compute in Hb, Hp, Hl; simplify_eq; vm_compute in Hnew |- *; done|]).
  by destruct j.
Qed.

Lemma old_new_pair_recorded_witness :
  ∃ b ref item,
    b ∈ TranslationFile.translation_blocks Sample.hello_tree
    ∧ ref ∈ TranslationBlock.translation_items b
    ∧ Sample.hello_heap !! ref = Some item
    ∧ TranslationItem.source_line item = 2
    ∧ TranslationItem.target_line item = 3
    ∧ quoted_content (PyStr.strip (Sample.ln ("old " +:+ Sample.quoted "Hello world")))
      = Ok (TranslationItem.original_content item).
Proof.
  apply (old_new_pair_recorded "tl/script.rpy" Sample.hello_file 1
           (Sample.ln ("# " +:+ Sample.quoted "Hello world"))
           (Sample.ln ("old " +:+ Sample.quoted "Hello world"))
           (Sample.ln ("new " +:+ Sample.quoted "")));
    [reflexivity|reflexivity|reflexivity|vm_compute; reflexivity|vm_compute; reflexivity
    |exact hello_file_paired|vm_compute; reflexivity].
Defined.

(** X17. A comment line without double quote, other than the commented
    marker, followed by a line that is not blank, is no header and does not
    start with [old], makes parsing raise [AttributeError]: the quoted
    pattern finds no match in the comment. *)
Theorem comment_without_quote_raises file text_lines k prev line :
  text_lines !! k = Some prev →
  text_lines !! S k = Some line →
  is_header line = false →
  old_after_comment prev line = false →
  after_commented_original prev line = true →
  PyStr.occurs PyStr.dquote (PyStr.slice_from 2 (PyStr.strip prev)) = false →
  parse_file file text_lines = Raise AttributeError.
Proof.
  intros Hprev Hline Hh Hold Hafter Hquote.
  destruct (parse_file file text_lines) as [[parsed heap0]|e] eqn:Hparse.
  - destruct (parse_file_split _ _ _ _ _ _ Hline Hparse)
      as (st1 & st2 & st3 & _ & Hstep & _).
    destruct (parse_line_commented _ _ _ _ _ _ _ Hprev Hh Hold Hafter Hstep)
      as (content & current & Hcontent & _).
    by rewrite (quoted_content_no_quote _ Hquote) in Hcontent.
  - f_equal. by eapply parse_file_raises.
Qed.

Lemma comment_without_quote_raises_witness :
  parse_file "tl/script.rpy"
    [Sample.ln "translate french start_label"; Sample.ln "    # TODO";
     Sample.ln ("    e " +:+ Sample.quoted "")]
  = Raise AttributeError.
Proof.
  apply (comment_without_quote_raises "tl/script.rpy" _ 1 (Sample.ln "    # TODO")
           (Sample.ln ("    e " +:+ Sample.quoted "")));
    [reflexivity|reflexivity|vm_compute; reflexivity..].
Defined.

(** ** From the parsed tree to the written lines *)

(** The references of a parsed tree lead into its heap, to items whose
    target line is at most one past the end of the file. *)
Lemma parse_file_refs file text_lines parsed heap0 :
  parse_file file text_lines = Ok (parsed, heap0) →
  Forall (fun b => Forall (well_placed heap0 (length text_lines))
                          (TranslationBlock.translation_items b))
         (TranslationFile.translation_blocks parsed).
Proof.
  intros (st & Hloop & -> & -> & _)%parse_file_opened.
  apply (parse_file_invariant file text_lines parse_wf) in Hloop
    as (_ & _ & Hblocks); [done|apply parse_wf_step|].
  split_and!; [done|constructor|]. unfold opened_blocks. simpl. constructor.
Qed.

Lemma bind_Ok {A B} (m : M A) (f : A → M B) w a w1 :
  m w = Ok (a, w1) → bind m f w = f a w1.
Proof. unfold bind. by intros ->. Qed.

Lemma bind_Raise {A B} (m : M A) (f : A → M B) w e :
  m w = Raise e → bind m f w = Raise e.
Proof. unfold bind. by intros ->. Qed.

Section translate_result.
Variable client : Client.
Variable lang : string.

(** The translation of one string raises only when the client does. *)
Lemma translate_unit_result u w :
  (∃ u' w', TranslationString.translate client u lang w = Ok (u', w'))
  ∨ (TranslationString.translate client u lang w = Raise ClientError
     ∧ ∃ log text, client log text lang = None).
Proof.
  destruct (PyStr.all_space (TranslationString.content u)) eqn:Hb.
  - left. eexists _, _. apply translate_guard. by rewrite strip_empty.
  - destruct (TranslationString.pull_from_cache u lang w) as [t|] eqn:Hp.
    + left. eexists _, _. by apply translate_hit.
    + destruct (client (client_log w) (TranslationString.content u) lang) as [t|] eqn:Hc.
      * left. eexists _, _. by apply translate_miss.
      * right. split; [|by eauto].
        unfold TranslationString.translate. cbn [TranslationString.content].
        rewrite strip_empty, Hb.
        rewrite (pull_from_cache_content _ u) by done. rewrite Hp.
        unfold bind, TranslationString.client_translate. by rewrite Hc.
Qed.

Lemma for_each_translate_result us w :
  (∃ us' w', for_each (fun u => TranslationString.translate client u lang) us w = Ok (us', w'))
  ∨ (for_each (fun u => TranslationString.translate client u lang) us w = Raise ClientError
     ∧ ∃ log text, client log text lang = None).
Proof.
  revert w. induction us as [|u us IH]; intros w; simpl; [left; by eexists _, _|].
  destruct (translate_unit_result u w) as [(u' & w1 & Hu)|[Hu Hc]].
  - rewrite !(bind_Ok _ _ _ _ _ Hu).
    destruct (IH w1) as [(us' & w' & Hus)|[Hus Hc]].
    + rewrite !(bind_Ok _ _ _ _ _ Hus). left. by eexists _, _.
    + rewrite !(bind_Raise _ _ _ _ Hus). by right.
  - rewrite !(bind_Raise _ _ _ _ Hu). by right.
Qed.

Lemma item_translate_result item w :
  (∃ item' w', TranslationItem.translate client item lang w = Ok (item', w'))
  ∨ (TranslationItem.translate client item lang w = Raise ClientError
     ∧ ∃ log text, client log text lang = None).
Proof.
  unfold TranslationItem.translate.
  destruct (for_each_translate_result (TranslationItem.translation_strings item) w)
    as [(us' & w1 & Hus)|[Hus Hc]].
  - rewrite !(bind_Ok _ _ _ _ _ Hus). left. by eexists _, _.
  - rewrite !(bind_Raise _ _ _ _ Hus). by right.
Qed.

Lemma translate_items_result items : ∀ heap w,
  Forall (fun ref => ref < length heap) items →
  (∃ heap' w', TranslationBlock.translate_items client lang items heap w = Ok (heap', w'))
  ∨ (TranslationBlock.translate_items client lang items heap w = Raise ClientError
     ∧ ∃ log text, client log text lang = None).
Proof.
  induction items as [|ref items IH]; intros heap w Hrefs; simpl; [left; by eexists _, _|].
  apply Forall_cons in Hrefs as [Href Hrefs].
  destruct (lookup_lt_is_Some_2 heap ref Href) as [item Hitem].
  assert (Hderef : lift (deref heap ref) w = Ok (item, w)).
  { unfold lift, deref. by rewrite Hitem. }
  rewrite !(bind_Ok _ _ _ _ _ Hderef).
  destruct (item_translate_result item w) as [(item' & w1 & Hit)|[Hit Hc]].
  - rewrite !(bind_Ok _ _ _ _ _ Hit). apply IH. by rewrite length_insert.
  - rewrite !(bind_Raise _ _ _ _ Hit). by right.
Qed.

Lemma translate_blocks_result blocks : ∀ heap w,
  Forall (fun b => Forall (fun ref => ref < length heap) (TranslationBlock.translation_items b))
         blocks →
  (∃ heap' w', TranslationFile.translate_blocks client lang blocks heap w = Ok (heap', w'))
  ∨ (TranslationFile.translate_blocks client lang blocks heap w = Raise ClientError
     ∧ ∃ log text, client log text lang = None).
Proof.
  induction blocks as [|b blocks IH]; intros heap w Hrefs; simpl; [left; by eexists _, _|].
  apply Forall_cons in Hrefs as [Hb Hrefs].
  destruct (translate_items_result _ heap w Hb) as [(heap1 & w1 & Hitems)|[Hitems Hc]].
  - rewrite !(bind_Ok _ _ _ _ _ Hitems). apply IH.
    apply translate_items_shape, Forall2_length in Hitems. by rewrite <- Hitems.
  - rewrite !(bind_Raise _ _ _ _ Hitems). by right.
Qed.

(** After the translation of a list of items, each of them has all its
    translations, and so has every item that had them before. *)
Lemma translate_items_translated items : ∀ heap w heap' w',
  TranslationBlock.translate_items client lang items heap w = Ok (heap', w') →
  ∀ ref, ref ∈ items ∨ translated heap ref → translated heap' ref.
Proof.
  induction items as [|r items IH]; intros heap w heap' w'; simpl.
  - intros [= <- <-] ref [Hin|H]; [by apply elem_of_nil in Hin|done].
  - unfold bind at 1, lift, deref.
    destruct (heap !! r) as [item|] eqn:Hr; simpl; [|done].
    unfold bind at 1.
    destruct (TranslationItem.translate client item lang w) as [[item' w1]|] eqn:Hitem; [|done].
    intros Hrest ref Href. apply (IH _ _ _ _ Hrest).
    apply item_translate_shape in Hitem as [_ Hdone].
    assert (Hnew : translated (<[r:=item']> heap) r).
    { exists item'. split; [|done].
      apply list_lookup_insert_eq. by eapply lookup_lt_Some. }
    destruct Href as [[->|Hin]%elem_of_cons|(it & Hit & Hall)]; [by right|by left|].
    right. destruct (decide (ref = r)) as [->|Hne]; [done|].
    exists it. by rewrite list_lookup_insert_ne.
Qed.

Lemma translate_blocks_translated blocks : ∀ heap w heap' w',
  TranslationFile.translate_blocks client lang blocks heap w = Ok (heap', w') →
  ∀ ref, (∃ b, b ∈ blocks ∧ ref ∈ TranslationBlock.translation_items b) ∨ translated heap ref →
         translated heap' ref.
Proof.
  induction blocks as [|b blocks IH]; intros heap w heap' w'; simpl.
  - intros [= <- <-] ref [(b & Hb & _)|H]; [by apply elem_of_nil in Hb|done].
  - unfold bind at 1, TranslationBlock.translate.
    destruct (TranslationBlock.translate_items _ _ _ heap w) as [[heap1 w1]|] eqn:Hb; [|done].
    intros Hrest ref Href. apply (IH _ _ _ _ Hrest).
    destruct Href as [(b' & [->|Hin]%elem_of_cons & Href)|H].
    + right. apply (translate_items_translated _ _ _ _ _ Hb). by left.
    + left. by exists b'.
    + right. apply (translate_items_translated _ _ _ _ _ Hb). by right.
Qed.
End translate_result.

(** X18. Translating a parsed tree either goes through or raises
    [ClientError], and the latter only if the client fails on some call:
    every reference of the tree is in the heap. *)
Theorem translate_parsed_tree client file text_lines lang w parsed heap0 :
  parse_file file text_lines = Ok (parsed, heap0) →
  (∃ heap' w', TranslationFile.translate client parsed lang heap0 w = Ok (heap', w'))
  ∨ (TranslationFile.translate client parsed lang heap0 w = Raise ClientError
     ∧ ∃ log text, client log text lang = None).
Proof.
  intros Hrefs%parse_file_refs. apply translate_blocks_result.
  eapply Forall_impl; [exact Hrefs|]. intros b Hb.
  eapply Forall_impl; [exact Hb|]. intros ref (item & Hitem & _).
  by eapply lookup_lt_Some.
Qed.

Lemma translate_parsed_tree_witness :
  (∃ heap' w',
     TranslationFile.translate Sample.client_brackets Sample.hello_tree "fr"
       Sample.hello_heap (mkWorld ∅ []) = Ok (heap', w'))
  ∨ (TranslationFile.translate Sample.client_brackets Sample.hello_tree "fr"
       Sample.hello_heap (mkWorld ∅ []) = Raise ClientError
     ∧ ∃ log text, Sample.client_brackets log text "fr" = None).
Proof.
  apply (translate_parsed_tree Sample.client_brackets "tl/script.rpy" Sample.hello_file).
  vm_compute. reflexivity.
Defined.

(** ** What the writeback loop can raise *)

(** One step of the loop on an item that has its translations: it goes
    through if the target line is a line of the file, and raises
    [IndexError] if not. *)
Lemma rewrite_item_result heap text_lines ref item :
  heap !! ref = Some item →
  Forall (fun u => is_Some (TranslationString.translation u))
         (TranslationItem.translation_strings item) →
  (TranslationItem.target_line item < length text_lines
   ∧ ∃ out, rewrite_item heap text_lines ref = Ok out ∧ length out = length text_lines)
  ∨ (length text_lines ≤ TranslationItem.target_line item
     ∧ rewrite_item heap text_lines ref = Raise IndexError).
Proof.
  intros Href Hall.
  destruct (decide (TranslationItem.target_line item < length text_lines)) as [Hlt|Hge].
  - left. split; [done|].
    destruct (rewrite_item_succeeds heap text_lines ref item Href Hlt Hall) as [out Hout].
    exists out. split; [done|].
    apply rewrite_item_ok in Hout as (? & ? & ? & _ & _ & _ & ->). by rewrite length_insert.
  - right. split; [lia|]. unfold rewrite_item, deref. rewrite Href. cbn [rbind or_raise].
    rewrite getitem_nat, (lookup_ge_None_2 text_lines) by lia. done.
Qed.

Lemma rewrite_items_result heap items : ∀ text_lines,
  Forall (translated heap) items →
  (Forall (fun t => t < length text_lines)
          (omap (fun ref => TranslationItem.target_line <$> heap !! ref) items)
   ∧ ∃ out, rewrite_items heap items text_lines = Ok out ∧ length out = length text_lines)
  ∨ (Exists (fun t => length text_lines ≤ t)
            (omap (fun ref => TranslationItem.target_line <$> heap !! ref) items)
     ∧ rewrite_items heap items text_lines = Raise IndexError).
Proof.
  induction items as [|ref items IH]; intros text_lines Hall; simpl.
  - left. split; [constructor|by eexists].
  - apply Forall_cons in Hall as [(item & Href & Hdone) Hall].
    rewrite Href. csimpl.
    destruct (rewrite_item_result heap text_lines ref item Href Hdone)
      as [(Hlt & mid & -> & Hlen)|(Hge & ->)]; cbn [rbind].
    + destruct (IH mid Hall) as [(Hlts & out & -> & Hlen')|(Hges & ->)].
      * left. rewrite Hlen in Hlts. split; [by constructor|]. exists out. split; [done|congruence].
      * right. rewrite Hlen in Hges. split; [by apply Exists_cons_tl|done].
    + right. split; [by apply Exists_cons_hd|done].
Qed.

Lemma rewrite_blocks_result heap blocks : ∀ text_lines,
  Forall (fun b => Forall (translated heap) (TranslationBlock.translation_items b)) blocks →
  (Forall (fun t => t < length text_lines)
          (b ← blocks; omap (fun ref => TranslationItem.target_line <$> heap !! ref)
                            (TranslationBlock.translation_items b))
   ∧ ∃ out, rewrite_blocks heap blocks text_lines = Ok out ∧ length out = length text_lines)
  ∨ (Exists (fun t => length text_lines ≤ t)
            (b ← blocks; omap (fun ref => TranslationItem.target_line <$> heap !! ref)
                              (TranslationBlock.translation_items b))
     ∧ rewrite_blocks heap blocks text_lines = Raise IndexError).
Proof.
  induction blocks as [|b blocks IH]; intros text_lines Hall; csimpl.
  - left. split; [constructor|by eexists].
  - apply Forall_cons in Hall as [Hb Hall].
    destruct (rewrite_items_result heap _ text_lines Hb)
      as [(Hlt & mid & -> & Hlen)|(Hge & ->)]; cbn [rbind].
    + destruct (IH mid Hall) as [(Hlts & out & -> & Hlen')|(Hges & ->)].
      * left. rewrite Hlen in Hlts. split; [by apply Forall_app|].
        exists out. split; [done|congruence].
      * right. rewrite Hlen in Hges. split; [apply Exists_app; by right|done].
    + right. split; [apply Exists_app; by left|done].
Qed.

(** After parsing and translating, the references of the tree lead to
    items that have their translations. *)
Lemma parsed_then_translated client file text_lines lang w parsed heap0 heap' w' :
  parse_file file text_lines = Ok (parsed, heap0) →
  TranslationFile.translate client parsed lang heap0 w = Ok (heap', w') →
  Forall (fun b => Forall (translated heap') (TranslationBlock.translation_items b))
         (TranslationFile.translation_blocks parsed).
Proof.
  intros _ Htr. apply Forall_forall. intros b Hb. apply Forall_forall. intros ref Href.
  apply (translate_blocks_translated _ _ _ _ _ _ _ Htr). left. by exists b.
Qed.

(** The writeback of a parsed and translated tree: it goes through when
    every recorded target is a line of the file, and raises [IndexError]
    when one is not. *)
Lemma writeback_result client file text_lines lang w parsed heap0 heap' w' :
  parse_file file text_lines = Ok (parsed, heap0) →
  TranslationFile.translate client parsed lang heap0 w = Ok (heap', w') →
  (Forall (fun t => t < length text_lines) (recorded_targets heap0 parsed)
   ∧ ∃ out, rewrite_file heap' parsed text_lines = Ok out ∧ length out = length text_lines)
  ∨ (Exists (fun t => length text_lines ≤ t) (recorded_targets heap0 parsed)
     ∧ rewrite_file heap' parsed text_lines = Raise IndexError).
Proof.
  intros Hparse Htr.
  rewrite <- (translate_recorded_targets _ _ _ _ _ _ _ Htr).
  apply rewrite_blocks_result. by eapply parsed_then_translated.
Qed.

(** The targets recorded in a parsed tree are at most one past the end. *)
Lemma parse_file_targets file text_lines parsed heap0 :
  parse_file file text_lines = Ok (parsed, heap0) →
  Forall (fun t => t ≤ length text_lines) (recorded_targets heap0 parsed).
Proof.
  intros Hrefs%parse_file_refs. unfold recorded_targets.
  apply Forall_forall. intros t (b & Ht & Hb)%list_elem_of_bind.
  apply list_elem_of_omap in Ht as (ref & Href & Ht).
  rewrite Forall_forall in Hrefs. specialize (Hrefs b Hb).
  rewrite Forall_forall in Hrefs. destruct (Hrefs ref Href) as (item & Hitem & _ & Hle).
  rewrite Hitem in Ht. by simplify_eq/=.
Qed.

(** X19. After a file has been parsed and its tree translated, the
    writeback loop either goes through, or raises [IndexError]; in that
    case the tree records a target line just past the last line of the
    file.  Nothing else can go wrong in the loop. *)
Theorem writeback_after_translate client file text_lines lang w parsed heap0 heap' w' :
  parse_file file text_lines = Ok (parsed, heap0) →
  TranslationFile.translate client parsed lang heap0 w = Ok (heap', w') →
  (∃ out, rewrite_file heap' parsed text_lines = Ok out ∧ length out = length text_lines)
  ∨ (rewrite_file heap' parsed text_lines = Raise IndexError
     ∧ length text_lines ∈ recorded_targets heap0 parsed).
Proof.
  intros Hparse Htr.
  destruct (writeback_result _ _ _ _ _ _ _ _ _ Hparse Htr) as [[_ Hok]|[Hge Hraise]];
    [by left|right].
  split; [done|]. apply Exists_exists in Hge as (t & Ht & Hge).
  pose proof (parse_file_targets _ _ _ _ Hparse) as Hle.
  rewrite Forall_forall in Hle. specialize (Hle t Ht).
  by replace (length text_lines) with t by lia.
Qed.

Lemma writeback_after_translate_witness :
  ∃ heap' w',
    TranslationFile.translate Sample.client_brackets Sample.hello_tree "fr"
      Sample.hello_heap (mkWorld ∅ []) = Ok (heap', w')
    ∧ ((∃ out, rewrite_file heap' Sample.hello_tree Sample.hello_file = Ok out
               ∧ length out = length Sample.hello_file)
       ∨ (rewrite_file heap' Sample.hello_tree Sample.hello_file = Raise IndexError
          ∧ length Sample.hello_file ∈ recorded_targets Sample.hello_heap Sample.hello_tree)).
Proof.
  eexists _, _. split; [vm_compute; reflexivity|].
  eapply (writeback_after_translate Sample.client_brackets "tl/script.rpy" Sample.hello_file
            "fr" (mkWorld ∅ [])); vm_compute; reflexivity.
Defined.

(** X20. When the last line of a file is a [nvl clear] line that follows
    a commented original, and the file has been parsed and its tree
    translated, the writeback loop raises [IndexError]: the target of the
    item is the line after the last one. *)
Theorem nvl_clear_on_last_line_raises client file text_lines lang w k prev line
    parsed heap0 heap' w' :
  text_lines !! k = Some prev →
  text_lines !! S k = Some line →
  length text_lines = S (S k) →
  after_commented_original prev line = true →
  PyStr.startswith "nvl clear" (PyStr.strip line) = true →
  parse_file file text_lines = Ok (parsed, heap0) →
  TranslationFile.translate client parsed lang heap0 w = Ok (heap', w') →
  rewrite_file heap' parsed text_lines = Raise IndexError.
Proof.
  intros Hprev Hline Hlen Hafter Hnvl Hparse Htr.
  assert (Hh : is_header line = false).
  { destruct (is_header line) eqn:Hh; [|done].
    apply bool_decide_eq_true, header_not_nvl in Hh. congruence. }
  assert (Hold : old_after_comment prev line = false).
  { destruct (nvl_not_old_new _ Hnvl) as (Hno & _).
    unfold old_after_comment. by rewrite Hno, andb_false_r. }
  destruct (parse_file_split _ _ _ _ _ _ Hline Hparse)
    as (st1 & st2 & st3 & _ & Hstep & Hrest & Hheap & Hblocks).
  rewrite drop_ge in Hrest by lia. injection Hrest as <-.
  destruct (parse_line_commented _ _ _ _ _ _ _ Hprev Hh Hold Hafter Hstep)
    as (content & current & _ & _ & ->).
  rewrite Hnvl in Hheap, Hblocks.
  assert (Hin : S k + 1 ∈ recorded_targets heap0 parsed).
  { unfold recorded_targets. rewrite Hblocks, Hheap. unfold opened_blocks.
    cbn [translation_block translation_file heap option_list].
    apply list_elem_of_bind. eexists. split; [|apply elem_of_app; right; by left].
    apply list_elem_of_omap. exists (length (heap st1)).
    cbn [TranslationBlock.add_translation_item TranslationBlock.translation_items].
    split; [apply elem_of_app; right; by left|].
    by rewrite lookup_app_r, Nat.sub_diag. }
  destruct (writeback_result _ _ _ _ _ _ _ _ _ Hparse Htr) as [[Hlt _]|[_ Hraise]]; [|done].
  rewrite Forall_forall in Hlt. specialize (Hlt _ Hin). lia.
Qed.

Lemma nvl_clear_on_last_line_raises_witness :
  ∃ parsed heap0 heap' w',
    parse_file "tl/script.rpy" Sample.nvl_last_file = Ok (parsed, heap0)
    ∧ TranslationFile.translate Sample.client_brackets parsed "fr" heap0 (mkWorld ∅ [])
      = Ok (heap', w')
    ∧ client_log w' = [("Hello world", "fr")]
    ∧ rewrite_file heap' parsed Sample.nvl_last_file = Raise IndexError.
Proof.
  eexists _, _, _, _. split; [vm_compute; reflexivity|].
  split; [vm_compute; reflexivity|]. split; [reflexivity|].
  eapply (nvl_clear_on_last_line_raises Sample.client_brackets "tl/script.rpy"
            Sample.nvl_last_file "fr" (mkWorld ∅ []) 1
            (Sample.ln ("    # n " +:+ Sample.quoted "Hello world"))
            (Sample.ln "    nvl clear"));
    [reflexivity|reflexivity|reflexivity|vm_compute; reflexivity|vm_compute; reflexivity
    |vm_compute; reflexivity|vm_compute; reflexivity].
Defined.

(** ** The leading whitespace of the written lines *)

Lemma take_while_format_line line translated :
  PyStr.take_while PyStr.isspace
    (format_line (target_groups line !! 1) (target_groups line !! 2) translated)
  = PyStr.take_while PyStr.isspace line.
Proof.
  rewrite target_groups_1, target_groups_2. cbv zeta. unfold format_line. cbn [PyStr.fmt].
  set (indent := PyStr.take_while PyStr.isspace line).
  assert (Hindent : PyStr.every PyStr.isspace indent = true).
  { subst indent. induction line as [|c line IH]; [done|]. simpl.
    destruct (PyStr.isspace c) eqn:Hc; [|done]. simpl. by rewrite Hc. }
  apply take_drop_while_app; [done|].
  destruct (PyStr.take_while PyStr.isword (PyStr.drop_while PyStr.isspace line))
    as [|c token] eqn:Htoken; [done|].
  cbn [PyStr.is_empty PyStr.fmt]. rewrite string_app_cons. cbn [PyStr.stops].
  assert (Hc : PyStr.isword c = true).
  { destruct (PyStr.drop_while PyStr.isspace line) as [|d rest]; [done|].
    simpl in Htoken. destruct (PyStr.isword d) eqn:Hd; [|done]. by injection Htoken as <- _. }
  by rewrite (isword_not_isspace c Hc).
Qed.

Lemma rewrite_items_indent heap items : ∀ text_lines out,
  rewrite_items heap items text_lines = Ok out →
  ∀ j line line', text_lines !! j = Some line → out !! j = Some line' →
    PyStr.take_while PyStr.isspace line' = PyStr.take_while PyStr.isspace line.
Proof.
  induction items as [|ref items IH]; intros text_lines out; simpl.
  - intros [= <-] j line line' ??. by simplify_eq.
  - destruct (rewrite_item heap text_lines ref) as [mid|] eqn:Hmid; simpl; [|done].
    intros Hout j line line' Hline Hline'.
    apply rewrite_item_ok in Hmid as (item & old & tr & _ & Hold & _ & ->).
    destruct (decide (j = TranslationItem.target_line item)) as [->|Hne].
    + rewrite Hold in Hline. injection Hline as <-.
      rewrite <- (take_while_format_line old tr).
      eapply IH; [done| |done].
      apply list_lookup_insert_eq. by eapply lookup_lt_Some.
    + eapply IH; [done| |done]. by rewrite list_lookup_insert_ne.
Qed.

Lemma rewrite_blocks_indent heap blocks : ∀ text_lines out,
  rewrite_blocks heap blocks text_lines = Ok out →
  ∀ j line line', text_lines !! j = Some line → out !! j = Some line' →
    PyStr.take_while PyStr.isspace line' = PyStr.take_while PyStr.isspace line.
Proof.
  induction blocks as [|b blocks IH]; intros text_lines out; simpl.
  - intros [= <-] j line line' ??. by simplify_eq.
  - destruct (rewrite_items heap _ text_lines) as [mid|] eqn:Hmid; simpl; [|done].
    intros Hout j line line' Hline Hline'.
    destruct (lookup_lt_is_Some_2 mid j) as [line1 Hline1].
    { apply rewrite_items_frame in Hmid as [-> _]. by eapply lookup_lt_Some. }
    rewrite <- (rewrite_items_indent _ _ _ _ Hmid j line line1) by done.
    by eapply IH.
Qed.

(** X21. Whatever the tree and the lines, every line that the writeback
    loop returns starts with the same run of whitespace as the line it
    stands for, also when several items were written to that line. *)
Theorem rewrite_keeps_indentation heap translation_file text_lines out j line line' :
  rewrite_file heap translation_file text_lines = Ok out →
  text_lines !! j = Some line →
  out !! j = Some line' →
  PyStr.take_while PyStr.isspace line' = PyStr.take_while PyStr.isspace line.
Proof. intros Hout. by apply (rewrite_blocks_indent _ _ _ _ Hout). Qed.

Lemma rewrite_keeps_indentation_witness :
  ∃ parsed heap0 heap' w' out line',
    parse_file "tl/script.rpy" Sample.narrator_file = Ok (parsed, heap0)
    ∧ TranslationFile.translate Sample.client_brackets parsed "fr" heap0 (mkWorld ∅ [])
      = Ok (heap', w')
    ∧ rewrite_file heap' parsed Sample.narrator_file = Ok out
    ∧ out !! 3 = Some line'
    ∧ PyStr.take_while PyStr.isspace line'
      = PyStr.take_while PyStr.isspace (Sample.ln ("    " +:+ Sample.quoted "")).
Proof.
  eexists _, _, _, _, _, _. split; [vm_compute; reflexivity|].
  split; [vm_compute; reflexivity|].
  assert (H : ∀ (x y : Result (list string)) (a b : option string) (P : Prop),
            x = y → a = b → (x = y → a = b → P) → x = y ∧ a = b ∧ P)
    by (intros x y a b P Hx Ha HP; repeat split; auto).
  apply H; [vm_compute; reflexivity|vm_compute; reflexivity|].
  intros Hout Hline'.
  exact (rewrite_keeps_indentation _ _ _ _ 3 _ _ Hout eq_refl Hline').
Defined.

(** ** The hit count of the estimate *)

Section hit_count.
Variable lang : string.
Variable w : World.

Local Abbreviation hit := (fun u => is_Some (TranslationString.pull_from_cache u lang w)).

Lemma sum_pairs_snd_cons x (data : list (Num.num * Z)) :
  snd (sum_pairs (x :: data)) = (snd x + snd (sum_pairs data))%Z.
Proof.
  unfold sum_pairs. cbn [map fold_left snd]. by rewrite fold_left_Zadd_shift.
Qed.

Lemma unit_estimate_hit u :
  snd (TranslationString.estimate_price u lang w)
  = Z.of_nat (length (filter hit [u])).
Proof.
  unfold TranslationString.estimate_price.
  destruct (TranslationString.pull_from_cache u lang w) as [t|] eqn:Hp.
  - rewrite filter_cons_True by (by rewrite Hp). done.
  - rewrite filter_cons_False by (rewrite Hp; by intros [? ?]). done.
Qed.

Lemma item_estimate_hits item :
  snd (TranslationItem.estimate_price item lang w)
  = Z.of_nat (length (filter hit (TranslationItem.translation_strings item))).
Proof.
  unfold TranslationItem.estimate_price.
  induction (TranslationItem.translation_strings item) as [|u us IH]; [done|].
  cbn [map]. rewrite sum_pairs_snd_cons, IH, unit_estimate_hit.
  change (u :: us) with ([u] ++ us). rewrite (filter_app _ [u] us), length_app. lia.
Qed.

Lemma items_estimate_hits heap refs :
  Forall (fun ref => is_Some (heap !! ref)) refs →
  ∃ items,
    mapM (fun ref => heap !! ref) refs = Some items
    ∧ snd (sum_pairs (map (fun item => TranslationItem.estimate_price item lang w) items))
      = Z.of_nat (length (filter hit (ref ← refs; strings_at heap ref))).
Proof.
  induction 1 as [|ref refs [item Href] _ (items & Hitems & Hsum)].
  - by exists [].
  - exists (item :: items). split.
    { apply mapM_Some_2. constructor; [done|]. by apply mapM_Some_1. }
    cbn [map]. rewrite bind_cons, (strings_at_Some _ _ _ Href).
    rewrite sum_pairs_snd_cons, Hsum, item_estimate_hits, filter_app, length_app. lia.
Qed.

Lemma blocks_estimate_hits heap blocks :
  Forall (fun b => Forall (fun ref => is_Some (heap !! ref))
                          (TranslationBlock.translation_items b)) blocks →
  ∃ data,
    TranslationFile.estimate_blocks blocks lang heap w = Ok data
    ∧ snd (sum_pairs data)
      = Z.of_nat (length (filter hit
                            (b ← blocks; ref ← TranslationBlock.translation_items b;
                             strings_at heap ref))).
Proof.
  induction 1 as [|b blocks Hb _ (data & Hdata & Hsum)].
  - by exists [].
  - destruct (items_estimate_hits heap _ Hb) as (items & Hitems & Hsum1).
    eexists. split.
    + cbn [TranslationFile.estimate_blocks]. unfold TranslationBlock.estimate_price.
      rewrite Hitems. cbn [rbind or_raise]. rewrite Hdata. cbn [rbind]. reflexivity.
    + rewrite bind_cons, sum_pairs_snd_cons, Hsum, filter_app, length_app. cbn [snd].
      rewrite Hsum1. lia.
Qed.
End hit_count.

(** The estimate of a parsed tree goes through. *)
Lemma estimate_parsed file text_lines lang w parsed heap0 :
  parse_file file text_lines = Ok (parsed, heap0) →
  ∃ price,
    TranslationFile.estimate_price parsed lang heap0 w
    = Ok (price,
          Z.of_nat (length (filter (fun u => is_Some (TranslationString.pull_from_cache u lang w))
                                   (strings_of heap0 parsed)))).
Proof.
  intros Hrefs%parse_file_refs.
  destruct (blocks_estimate_hits lang w heap0 (TranslationFile.translation_blocks parsed))
    as (data & Hdata & Hsum).
  { eapply Forall_impl; [exact Hrefs|]. intros b Hb.
    eapply Forall_impl; [exact Hb|]. intros ref (item & -> & _). by eexists. }
  unfold TranslationFile.estimate_price. rewrite Hdata. cbn [rbind].
  exists (fst (sum_pairs data)). f_equal. unfold strings_of. rewrite <- Hsum.
  by destruct (sum_pairs data).
Qed.

(** X22. The estimate of a parsed tree never fails, and its second
    component is the number of strings of the tree, counted as often as
    the tree reaches them, for which the cache has a usable translation. *)
Theorem estimate_counts_hits file text_lines lang w parsed heap0 :
  parse_file file text_lines = Ok (parsed, heap0) →
  ∃ price,
    TranslationFile.estimate_price parsed lang heap0 w
    = Ok (price,
          Z.of_nat (length (filter (fun u => is_Some (TranslationString.pull_from_cache u lang w))
                                   (strings_of heap0 parsed)))).
Proof. apply estimate_parsed. Qed.

Lemma estimate_counts_hits_witness :
  ∃ price,
    TranslationFile.estimate_price Sample.hello_tree "fr" Sample.hello_heap
      (mkWorld Sample.hello_cache_fr [])
    = Ok (price,
          Z.of_nat (length (filter (fun u => is_Some (TranslationString.pull_from_cache u "fr"
                                                        (mkWorld Sample.hello_cache_fr [])))
                                   (strings_of Sample.hello_heap Sample.hello_tree)))).
Proof.
  apply (estimate_counts_hits "tl/script.rpy" Sample.hello_file).
  vm_compute. reflexivity.
Defined.

(** ** The events of [main] *)

Lemma run_bind_Ok {A B} (m : Run A) (f : A → Run B) p a p1 :
  m p = (Ok a, p1) → run_bind m f p = f a p1.
Proof. unfold run_bind. by intros ->. Qed.

Lemma run_bind_Raise {A B} (m : Run A) (f : A → Run B) p e p1 :
  m p = (Raise e, p1) → run_bind m f p = (Raise e, p1).
Proof. unfold run_bind. by intros ->. Qed.

(** A loop over elements that satisfy [P], whose body emits [E x] when it
    returns and [Er x] when it raises, and asks nothing. *)
Lemma run_each_trace {A B} (f : A → Run B) (P : A → Prop) (E Er : A → list event)
    (R : A → B → Prop) (Rr : A → exn → Prop) (l : list A) :
  (∀ x p, P x → ∃ r p',
     f x p = (r, p') ∧ pending_answers p' = pending_answers p
     ∧ match r with
       | Ok y => events p' = events p ++ E x ∧ R x y
       | Raise e => events p' = events p ++ Er x ∧ Rr x e
       end) →
  Forall P l →
  ∀ p, ∃ r p',
    run_each f l p = (r, p') ∧ pending_answers p' = pending_answers p
    ∧ match r with
      | Ok ys => events p' = events p ++ concat (E <$> l) ∧ Forall2 R l ys
      | Raise e => ∃ l1 x l2, l = l1 ++ x :: l2
                              ∧ events p' = events p ++ concat (E <$> l1) ++ Er x
                              ∧ Rr x e
      end.
Proof.
  intros Hf. induction 1 as [|x l Hx _ IH]; intros p.
  - exists (Ok []), p. simpl. by rewrite app_nil_r.
  - cbn [run_each].
    destruct (Hf x p Hx) as ([y|e] & p1 & Hfx & Hpend1 & Hcase).
    + destruct Hcase as [Hev1 HR].
      rewrite (run_bind_Ok _ _ _ _ _ Hfx).
      destruct (IH p1) as ([ys|e] & p2 & Hl & Hpend2 & Hcase2).
      * destruct Hcase2 as [Hev2 HRs].
        rewrite (run_bind_Ok _ _ _ _ _ Hl). exists (Ok (y :: ys)), p2.
        split_and!; [done|congruence| |by constructor].
        rewrite Hev2, Hev1. csimpl. by rewrite <- app_assoc.
      * destruct Hcase2 as (l1 & x' & l2 & -> & Hev2 & Hr).
        rewrite (run_bind_Raise _ _ _ _ _ Hl). exists (Raise e), p2.
        split_and!; [done|congruence|]. exists (x :: l1), x', l2. split; [done|].
        split; [|done]. rewrite Hev2, Hev1. csimpl. by rewrite <- !app_assoc.
    + destruct Hcase as [Hev1 Hr]. rewrite (run_bind_Raise _ _ _ _ _ Hfx).
      exists (Raise e), p1.
      split_and!; [done..|]. exists [], x, l. split; [done|]. by rewrite Hev1.
Qed.

Lemma Forall_True {A} (l : list A) : Forall (fun _ => True) l.
Proof. by apply Forall_forall. Qed.

Lemma concat_fmap_singleton {A B} (g : A → B) (l : list A) :
  concat ((fun x => [g x]) <$> l) = g <$> l.
Proof. induction l as [|x l IH]; csimpl; [done|]. by rewrite IH. Qed.

Lemma concat_fmap_nil {A B} (l : list A) : concat ((fun _ => @nil B) <$> l) = [].
Proof. induction l as [|x l IH]; csimpl; done. Qed.

Lemma confirm_cases p :
  ∃ p1, events p1 = events p ++ [Prompt]
        ∧ confirm p = (match head (pending_answers p) with
                       | Some a => Ok a
                       | None => Raise EOFError
                       end, p1).
Proof.
  unfold confirm.
  destruct (pending_answers p) as [|[] rest]; eexists; (split; [|reflexivity]); done.
Qed.

(** The lines written for a list of translated files. *)
Lemma writes_of_files (l : list (string * list string * (TranslationFile.t * Heap))) :
  Forall (fun x => ∃ out, rewrite_file x.2.2 x.2.1 x.1.2 = Ok out) l →
  ∃ outs,
    length outs = length l
    ∧ concat ((fun x => match rewrite_file x.2.2 x.2.1 x.1.2 with
                        | Ok out => [WriteFile x.1.1 out]
                        | Raise _ => []
                        end) <$> l)
      = zip_with WriteFile ((fun x => x.1.1) <$> l) outs.
Proof.
  induction 1 as [|x l [out Hout] _ (outs & Hlen & IH)].
  - by exists [].
  - exists (out :: outs). csimpl. rewrite Hout, IH. split; [by rewrite Hlen|done].
Qed.

Lemma writes_are_writes (l : list (string * list string * (TranslationFile.t * Heap))) :
  Forall (fun ev => ∃ file out, ev = WriteFile file out)
         (concat ((fun x => match rewrite_file x.2.2 x.2.1 x.1.2 with
                            | Ok out => [WriteFile x.1.1 out]
                            | Raise _ => []
                            end) <$> l)).
Proof.
  induction l as [|x l IH]; csimpl; [constructor|].
  apply Forall_app. split; [|done].
  destruct (rewrite_file _ _ _); repeat constructor. by eexists _, _.
Qed.

(** How a call of [main] can end, with the events of each case: during
    parsing or the estimate; at the prompt, declined or left without an
    answer; during translation or writeback; or at the end. *)
Lemma main_outcome inv a p r p' :
  main inv a p = (r, p') →
  let files := fst <$> source_files inv in
  (∃ e l1 file text_lines,
     r = Raise e ∧ events p' = events p ++ cache_setup inv ++ (ParseFile <$> l1)
     ∧ (file, text_lines) ∈ source_files inv ∧ parse_file file text_lines = Raise e)
  ∨ ((r = Raise (SystemExit 1) ∧ head (pending_answers p) = Some false
      ∨ r = Raise EOFError ∧ head (pending_answers p) = None)
     ∧ events p' = events p ++ cache_setup inv ++ (ParseFile <$> files) ++ [Prompt])
  ∨ (head (pending_answers p) = Some true
     ∧ ∃ e calls writes,
         r = Raise e
         ∧ events p' = events p ++ cache_setup inv ++ (ParseFile <$> files) ++ [Prompt]
                       ++ (Translate <$> calls) ++ writes
         ∧ Forall (fun ev => ∃ file out, ev = WriteFile file out) writes)
  ∨ (head (pending_answers p) = Some true ∧ r = Ok tt
     ∧ ∃ calls outs cache,
         length calls = length files ∧ length outs = length files
         ∧ events p' = events p ++ cache_setup inv ++ (ParseFile <$> files) ++ [Prompt]
                       ++ (Translate <$> calls) ++ zip_with WriteFile files outs
                       ++ [PersistCache cache]).
Proof.
  intros Hmain files. unfold main in Hmain.
  (* the cache file *)
  assert (H1 : ∃ p2,
    run_bind match cache_file inv with
             | Some _ => run_ret ()
             | None => emit CreateCache
             end (fun _ => emit LoadCache) p = (Ok tt, p2)
    ∧ pending_answers p2 = pending_answers p
    ∧ events p2 = events p ++ cache_setup inv).
  { unfold cache_setup. destruct (cache_file inv); eexists; (split_and!; [reflexivity|done|]);
      simpl; by rewrite <- ?app_assoc. }
  destruct H1 as (p2 & H1 & Hpend1 & Hev1).
  unfold run_bind at 1 in Hmain. unfold run_bind at 1 in H1.
  destruct (match cache_file inv with Some _ => run_ret () | None => emit CreateCache end p)
    as [[[]|e0] p1]; [|done].
  unfold run_bind at 1 in Hmain. rewrite H1 in Hmain. clear H1.
  (* parsing *)
  lazymatch type of Hmain with
  | run_bind (run_each ?f ?l) ?k ?q = _ =>
      destruct (run_each_trace f (fun _ => True)
                  (fun x => [ParseFile (fst x)]) (fun x => [ParseFile (fst x)])
                  (fun x y => y.1 = x ∧ parse_file x.1 x.2 = Ok y.2)
                  (fun x e => parse_file x.1 x.2 = Raise e) l) with (p := q)
        as ([file_map|e] & p3 & H2 & Hpend2 & Hcase2)
  end.
  { intros [file tl] q _. unfold run_bind, emit, run_lift, run_ret. simpl.
    destruct (parse_file file tl) as [parsed|e]; eexists _, _; split_and!; done. }
  { apply Forall_True. }
  2: { rewrite (run_bind_Raise _ _ _ _ _ H2) in Hmain. injection Hmain as <- <-.
       destruct Hcase2 as (l1 & [file tl] & l2 & Hl & Hev2 & Hraise). left.
       exists e, ((fst <$> l1) ++ [file]), file, tl. split; [done|].
       split_and!; [|rewrite Hl; apply elem_of_app; right; by left|done].
       rewrite Hev2, Hev1, concat_fmap_singleton, fmap_app, <- !app_assoc.
       by rewrite <- list_fmap_compose. }
  rewrite (run_bind_Ok _ _ _ _ _ H2) in Hmain. clear H2.
  destruct Hcase2 as [Hev2 Hmap]. rewrite concat_fmap_singleton in Hev2.
  change (events p3 = events p2 ++ ((ParseFile ∘ fst) <$> source_files inv)) in Hev2.
  rewrite list_fmap_compose in Hev2. fold files in Hev2.
  assert (Hnames : (fun y => y.1.1) <$> file_map = files).
  { subst files. clear -Hmap. induction Hmap as [|x y l l' [<- _] _ IH]; csimpl; [done|].
    by rewrite IH. }
  (* the estimate *)
  lazymatch type of Hmain with
  | run_bind (run_each ?f ?l) ?k ?q = _ =>
      destruct (run_each_trace f (fun y => ∃ file tl, parse_file file tl = Ok y.2)
                  (fun _ => []) (fun _ => []) (fun _ _ => True) (fun _ _ => False) l)
        with (p := q) as ([est|e] & p4 & H3 & Hpend3 & Hcase3)
  end.
  { intros [[file tl] [tf hp]] q (file' & tl' & Hparsed). unfold run_lift.
    destruct (estimate_parsed _ _ (target_language a)
                (mkWorld (default ∅ (cache_file inv)) []) _ _ Hparsed) as [price ->].
    eexists _, _; split_and!; by rewrite ?app_nil_r. }
  { clear -Hmap. induction Hmap as [|x y l l' [_ Hxy] _ IH]; constructor; [|done].
    by exists x.1, x.2. }
  2: { by destruct Hcase3 as (? & ? & ? & _ & _ & []). }
  rewrite (run_bind_Ok _ _ _ _ _ H3) in Hmain. clear H3.
  destruct Hcase3 as [Hev3 _]. rewrite concat_fmap_nil, app_nil_r in Hev3.
  (* the prompt *)
  destruct (confirm_cases p4) as (p5 & Hev4 & H4).
  rewrite Hpend3, Hpend2, Hpend1 in H4.
  assert (Hev5 : events p5 = events p ++ cache_setup inv ++ (ParseFile <$> files) ++ [Prompt]).
  { by rewrite Hev4, Hev3, Hev2, Hev1, <- !app_assoc. }
  clear Hev4 Hev3 Hev2 Hev1 Hpend1 Hpend2 Hpend3 p1 p2 p3.
  destruct (head (pending_answers p)) as [[|]|] eqn:Hyes.
  2: { rewrite (run_bind_Ok _ _ _ _ _ H4) in Hmain. cbn [negb] in Hmain.
       injection Hmain as <- <-. right; left. split; [by left|done]. }
  2: { rewrite (run_bind_Raise _ _ _ _ _ H4) in Hmain.
       injection Hmain as <- <-. right; left. split; [by right|done]. }
  rewrite (run_bind_Ok _ _ _ _ _ H4) in Hmain. clear H4. cbn [negb] in Hmain.
  right; right.
  (* the translation *)
  lazymatch type of Hmain with
  | run_bind (?tr ?fm ?w0) ?k ?q = _ =>
      assert (Htr : ∀ l w q, ∃ r q' calls,
                tr l w q = (r, q')
                ∧ events q' = events q ++ (Translate <$> calls)
                ∧ match r with
                  | Ok done => length calls = length l ∧ Forall2 (fun x y => y.1 = x.1) l done.1
                  | Raise _ => True
                  end)
  end.
  { clear. induction l as [|[[file tl] [tf hp]] l IH]; intros w q.
    - exists (Ok ([], w)), q, []. simpl. by rewrite app_nil_r.
    - unfold run_bind at 1, run_lift at 1.
      destruct (TranslationFile.translate _ _ _ _ _) as [r1|e].
      2: { exists (Raise e), q, []. simpl. by rewrite app_nil_r. }
      unfold run_bind at 1, emit at 1.
      match goal with
      | |- context [run_bind (_ l r1.2) _ ?q1] =>
          destruct (IH r1.2 q1) as ([done|e] & q2 & calls & Hl & Hev & Hcase)
      end.
      + rewrite (run_bind_Ok _ _ _ _ _ Hl). eexists (Ok _), q2, (_ :: calls).
        split; [reflexivity|]. destruct Hcase as [Hlen Hdone].
        split_and!; [|simpl; by rewrite Hlen|by constructor].
        rewrite Hev. simpl. by rewrite <- app_assoc.
      + rewrite (run_bind_Raise _ _ _ _ _ Hl). eexists (Raise e), q2, (_ :: calls).
        split; [reflexivity|]. split; [|done]. rewrite Hev. simpl. by rewrite <- app_assoc. }
  lazymatch type of Hmain with
  | run_bind (?tr ?fm ?w0) ?k ?q = _ =>
      destruct (Htr fm w0 q) as ([translated|e] & p6 & calls & H5 & Hev6 & Hcase5)
  end.
  2: { rewrite (run_bind_Raise _ _ _ _ _ H5) in Hmain. injection Hmain as <- <-.
       left. split; [done|]. exists e, calls, []. split_and!; [done| |constructor].
       by rewrite Hev6, Hev5, app_nil_r, <- !app_assoc. }
  rewrite (run_bind_Ok _ _ _ _ _ H5) in Hmain. clear H5 Htr.
  destruct Hcase5 as [Hcalls Hdone].
  assert (Hnames' : (fun y => y.1.1) <$> translated.1 = files).
  { rewrite <- Hnames. clear -Hdone.
    induction Hdone as [|x y l l' Hxy _ IH]; csimpl; [done|]. by rewrite IH, Hxy. }
  (* the writeback *)
  lazymatch type of Hmain with
  | run_bind (run_each ?f ?l) ?k ?q = _ =>
      destruct (run_each_trace f (fun _ => True)
                  (fun x => match rewrite_file x.2.2 x.2.1 x.1.2 with
                            | Ok out => [WriteFile x.1.1 out]
                            | Raise _ => []
                            end)
                  (fun _ => [])
                  (fun x _ => ∃ out, rewrite_file x.2.2 x.2.1 x.1.2 = Ok out)
                  (fun _ _ => True) l) with (p := q)
        as ([written|e] & p7 & H6 & _ & Hcase6)
  end.
  { intros [[file tl] [tf hp]] q _. unfold run_bind, run_lift, emit. simpl.
    destruct (rewrite_file hp tf tl) as [out|e]; eexists _, _;
      (split; [reflexivity|]); (split; [done|]); simpl; rewrite ?app_nil_r; eauto. }
  { apply Forall_True. }
  - rewrite (run_bind_Ok _ _ _ _ _ H6) in Hmain. injection Hmain as <- <-.
    right. split; [done|]. split; [done|].
    destruct Hcase6 as [Hev7 Hall].
    destruct (writes_of_files translated.1) as (outs & Hlen & Hwrites).
    { clear -Hall. induction Hall; constructor; done. }
    rewrite Hwrites, Hnames' in Hev7.
    exists calls, outs, (TRANSLATION_CACHE translated.2).
    assert (Hfm : length file_map = length files) by (by rewrite <- Hnames, length_fmap).
    split_and!.
    + congruence.
    + rewrite Hlen, <- Hnames'. by rewrite length_fmap.
    + simpl. rewrite Hev7, Hev6, Hev5. by rewrite <- !app_assoc.
  - rewrite (run_bind_Raise _ _ _ _ _ H6) in Hmain. injection Hmain as <- <-.
    left. split; [done|]. destruct Hcase6 as (l1 & x & l2 & Hl & Hev7 & _).
    eexists e, calls, _. split_and!; [done| |apply (writes_are_writes l1)].
    rewrite Hev7, Hev6, Hev5, app_nil_r. by rewrite <- !app_assoc.
Qed.



(** X24. When [main] returns, its events are, in this order: the cache
    file created if it was missing, and read; every source file parsed;
    one prompt; one round of client calls per file; one file written per
    source file; and the cache persisted. *)
Theorem main_success_trace inv a p p' :
  main inv a p = (Ok tt, p') →
  ∃ calls outs cache,
    length calls = length (source_files inv)
    ∧ length outs = length (source_files inv)
    ∧ events p'
      = events p ++ cache_setup inv ++ (ParseFile <$> (fst <$> source_files inv)) ++ [Prompt]
        ++ (Translate <$> calls)
        ++ zip_with WriteFile (fst <$> source_files inv) outs
        ++ [PersistCache cache].
Proof.
  intros Hmain. apply main_outcome in Hmain
    as [(? & ? & ? & ? & ? & _)|[([[? _]|[? _]] & _)|[(_ & ? & ? & ? & ? & _)
        |(_ & _ & calls & outs & cache & Hcalls & Houts & Hev)]]]; [done..|].
  rewrite length_fmap in Hcalls, Houts. by exists calls, outs, cache.
Qed.

Lemma main_success_trace_witness :
  ∃ p' calls outs cache,
    main Sample.good_invocation
      {| input_dir := "tl"; target_language := "fr";
         api_file := "key.json"; output_dir := "out" |}
      {| globals := []; events := []; pending_answers := [true] |} = (Ok tt, p')
    ∧ length calls = 1
    ∧ length outs = 1
    ∧ events p'
      = [] ++ cache_setup Sample.good_invocation
        ++ (ParseFile <$> (fst <$> source_files Sample.good_invocation)) ++ [Prompt]
        ++ (Translate <$> calls)
        ++ zip_with WriteFile (fst <$> source_files Sample.good_invocation) outs
        ++ [PersistCache cache].
Proof.
  eexists. 
  assert (H : ∀ (P : Prop) (x y : Result () * Proc), x = y → (x = y → P) → P) by auto.
  match goal with
  | |- ∃ calls outs cache, ?x = ?y ∧ @?Q calls outs cache =>
      apply (H (∃ calls outs cache, x = y ∧ Q calls outs cache) x y)
  end; [vm_compute; reflexivity|].
  intros Hmain.
  destruct (main_success_trace _ _ _ _ Hmain) as (calls & outs & cache & H1 & H2 & H3).
  by exists calls, outs, cache.
Defined.

(** X25. When [main] ends with an exception, whatever it is, the cache is
    not persisted: what the client returned in this run is lost. *)
Theorem main_failure_persists_nothing inv a p e p' :
  main inv a p = (Raise e, p') →
  ∃ evs, events p' = events p ++ evs ∧ Forall (fun ev => persists ev = false) evs.
Proof.
  assert (Hsetup : Forall (fun ev => persists ev = false) (cache_setup inv)).
  { unfold cache_setup. destruct (cache_file inv); by repeat constructor. }
  assert (Hparse : ∀ l, Forall (fun ev => persists ev = false) (ParseFile <$> l)).
  { intros l. apply Forall_fmap, Forall_forall. done. }
  assert (Htr : ∀ l, Forall (fun ev => persists ev = false) (Translate <$> l)).
  { intros l. apply Forall_fmap, Forall_forall. done. }
  intros Hmain. apply main_outcome in Hmain
    as [(? & l1 & ? & ? & _ & Hev & _)|[(_ & Hev)
        |[(_ & ? & calls & writes & _ & Hev & Hwrites)|(_ & ? & _)]]]; [..|done];
    eexists; (split; [exact Hev|]); repeat (apply Forall_app; split); try done;
    [by repeat constructor..|].
  eapply Forall_impl; [exact Hwrites|]. by intros ev (file & out & ->).
Qed.

Lemma main_failure_persists_nothing_witness :
  ∃ p' evs,
    main Sample.good_invocation
      {| input_dir := "tl"; target_language := "fr";
         api_file := "key.json"; output_dir := "out" |}
      {| globals := []; events := []; pending_answers := [false] |}
    = (Raise (SystemExit 1), p')
    ∧ events p' = [] ++ evs
    ∧ Forall (fun ev => persists ev = false) evs.
Proof.
  eexists.
  assert (H : ∀ (P : Prop) (x y : Result () * Proc), x = y → (x = y → P) → P) by auto.
  match goal with
  | |- ∃ evs, ?x = ?y ∧ @?Q evs => apply (H (∃ evs, x = y ∧ Q evs) x y)
  end; [vm_compute; reflexivity|].
  intros Hmain.
  destruct (main_failure_persists_nothing _ _ _ _ _ Hmain) as (evs & H1 & H2).
  by exists evs.
Defined.

(** ** What [confirm] takes for a yes *)

Lemma lower_char_y c : lower_char c = "y"%char → c = "y"%char ∨ c = "Y"%char.
Proof. destruct c as [[] [] [] [] [] [] [] []]; vm_compute; intros; (discriminate || auto). Qed.

Lemma lower_char_e c : lower_char c = "e"%char → c = "e"%char ∨ c = "E"%char.
Proof. destruct c as [[] [] [] [] [] [] [] []]; vm_compute; intros; (discriminate || auto). Qed.

Lemma lower_char_s c : lower_char c = "s"%char → c = "s"%char ∨ c = "S"%char.
Proof. destruct c as [[] [] [] [] [] [] [] []]; vm_compute; intros; (discriminate || auto). Qed.

(** X26. [confirm] returns [True] exactly on the ten spellings of y and
    yes in capital and small letters; anything else, a text with a space
    before or after included, is a no. *)
Theorem accepts_iff typed :
  accepts typed = true
  ↔ typed ∈ ["y"; "Y"; "yes"; "yeS"; "yEs"; "yES"; "Yes"; "YeS"; "YEs"; "YES"].
Proof.
  unfold accepts. rewrite bool_decide_eq_true. split.
  - intros [Hy|[Hyes|[]%elem_of_nil]%elem_of_cons]%elem_of_cons.
    + destruct typed as [|c1 [|c2 typed]]; [done| |done].
      injection Hy as Hy. apply lower_char_y in Hy as [->| ->]; set_solver.
    + destruct typed as [|c1 [|c2 [|c3 [|c4 typed]]]]; [done..| |done].
      injection Hyes as H1 H2 H3.
      apply lower_char_y in H1 as [->| ->]; apply lower_char_e in H2 as [->| ->];
        apply lower_char_s in H3 as [->| ->]; set_solver.
  - intros H. repeat (apply elem_of_cons in H as [->|H]; [vm_compute; set_solver|]).
    by apply elem_of_nil in H.
Qed.

(** ** The output directory *)

(** [main] never removes a directory. *)
Lemma main_removes_nothing inv a p :
  ∃ evs, events (snd (main inv a p)) = events p ++ evs ∧ RemoveTree ∉ evs.
Proof.
  assert (Hsetup : RemoveTree ∉ cache_setup inv).
  { unfold cache_setup.
    destruct (cache_file inv); repeat (apply not_elem_of_cons; split; [done|]);
      apply not_elem_of_nil. }
  assert (Hparse : ∀ l : list string, RemoveTree ∉ (ParseFile <$> l)).
  { intros l (? & ? & _)%list_elem_of_fmap. done. }
  assert (Htr : ∀ l : list (list (string * string)), RemoveTree ∉ (Translate <$> l)).
  { intros l (? & ? & _)%list_elem_of_fmap. done. }
  assert (Hwr : ∀ (l1 : list string) (l2 : list (list string)),
            RemoveTree ∉ zip_with WriteFile l1 l2).
  { intros l1 l2 Hin. apply list_elem_of_lookup in Hin as [i Hi].
    apply lookup_zip_with_Some in Hi as (? & ? & ? & _). done. }
  destruct (main inv a p) as [r p'] eqn:Hmain. simpl.
  apply main_outcome in Hmain
    as [(? & l1 & ? & ? & _ & Hev & _)|[(_ & Hev)
        |[(_ & ? & calls & writes & _ & Hev & Hwrites)|(_ & _ & calls & outs & c & _ & _ & Hev)]]];
    eexists; (split; [exact Hev|]); rewrite ?not_elem_of_app; split_and!; try done;
    try (by intros ?%list_elem_of_singleton).
  intros Hin. rewrite Forall_forall in Hwrites. by destruct (Hwrites _ Hin) as (? & ? & ?).
Qed.

(** X27. Whatever the invocation, the script removes the output directory
    only if it exists and the first answer at the prompt was a yes. *)
Theorem remove_tree_needs_consent inv p :
  ∃ evs,
    events (snd (script inv p)) = events p ++ evs
    ∧ (RemoveTree ∈ evs →
       output_dir_exists inv = true ∧ head (pending_answers p) = Some true).
Proof.
  unfold script. destruct (args inv) as [a|].
  2: { exists []. simpl. rewrite app_nil_r. split; [done|]. by intros ?%elem_of_nil. }
  pose proof (main_removes_nothing inv a) as Hmain. revert Hmain.
  generalize (main inv a). intros m Hmain.
  unfold check. destruct (output_dir_exists inv).
  - destruct (confirm_cases p) as (p1 & Hev1 & Hc). unfold run_bind. rewrite Hc.
    destruct (head (pending_answers p)) as [[|]|].
    + assert (∃ evs, events
                (match emit RemoveTree p1 with
                 | (Ok _, p2) =>
                     match emit LoadClient p2 with
                     | (Ok _, p3) =>
                         (if negb (bool_decide (target_language a ∈ available_languages inv))
                          then run_raise (SystemExit 1) else m) p3
                     | (Raise e, p3) => (Raise e, p3)
                     end
                 | (Raise e, p2) => (Raise e, p2)
                 end).2 = events p ++ evs) as [evs Hevs]; [|by exists evs].
      cbn [emit]. destruct (negb _).
      * eexists. cbn [run_raise snd events]. rewrite Hev1, <- !app_assoc. reflexivity.
      * match goal with |- context [m ?q] => destruct (Hmain q) as (evs & -> & _) end.
        eexists. cbn [events]. rewrite Hev1, <- !app_assoc. reflexivity.
    + exists [Prompt]. split; [by rewrite <- Hev1|].
      intros Hin%list_elem_of_singleton. done.
    + exists [Prompt]. split; [by rewrite <- Hev1|].
      intros Hin%list_elem_of_singleton. done.
  - unfold run_bind, run_ret. cbn [emit]. destruct (negb _).
    + exists [LoadClient]. split; [done|]. intros Hin%list_elem_of_singleton. done.
    + match goal with |- context [m ?q] => destruct (Hmain q) as (evs & -> & Hno) end.
      exists (LoadClient :: evs). cbn [events]. rewrite <- app_assoc. split; [done|].
      intros [?|?]%elem_of_cons; done.
Qed.

(** X28. The output directory is removed before the target language is
    checked: when the directory exists, the answer is yes and the language
    is not supported, the script has removed the directory and loaded the
    client when it exits with status 1. *)
Theorem remove_tree_before_language_check inv a p rest :
  args inv = Some a →
  output_dir_exists inv = true →
  pending_answers p = true :: rest →
  target_language a ∉ available_languages inv →
  script inv p
  = (Raise (SystemExit 1),
     {| globals := globals p;
        events := events p ++ [Prompt; RemoveTree; LoadClient];
        pending_answers := rest |}).
Proof.
  intros Hargs Hexists Hyes Hlang. unfold script, check. rewrite Hargs, Hexists.
  unfold run_bind, confirm. rewrite Hyes. cbn [emit events globals pending_answers].
  rewrite bool_decide_eq_false_2 by done. cbn [negb run_raise].
  by rewrite <- !app_assoc.
Qed.

Lemma remove_tree_before_language_check_witness :
  script
    {| importable := fun _ => true;
       run_as_script := true;
       args := Some {| input_dir := "tl"; target_language := "xx";
                       api_file := "key.json"; output_dir := "out" |};
       output_dir_exists := true;
       answers := [true];
       available_languages := ["de"; "fr"];
       cache_file := None;
       source_files := [("tl/script.rpy", Sample.hello_file)];
       TRANSLATION_CLIENT := Sample.client_brackets |}
    {| globals := []; events := []; pending_answers := [true] |}
  = (Raise (SystemExit 1),
     {| globals := []; events := [] ++ [Prompt; RemoveTree; LoadClient];
        pending_answers := [] |}).
Proof.
  apply (remove_tree_before_language_check _
           {| input_dir := "tl"; target_language := "xx";
              api_file := "key.json"; output_dir := "out" |}
           {| globals := []; events := []; pending_answers := [true] |});
    [reflexivity..|].
  repeat (apply not_elem_of_cons; split; [done|]). apply not_elem_of_nil.
Defined.

(** ** The lines of the files *)


















